(** * dba-mcp: database abstraction and migration engine

    A shallow embedding of the multi-vendor [DatabaseService], of the
    [DataMigrationService] built on it and of the [replicate_database]
    request handler, together with the properties their specification states.

    The JavaScript code is asynchronous but strictly sequential (every native
    call is awaited before the next one starts), so an operation is modelled as
    a state transformer over a [world]: the state of the native drivers plus a
    journal of the native calls issued so far.  Exceptions are an explicit
    outcome, [try]/[catch]/[finally] are combinators.

    What lies outside the repository (the five client libraries and the
    databases behind them) is a parameter, a [Driver]: nothing is assumed of
    its answers beyond their shape, and every native call is assumed to
    settle.  Console output is not modelled.  Text is UTF-8, a string being the
    bytes that encode it: the white-space characters are those of JavaScript,
    upper-casing is that of ASCII letters; numbers are integers. *)

From Stdlib Require Import ZArith String Ascii List Bool Lia DecimalString.
From Stdlib Require Import Permutation Sorted.
Import ListNotations.

Local Open Scope string_scope.
Local Open Scope Z_scope.
Local Open Scope list_scope.

Set Implicit Arguments.

(* ================================================================== *)
(** * JavaScript values *)
(* ================================================================== *)

(** The loosely typed scalars a driver hands back in a row, and the members
    that a plain object inherits from [Object.prototype], each known by its
    name.  Numbers are integers; floating point values are outside the
    model. *)
Inductive value : Type :=
| VUndefined
| VNull
| VBool (b : bool)
| VNum (n : Z)
| VStr (s : string)
| VNative (member : string).

(** The text of an integer in a template literal.  Integers print in plain
    decimal below 10^21 in magnitude, which covers every safe integer. *)
Definition string_of_Z (z : Z) : string := NilZero.string_of_int (Z.to_int z).


(** [!!v] *)
Definition truthy (v : value) : bool :=
  match v with
  | VUndefined | VNull => false
  | VBool b => b
  | VNum n => negb (n =? 0)
  | VStr s => negb (s =? "")%string
  | VNative _ => true
  end.

(** [v || d] *)
Definition or_else (v d : value) : value := if truthy v then v else d.

(** [`${v}`] *)
Definition template (v : value) : string :=
  match v with
  | VUndefined => "undefined"
  | VNull => "null"
  | VBool true => "true"
  | VBool false => "false"
  | VNum n => string_of_Z n
  | VStr s => s
  | VNative member =>
      if (member =? "__proto__")%string then "[object Object]"
      else ("function "
              ++ (if (member =? "constructor")%string then "Object" else member)
              ++ "() { [native code] }")%string
  end.

(** The text [Array.prototype.join] uses for one element: [undefined] and
    [null] are rendered as the empty string. *)
Definition join_item (v : value) : string :=
  match v with
  | VUndefined | VNull => ""
  | _ => template v
  end.

(** [xs.join(sep)] *)
Definition join (sep : string) (xs : list string) : string := String.concat sep xs.

Definition value_eqb (a b : value) : bool :=
  match a, b with
  | VUndefined, VUndefined => true
  | VNull, VNull => true
  | VBool x, VBool y => Bool.eqb x y
  | VNum x, VNum y => x =? y
  | VStr x, VStr y => (x =? y)%string
  | VNative x, VNative y => (x =? y)%string
  | _, _ => false
  end.

(** [String.prototype.toUpperCase] on ASCII text: the letters [a] to [z]
    become [A] to [Z] and every other character stays.  On text with letters
    outside ASCII the method also maps those, which this definition does not:
    statements that depend on it say which text they are about. *)
Definition upper_ascii (c : ascii) : ascii :=
  let n := nat_of_ascii c in
  if ((97 <=? n) && (n <=? 122))%nat then ascii_of_nat (n - 32) else c.

Fixpoint toUpperCase (s : string) : string :=
  match s with
  | EmptyString => EmptyString
  | String c r => String (upper_ascii c) (toUpperCase r)
  end.

(** A row object: its own properties, names in insertion order with their
    values.  A well-formed row has no repeated name. *)
Definition row : Type := list (string * value).

(** The own property [k] of [r], [undefined] when it has none: what [r.k]
    gives for the names the code writes out, none of which is a member of
    [Object.prototype]. *)
Definition get (r : row) (k : string) : value :=
  match find (fun kv => (fst kv =? k)%string) r with
  | Some kv => snd kv
  | None => VUndefined
  end.

(** The members every plain object inherits from [Object.prototype]. *)
Definition inherited_members : list string :=
  [ "constructor"; "toString"; "toLocaleString"; "valueOf"; "hasOwnProperty";
    "isPrototypeOf"; "propertyIsEnumerable"; "__proto__"; "__defineGetter__";
    "__defineSetter__"; "__lookupGetter__"; "__lookupSetter__" ]%string.

(** [r[k]] for a computed name [k]: the own property, else the inherited
    member of that name, else [undefined]. *)
Definition read (r : row) (k : string) : value :=
  match find (fun kv => (fst kv =? k)%string) r with
  | Some kv => snd kv
  | None => if existsb (String.eqb k) inherited_members then VNative k else VUndefined
  end.

(** [Object.keys(r)].  Column names are not array indices (runs of digits),
    which JavaScript would list first, in numeric order. *)
Definition keys (r : row) : list string := map fst r.

(** [Object.values(r)] *)
Definition values (r : row) : list value := map snd r.

(** [r[k] = v]: overwrite in place or append. *)
Fixpoint set (r : row) (k : string) (v : value) : row :=
  match r with
  | [] => [(k, v)]
  | (k', v') :: rest =>
      if (k' =? k)%string then (k, v) :: rest else (k', v') :: set rest k v
  end.

(** [xs.slice(a, b)] with JavaScript's treatment of negative and
    out-of-range indices. *)
Definition slice {A} (xs : list A) (a b : Z) : list A :=
  let n := Z.of_nat (length xs) in
  let k := if a <? 0 then Z.max (n + a) 0 else Z.min a n in
  let f := if b <? 0 then Z.max (n + b) 0 else Z.min b n in
  firstn (Z.to_nat (f - k)) (skipn (Z.to_nat k) xs).

(* ================================================================== *)
(** * Outcomes and the operation monad *)
(* ================================================================== *)

(** What a native driver call settles to: a value, or an error carrying its
    [message]. *)
Inductive result (A : Type) : Type :=
| Ok (a : A)
| Err (message : string).
Arguments Err {A} message.

(** What an operation of the service does: it returns, it throws an error
    with the given [message], or it never settles. *)
Inductive outcome (A : Type) : Type :=
| Return (a : A)
| Throw (message : string)
| Hang.
Arguments Throw {A} message.
Arguments Hang {A}.

Definition is_ok {A} (r : result A) : bool :=
  match r with Ok _ => true | Err _ => false end.

Definition settle {A} (r : result A) : outcome A :=
  match r with Ok a => Return a | Err e => Throw e end.

(** Identity of a native pool or handle ([DatabaseConnection.pool]). *)
Definition pool_ref : Type := nat.

(** ** Shapes of the native replies *)

(** oracledb: [execute] options and results. *)
Record ora_options : Type := {
  opt_maxRows : option Z;
  opt_outFormat : option Z
}.

Record ora_result : Type := {
  metaData : option (list string);
  ora_rows : option (list row);
  rowsAffected : option Z
}.

(** pg: a query result always carries [fields] and [rows]. *)
Record pg_result : Type := {
  fields : list string;
  pg_rows : list row;
  pg_rowCount : option Z
}.

(** mysql2: [query] resolves to a pair whose first component is a row array
    (with its field list) for a row-returning statement and a result header
    for any other statement. *)
Inductive mysql_reply : Type :=
| MyRows (rs : list row) (fs : list string)
| MyHeader (affectedRows : Z).

(** The event-driven driver: what a request emits before its terminal
    event, and the terminal event itself.  A request ends with exactly one
    terminal event and emits nothing after it. *)
Inductive mssql_item : Type :=
| ColumnMetadata (cols : list string)
| RowEvent (data : list (string * value)).

Inductive mssql_end : Type :=
| RequestCompleted
| ErrorEvent (message : string).

Definition mssql_stream : Type := (list mssql_item * mssql_end)%type.

(** ** The journal of native calls *)

Inductive native_call : Type :=
| ora_getConnection_call (p : pool_ref)
| ora_execute_call (p : pool_ref) (sql : string) (binds : row) (o : ora_options)
| ora_executeMany_call (p : pool_ref) (sql : string) (binds : list (list value))
| ora_close_call (p : pool_ref)
| pg_query_call (p : pool_ref) (sql : string) (params : list value)
| mysql_query_call (p : pool_ref) (sql : string) (params : list value)
| mssql_query_call (p : pool_ref) (sql : string)
| sqlite_prepare_call (p : pool_ref) (sql : string)
| sqlite_all_call (p : pool_ref) (sql : string)
| sqlite_get_call (p : pool_ref) (sql : string)
| sqlite_run_call (p : pool_ref) (sql : string) (params : list value)
| sqlite_exec_call (p : pool_ref) (sql : string).

(** ** The native drivers

    Everything outside the repository: the five client libraries and the
    databases behind them, over a state [S] of their own.  A native call is
    assumed to settle. *)
Record Driver (S : Type) : Type := {
  now : S -> Z;
  ora_getConnection : pool_ref -> S -> result unit * S;
  ora_execute : pool_ref -> string -> row -> ora_options -> S -> result ora_result * S;
  ora_executeMany : pool_ref -> string -> list (list value) -> S -> result ora_result * S;
  ora_close : pool_ref -> S -> result unit * S;
  ora_connectionsInUse : pool_ref -> S -> option Z;
  pg_query : pool_ref -> string -> list value -> S -> result pg_result * S;
  pg_totalCount : pool_ref -> S -> option Z;
  mysql_query : pool_ref -> string -> list value -> S -> result mysql_reply * S;
  mssql_query : pool_ref -> string -> S -> result mssql_stream * S;
  sqlite_prepare : pool_ref -> string -> S -> result unit * S;
  sqlite_all : pool_ref -> string -> S -> result (list row) * S;
  sqlite_get : pool_ref -> string -> S -> result (option row) * S;
  sqlite_run : pool_ref -> string -> list value -> S -> result unit * S;
  sqlite_exec : pool_ref -> string -> S -> result unit * S
}.

(** ** Worlds and operations *)

Record world (S : Type) : Type := {
  st : S;
  journal : list (native_call * bool)
}.

(** A computation over a mutable state [W] that returns, throws or
    hangs. *)
Definition St (W A : Type) : Type := W -> outcome A * W.

Definition ret {W A} (a : A) : St W A := fun w => (Return a, w).

Definition throw {W A} (message : string) : St W A := fun w => (Throw message, w).

Definition bind {W A B} (m : St W A) (k : A -> St W B) : St W B :=
  fun w =>
    match m w with
    | (Return a, w') => k a w'
    | (Throw e, w') => (Throw e, w')
    | (Hang, w') => (Hang, w')
    end.

(** [try { m } catch (e) { h e.message }] *)
Definition try_catch {W A} (m : St W A) (h : string -> St W A) : St W A :=
  fun w =>
    match m w with
    | (Throw e, w') => h e w'
    | other => other
    end.

(** [try { m } finally { f }]: [f] runs on both exits of [m]; an error of
    [f] replaces the outcome of [m]. *)
Definition try_finally {W A} (m : St W A) (f : St W unit) : St W A :=
  fun w =>
    match m w with
    | (Hang, w') => (Hang, w')
    | (r, w') =>
        match f w' with
        | (Return _, w'') => (r, w'')
        | (Throw e, w'') => (Throw e, w'')
        | (Hang, w'') => (Hang, w'')
        end
    end.

(** Lifting a pure computation that may raise a [TypeError]. *)
Definition of_result {W A} (r : result A) : St W A := fun w => (settle r, w).

(** An operation of the services: a computation over the world. *)
Definition M (S A : Type) : Type := St (world S) A.

(** One awaited native call: the driver answers and the call is journalled
    with its success flag. *)
Definition native {S A} (c : native_call) (f : S -> result A * S) : M S A :=
  fun w =>
    let '(r, s') := f (st w) in
    (settle r, {| st := s'; journal := journal w ++ [(c, is_ok r)] |}).

(** Reading a property of a native handle. *)
Definition peek {S A} (f : S -> A) : M S A := fun w => (Return (f (st w)), w).

Declare Scope op_scope.
Delimit Scope op_scope with op.
Notation "x <- m ;; k" := (bind m (fun x => k))
  (at level 61, m at next level, right associativity) : op_scope.
Notation "m ;;; k" := (bind m (fun _ => k))
  (at level 61, right associativity) : op_scope.
Local Open Scope op_scope.

(** [xs.map(f)] where [f] may throw: the first failure aborts the map. *)
Fixpoint map_result {A B} (f : A -> result B) (xs : list A) : result (list B) :=
  match xs with
  | [] => Ok []
  | x :: rest =>
      match f x with
      | Err e => Err e
      | Ok y =>
          match map_result f rest with
          | Err e => Err e
          | Ok ys => Ok (y :: ys)
          end
      end
  end.

(* ================================================================== *)
(** * Data model ([types.ts]) *)
(* ================================================================== *)

(** The vendor tag of a handle.  The declared type has six tags; the
    compiled dispatchers also have a [default] branch for any other tag. *)
Inductive vendor : Type :=
| oracle
| postgresql
| mysql
| mariadb
| sqlserver
| sqlite
| other_vendor (tag : string).

Definition vendor_tag (v : vendor) : string :=
  match v with
  | oracle => "oracle"
  | postgresql => "postgresql"
  | mysql => "mysql"
  | mariadb => "mariadb"
  | sqlserver => "sqlserver"
  | sqlite => "sqlite"
  | other_vendor tag => tag
  end.

Record connection_config : Type := {
  schema : option string;
  database : option string;
  maxPoolSize : option Z
}.

Record DatabaseConnection : Type := {
  id : string;
  vendor_of : vendor;
  pool : pool_ref;
  connectionString : string;
  config : connection_config
}.

Record QueryResult : Type := {
  columns : list string;
  rows : list row;
  rowCount : Z;
  executionTime : Z
}.

Record ColumnInfo : Type := {
  col_name : value;
  dataType : value;
  nullable : bool;
  isPrimaryKey : bool
}.

Inductive table_kind : Type := TABLE | VIEW.

Record TableInfo : Type := {
  tbl_name : value;
  tbl_type : table_kind;
  tbl_schema : value
}.

Record ForeignKeyEdge : Type := {
  fk_column : value;
  refTable : value;
  refColumn : value
}.

Inductive health_status : Type := healthy | unhealthy.

Record PoolStats : Type := {
  total : Z;
  active : Z;
  idle : Z
}.

Record HealthCheckResult : Type := {
  status : health_status;
  hc_vendor : vendor;
  version : value;
  uptime : Z;
  activeConnections : Z;
  poolStats : option PoolStats
}.

(** Truthiness of an optional string property: absent and empty are falsy. *)
Definition given (o : option string) : bool :=
  match o with
  | Some s => negb (s =? "")%string
  | None => false
  end.

(** A default parameter value applies when the argument is [undefined]. *)
Definition default_to (d : string) (o : option string) : string :=
  match o with Some s => s | None => d end.

Definition len {A} (xs : list A) : Z := Z.of_nat (length xs).

(** [n || d] on an optional number. *)
Definition num_or (o : option Z) (d : Z) : Z :=
  match o with
  | Some n => if n =? 0 then d else n
  | None => d
  end.

(** The message of the [TypeError] raised by reading property [prop] of
    [undefined]. *)
Definition type_error (prop : string) : string :=
  ("Cannot read properties of undefined (reading '" ++ prop ++ "')")%string.

(** The same, of [null]. *)
Definition type_error_null (prop : string) : string :=
  ("Cannot read properties of null (reading '" ++ prop ++ "')")%string.

Definition dquote : string := String (ascii_of_nat 34) EmptyString.

(* ================================================================== *)
(** * Statement texts of [DatabaseService] *)
(* ================================================================== *)

Definition listOracleTables_owner_sql : string :=
"
          SELECT table_name, owner, num_rows, last_analyzed
          FROM all_tables 
          WHERE owner = :schema
          ORDER BY table_name
        ".

Definition listOracleTables_user_sql : string :=
"
          SELECT table_name, owner, num_rows, last_analyzed
          FROM user_tables
          ORDER BY table_name
        ".

Definition allTablesSql : string :=
"
            SELECT table_name, owner, num_rows, last_analyzed
            FROM all_tables
            WHERE owner IN (
              SELECT username FROM all_users 
              WHERE username NOT IN ('SYS', 'SYSTEM', 'OUTLN', 'DIP', 'ORACLE_OCM', 'DBSNMP', 'APPQOSSYS', 'WMSYS', 'EXFSYS', 'CTXSYS', 'XDB', 'ANONYMOUS', 'ORDSYS', 'ORDDATA', 'MDSYS', 'LBACSYS', 'DVSYS', 'DVF', 'GSMADMIN_INTERNAL', 'OJVMSYS', 'OLAPSYS')
            )
            ORDER BY owner, table_name
          ".

Definition listSqliteTables_sql : string :=
"
      SELECT name, type 
      FROM sqlite_master 
      WHERE type IN ('table', 'view') 
        AND name NOT LIKE 'sqlite_%'
      ORDER BY name
    ".

Definition listOraclePrimaryKeys_owner_sql : string :=
"SELECT cols.column_name
           FROM all_constraints cons
           JOIN all_cons_columns cols ON cons.constraint_name = cols.constraint_name AND cons.owner = cols.owner
           WHERE cons.constraint_type = 'P'
             AND cons.table_name = :tableName
             AND cons.owner = :schema
           ORDER BY cols.position".

Definition listOraclePrimaryKeys_user_sql : string :=
"SELECT cols.column_name
           FROM user_constraints cons
           JOIN user_cons_columns cols ON cons.constraint_name = cols.constraint_name
           WHERE cons.constraint_type = 'P'
             AND cons.table_name = :tableName
           ORDER BY cols.position".

Definition listPostgresPrimaryKeys_sql : string :=
"SELECT a.attname
       FROM pg_index i
       JOIN pg_attribute a ON a.attrelid = i.indrelid AND a.attnum = ANY(i.indkey)
       WHERE i.indrelid = $1::regclass AND i.indisprimary
       ORDER BY a.attnum".

Definition listOracleForeignKeys_owner_sql : string :=
"SELECT 
             a.column_name, 
             c_pk.table_name as r_table_name, 
             b.column_name as r_column_name
           FROM all_cons_columns a
           JOIN all_constraints c ON a.owner = c.owner AND a.constraint_name = c.constraint_name
           JOIN all_constraints c_pk ON c.r_owner = c_pk.owner AND c.r_constraint_name = c_pk.constraint_name
           JOIN all_cons_columns b ON c_pk.owner = b.owner AND c_pk.constraint_name = b.constraint_name AND b.position = a.position
           WHERE c.constraint_type = 'R'
             AND a.table_name = :tableName
             AND a.owner = :schema
           ORDER BY c.constraint_name, a.position".

Definition listOracleForeignKeys_user_sql : string :=
"SELECT 
             a.column_name, 
             c_pk.table_name as r_table_name, 
             b.column_name as r_column_name
           FROM user_cons_columns a
           JOIN user_constraints c ON a.constraint_name = c.constraint_name
           JOIN user_constraints c_pk ON c.r_constraint_name = c_pk.constraint_name
           JOIN user_cons_columns b ON c_pk.constraint_name = b.constraint_name AND b.position = a.position
           WHERE c.constraint_type = 'R'
             AND a.table_name = :tableName
           ORDER BY c.constraint_name, a.position".

Definition listSqlServerPrimaryKeys_sql (tableName : string) : string :=
("
        SELECT c.name
        FROM sys.indexes i
        JOIN sys.index_columns ic ON i.object_id = ic.object_id AND i.index_id = ic.index_id
        JOIN sys.columns c ON ic.object_id = c.object_id AND ic.column_id = c.column_id
        WHERE i.is_primary_key = 1 AND OBJECT_NAME(i.object_id) = '" ++ tableName ++ "'
      ")%string.

Definition schemaCheckSql : string :=
  "SELECT SYS_CONTEXT('USERENV', 'CURRENT_SCHEMA') as current_schema FROM DUAL".

Definition listPostgresTables_sql : string :=
  "SELECT table_name FROM information_schema.tables WHERE table_schema = $1 AND table_type = 'BASE TABLE'".

Definition listMySqlTables_sql (database : string) : string :=
  ("SHOW TABLES FROM `" ++ database ++ "`")%string.

Definition listSqlServerTables_sql (schema : string) : string :=
  ("SELECT table_name FROM information_schema.tables WHERE table_schema = '" ++ schema ++ "'")%string.

Definition describeOracleTable_owner_sql : string :=
  "SELECT column_name, data_type, nullable FROM all_tab_columns WHERE table_name = :tableName AND owner = :schema".

Definition describeOracleTable_user_sql : string :=
  "SELECT column_name, data_type, nullable FROM user_tab_columns WHERE table_name = :tableName".

Definition describePostgresTable_sql : string :=
  "SELECT column_name, data_type, is_nullable FROM information_schema.columns WHERE table_name = $1 AND table_schema = $2".

Definition describeMySqlTable_sql (tableName : string) : string :=
  ("DESCRIBE `" ++ tableName ++ "`")%string.

Definition describeSqlServerTable_sql (tableName : string) : string :=
  ("SELECT column_name, data_type, is_nullable FROM information_schema.columns WHERE table_name = '" ++ tableName ++ "'")%string.

Definition table_info_sql (tableName : string) : string :=
  ("PRAGMA table_info(" ++ tableName ++ ")")%string.

Definition listMySqlPrimaryKeys_sql (tableName : string) : string :=
  ("SHOW KEYS FROM `" ++ tableName ++ "` WHERE Key_name = 'PRIMARY'")%string.

Definition oracle_version_sql : string :=
  "SELECT * FROM v$version WHERE banner LIKE 'Oracle%'".

Definition postgres_version_sql : string := "SELECT version()".

Definition mysql_version_sql : string := "SELECT VERSION() as version".

Definition sqlite_version_sql : string := "SELECT sqlite_version() as version".

(** [`${sql} LIMIT ${maxRows}`] *)
Definition with_limit (sql : string) (maxRows : Z) : string :=
  (sql ++ " LIMIT " ++ string_of_Z maxRows)%string.

(* ================================================================== *)
(** * [DatabaseService] *)
(* ================================================================== *)

Section DatabaseService.

Variable S : Type.
Variable drv : Driver S.

Local Abbreviation Op := (M S).

(** ** The awaited native calls *)

Definition pool_getConnection (p : pool_ref) : Op unit :=
  native (ora_getConnection_call p) (ora_getConnection drv p).

Definition connection_execute (p : pool_ref) (sql : string) (binds : row) (o : ora_options)
  : Op ora_result :=
  native (ora_execute_call p sql binds o) (ora_execute drv p sql binds o).

Definition connection_executeMany (p : pool_ref) (sql : string) (binds : list (list value))
  : Op ora_result :=
  native (ora_executeMany_call p sql binds) (ora_executeMany drv p sql binds).

Definition connection_close (p : pool_ref) : Op unit :=
  native (ora_close_call p) (ora_close drv p).

Definition pgQuery (p : pool_ref) (sql : string) (params : list value) : Op pg_result :=
  native (pg_query_call p sql params) (pg_query drv p sql params).

Definition mysqlQuery (p : pool_ref) (sql : string) (params : list value) : Op mysql_reply :=
  native (mysql_query_call p sql params) (mysql_query drv p sql params).

(** [pool.request()], the registration of the listeners and
    [request.query(sql)]: the events the request emits. *)
Definition requestQuery (p : pool_ref) (sql : string) : Op mssql_stream :=
  native (mssql_query_call p sql) (mssql_query drv p sql).

Definition prepare (p : pool_ref) (sql : string) : Op unit :=
  native (sqlite_prepare_call p sql) (sqlite_prepare drv p sql).

Definition all (p : pool_ref) (sql : string) : Op (list row) :=
  native (sqlite_all_call p sql) (sqlite_all drv p sql).

Definition get_one (p : pool_ref) (sql : string) : Op (option row) :=
  native (sqlite_get_call p sql) (sqlite_get drv p sql).

Definition run (p : pool_ref) (sql : string) (params : list value) : Op unit :=
  native (sqlite_run_call p sql params) (sqlite_run drv p sql params).

Definition exec (p : pool_ref) (sql : string) : Op unit :=
  native (sqlite_exec_call p sql) (sqlite_exec drv p sql).

(** [pool.transaction(fn)(...)] of the embedded engine: begin, run the body,
    commit; on an exception roll back and rethrow. *)
Definition transaction {A} (p : pool_ref) (body : Op A) : Op A :=
  exec p "BEGIN" ;;;
  try_catch
    (r <- body ;; exec p "COMMIT" ;;; ret r)
    (fun e => exec p "ROLLBACK" ;;; throw e).

Definition OBJECT : ora_options := {| opt_maxRows := None; opt_outFormat := Some 4002 |}.

(** [result.rows] where the code goes on to read a property of it. *)
Definition rows_of (prop : string) (r : ora_result) : Op (list row) :=
  match ora_rows r with
  | Some rs => ret rs
  | None => throw (type_error prop)
  end.

(** The rows a request emitted, in order. *)
Definition row_events (items : list mssql_item) : list (list (string * value)) :=
  flat_map (fun it => match it with RowEvent d => [d] | ColumnMetadata _ => [] end) items.

(** [data[i].value] for a row the event-driven driver emitted.  A row is as
    wide as the select list, so the index is within it. *)
Definition cell (data : list (string * value)) (i : nat) : value :=
  match nth_error data i with
  | Some c => snd c
  | None => VUndefined
  end.

(** The deferred result of a request whose only listeners are [row],
    [requestCompleted] and [error]. *)
Definition collect_rows {A} (p : pool_ref) (sql : string)
  (f : list (string * value) -> A) : Op (list A) :=
  stream <- requestQuery p sql ;;
  match snd stream with
  | RequestCompleted => ret (map f (row_events (fst stream)))
  | ErrorEvent e => throw e
  end.

(** ** [executeQuery] *)

Definition executeOracleQuery (p : pool_ref) (sql : string) (maxRows : Z)
  : Op QueryResult :=
  pool_getConnection p ;;;
  try_finally
    (result <- connection_execute p sql [] {| opt_maxRows := Some maxRows; opt_outFormat := Some 4002 |} ;;
     ret {| columns := match metaData result with Some cs => cs | None => [] end;
            rows := match ora_rows result with Some rs => rs | None => [] end;
            rowCount := match ora_rows result with Some rs => len rs | None => 0 end;
            executionTime := 0 |})
    (connection_close p).

Definition executePostgresQuery (p : pool_ref) (sql : string) (maxRows : Z)
  : Op QueryResult :=
  result <- pgQuery p (with_limit sql maxRows) [] ;;
  ret {| columns := fields result;
         rows := pg_rows result;
         rowCount := num_or (pg_rowCount result) 0;
         executionTime := 0 |}.

Definition executeMySqlQuery (p : pool_ref) (sql : string) (maxRows : Z)
  : Op QueryResult :=
  reply <- mysqlQuery p (with_limit sql maxRows) [] ;;
  match reply with
  | MyRows rs fs =>
      ret {| columns := fs; rows := rs; rowCount := len rs; executionTime := 0 |}
  | MyHeader _ => throw (type_error "map")
  end.

(** The object built from the columns of an emitted row:
    [row[col.metadata.colName] = col.value] for each column in turn. *)
Definition row_object (rowData : list (string * value)) : row :=
  fold_left (fun r col => set r (fst col) (snd col)) rowData [].

(** The [row] listener: buffer the row only while the buffer holds fewer
    than [maxRows] rows. *)
Definition on_row (maxRows : Z) (buffer : list row) (rowData : list (string * value))
  : list row :=
  if len buffer <? maxRows then buffer ++ [row_object rowData] else buffer.

Definition on_item (maxRows : Z) (acc : list string * list row) (it : mssql_item)
  : list string * list row :=
  match it with
  | ColumnMetadata cols => (cols, snd acc)
  | RowEvent rowData => (fst acc, on_row maxRows (snd acc) rowData)
  end.

Definition executeSqlServerQuery (p : pool_ref) (sql : string) (maxRows : Z)
  : Op QueryResult :=
  stream <- requestQuery p sql ;;
  let acc := fold_left (on_item maxRows) (fst stream) ([], []) in
  match snd stream with
  | RequestCompleted =>
      ret {| columns := fst acc; rows := snd acc; rowCount := len (snd acc);
             executionTime := 0 |}
  | ErrorEvent e => throw e
  end.

Definition executeSqliteQuery (p : pool_ref) (sql : string) (maxRows : Z)
  : Op QueryResult :=
  prepare p (with_limit sql maxRows) ;;;
  rs <- all p (with_limit sql maxRows) ;;
  ret {| columns := match rs with r :: _ => keys r | [] => [] end;
         rows := rs; rowCount := len rs; executionTime := 0 |}.

Definition unsupported {A} (tag : string) : Op A :=
  throw ("Vendor no soportado: " ++ tag)%string.

Definition executeQuery (c : DatabaseConnection) (sql : string) (maxRows : Z)
  : Op QueryResult :=
  try_catch
    (match vendor_of c with
     | oracle => executeOracleQuery (pool c) sql maxRows
     | postgresql => executePostgresQuery (pool c) sql maxRows
     | mysql | mariadb => executeMySqlQuery (pool c) sql maxRows
     | sqlserver => executeSqlServerQuery (pool c) sql maxRows
     | sqlite => executeSqliteQuery (pool c) sql maxRows
     | other_vendor tag => unsupported tag
     end)
    (fun message => throw ("Error ejecutando query: " ++ message)%string).

(** The default of [maxRows]. *)
Definition default_maxRows : Z := 100.

(** ** [listTables] *)

Definition oracle_table (r : row) : TableInfo :=
  {| tbl_name := get r "TABLE_NAME"; tbl_type := TABLE; tbl_schema := get r "OWNER" |}.

(** The first query: [all_tables] for the requested owner, upper-cased, or
    [user_tables] when no schema is requested. *)
Definition tier1_sql (schema : option string) : string :=
  if given schema then listOracleTables_owner_sql else listOracleTables_user_sql.

Definition tier1_binds (schema : option string) : row :=
  if given schema then [("schema", VStr (toUpperCase (default_to "" schema)))] else [].

(** [schemaResult.rows[0]?.CURRENT_SCHEMA] *)
Definition current_schema (reply : list row) : value :=
  match reply with
  | r :: _ => get r "CURRENT_SCHEMA"
  | [] => VUndefined
  end.

(** [!schema || schema.toUpperCase() === currentSchema] *)
Definition fallback_applies (schema : option string) (currentSchema : value) : bool :=
  negb (given schema)
  || value_eqb (VStr (toUpperCase (default_to "" schema))) currentSchema.

Definition listOracleTables (p : pool_ref) (schema : option string)
  : Op (list TableInfo) :=
  pool_getConnection p ;;;
  try_finally
    (let sql := tier1_sql schema in
     let binds := tier1_binds schema in
     result <- connection_execute p sql binds OBJECT ;;
     found <- rows_of "length" result ;;
     if (len found =? 0) then
       schemaResult <- connection_execute p schemaCheckSql [] OBJECT ;;
       current <- rows_of "0" schemaResult ;;
       let currentSchema := current_schema current in
       if fallback_applies schema currentSchema
       then
         allTablesResult <- connection_execute p allTablesSql [] OBJECT ;;
         everything <- rows_of "length" allTablesResult ;;
         ret (map oracle_table everything)
       else ret (map oracle_table found)
     else ret (map oracle_table found))
    (connection_close p).

Definition listPostgresTables (p : pool_ref) (schema : option string)
  : Op (list TableInfo) :=
  result <- pgQuery p listPostgresTables_sql [VStr (default_to "public" schema)] ;;
  ret (map (fun r => {| tbl_name := get r "table_name"; tbl_type := TABLE;
                        tbl_schema := VUndefined |}) (pg_rows result)).

Definition first_value (r : row) : value :=
  match values r with v :: _ => v | [] => VUndefined end.

Definition listMySqlTables (p : pool_ref) (database : string) : Op (list TableInfo) :=
  reply <- mysqlQuery p (listMySqlTables_sql database) [] ;;
  match reply with
  | MyRows rs _ =>
      ret (map (fun r => {| tbl_name := first_value r; tbl_type := TABLE;
                            tbl_schema := VUndefined |}) rs)
  | MyHeader _ => throw "rows.map is not a function"
  end.

Definition listSqlServerTables (p : pool_ref) (schema : option string)
  : Op (list TableInfo) :=
  collect_rows p (listSqlServerTables_sql (default_to "dbo" schema))
    (fun data => {| tbl_name := cell data 0; tbl_type := TABLE; tbl_schema := VUndefined |}).

Definition sqlite_table (r : row) : result TableInfo :=
  match get r "type" with
  | VStr t =>
      Ok {| tbl_name := get r "name";
            tbl_type := if (toUpperCase t =? "TABLE")%string then TABLE else VIEW;
            tbl_schema := VUndefined |}
  | VUndefined => Err (type_error "toUpperCase")
  | VNull => Err (type_error_null "toUpperCase")
  | _ => Err "row.type.toUpperCase is not a function"
  end.

Definition listSqliteTables (p : pool_ref) : Op (list TableInfo) :=
  prepare p listSqliteTables_sql ;;;
  rs <- all p listSqliteTables_sql ;;
  of_result (map_result sqlite_table rs).

Definition listTables (c : DatabaseConnection) : Op (list TableInfo) :=
  match vendor_of c with
  | oracle => listOracleTables (pool c) (schema (config c))
  | postgresql => listPostgresTables (pool c) (schema (config c))
  | mysql | mariadb =>
      if given (database (config c))
      then listMySqlTables (pool c) (default_to "" (database (config c)))
      else throw "Database name required for MySQL"
  | sqlserver => listSqlServerTables (pool c) (schema (config c))
  | sqlite => listSqliteTables (pool c)
  | other_vendor tag => unsupported tag
  end.

(** ** [describeTable] *)

Definition table_binds (tableName : value) (schema : option string) : row :=
  if given schema
  then [("tableName", tableName); ("schema", VStr (default_to "" schema))]
  else [("tableName", tableName)].

Definition describeOracleTable (p : pool_ref) (tableName : value)
  (schema : option string) : Op (list ColumnInfo) :=
  pool_getConnection p ;;;
  try_finally
    (let sql := if given schema then describeOracleTable_owner_sql
                else describeOracleTable_user_sql in
     result <- connection_execute p sql (table_binds tableName schema) OBJECT ;;
     rs <- rows_of "map" result ;;
     ret (map (fun r => {| col_name := get r "COLUMN_NAME";
                           dataType := get r "DATA_TYPE";
                           nullable := value_eqb (get r "NULLABLE") (VStr "Y");
                           isPrimaryKey := false |}) rs))
    (connection_close p).

Definition describePostgresTable (p : pool_ref) (tableName : value)
  (schema : option string) : Op (list ColumnInfo) :=
  result <- pgQuery p describePostgresTable_sql
              [tableName; VStr (default_to "public" schema)] ;;
  ret (map (fun r => {| col_name := get r "column_name";
                        dataType := get r "data_type";
                        nullable := value_eqb (get r "is_nullable") (VStr "YES");
                        isPrimaryKey := false |}) (pg_rows result)).

Definition describeMySqlTable (p : pool_ref) (tableName : value) : Op (list ColumnInfo) :=
  reply <- mysqlQuery p (describeMySqlTable_sql (template tableName)) [] ;;
  match reply with
  | MyRows rs _ =>
      ret (map (fun r => {| col_name := get r "Field";
                            dataType := get r "Type";
                            nullable := value_eqb (get r "Null") (VStr "YES");
                            isPrimaryKey := value_eqb (get r "Key") (VStr "PRI") |}) rs)
  | MyHeader _ => throw "rows.map is not a function"
  end.

Definition describeSqlServerTable (p : pool_ref) (tableName : value)
  : Op (list ColumnInfo) :=
  collect_rows p (describeSqlServerTable_sql (template tableName))
    (fun data => {| col_name := cell data 0;
                    dataType := cell data 1;
                    nullable := value_eqb (cell data 2) (VStr "YES");
                    isPrimaryKey := false |}).

Definition describeSqliteTable (p : pool_ref) (tableName : value) : Op (list ColumnInfo) :=
  prepare p (table_info_sql (template tableName)) ;;;
  rs <- all p (table_info_sql (template tableName)) ;;
  ret (map (fun r => {| col_name := get r "name";
                        dataType := get r "type";
                        nullable := value_eqb (get r "notnull") (VNum 0);
                        isPrimaryKey := value_eqb (get r "pk") (VNum 1) |}) rs).

Definition describeTable (c : DatabaseConnection) (tableName : value)
  : Op (list ColumnInfo) :=
  match vendor_of c with
  | oracle => describeOracleTable (pool c) tableName (schema (config c))
  | postgresql => describePostgresTable (pool c) tableName (schema (config c))
  | mysql | mariadb => describeMySqlTable (pool c) tableName
  | sqlserver => describeSqlServerTable (pool c) tableName
  | sqlite => describeSqliteTable (pool c) tableName
  | other_vendor tag => unsupported tag
  end.

(** ** [listPrimaryKeys] *)

Definition listOraclePrimaryKeys (p : pool_ref) (tableName : value)
  (schema : option string) : Op (list value) :=
  pool_getConnection p ;;;
  try_finally
    (let sql := if given schema then listOraclePrimaryKeys_owner_sql
                else listOraclePrimaryKeys_user_sql in
     result <- connection_execute p sql (table_binds tableName schema) OBJECT ;;
     rs <- rows_of "map" result ;;
     ret (map (fun r => get r "COLUMN_NAME") rs))
    (connection_close p).

Definition listPostgresPrimaryKeys (p : pool_ref) (tableName : value)
  (schema : option string) : Op (list value) :=
  result <- pgQuery p listPostgresPrimaryKeys_sql
              [VStr (default_to "public" schema ++ "." ++ template tableName)%string] ;;
  ret (map (fun r => get r "attname") (pg_rows result)).

Definition listMySqlPrimaryKeys (p : pool_ref) (tableName : value) : Op (list value) :=
  reply <- mysqlQuery p (listMySqlPrimaryKeys_sql (template tableName)) [] ;;
  match reply with
  | MyRows rs _ => ret (map (fun r => get r "Column_name") rs)
  | MyHeader _ => throw "rows.map is not a function"
  end.

Definition listSqlServerPrimaryKeys (p : pool_ref) (tableName : value) : Op (list value) :=
  collect_rows p (listSqlServerPrimaryKeys_sql (template tableName))
    (fun data => cell data 0).

(** The number a comparison or a subtraction sees in a value; [None] is
    [NaN].  Numeric strings, which the catalogue never returns for [pk], are
    not converted. *)
Definition to_number (v : value) : option Z :=
  match v with
  | VNum n => Some n
  | VBool b => Some (if b then 1 else 0)
  | VNull => Some 0
  | VUndefined | VStr _ | VNative _ => None
  end.

Definition pk_of (r : row) : Z :=
  match to_number (get r "pk") with Some n => n | None => 0 end.

(** [xs.sort((a, b) => key a - key b)]: a stable sort. *)
Fixpoint insert_by {A} (key : A -> Z) (x : A) (xs : list A) : list A :=
  match xs with
  | [] => [x]
  | y :: rest => if key x <=? key y then x :: y :: rest else y :: insert_by key x rest
  end.

Definition sort_by {A} (key : A -> Z) (xs : list A) : list A :=
  fold_right (insert_by key) [] xs.

Definition listSqlitePrimaryKeys (p : pool_ref) (tableName : value) : Op (list value) :=
  prepare p (table_info_sql (template tableName)) ;;;
  rs <- all p (table_info_sql (template tableName)) ;;
  ret (map (fun r => get r "name")
         (sort_by pk_of
            (filter (fun r => match to_number (get r "pk") with
                              | Some n => 0 <? n
                              | None => false
                              end) rs))).

Definition listPrimaryKeys (c : DatabaseConnection) (tableName : value)
  : Op (list value) :=
  match vendor_of c with
  | oracle => listOraclePrimaryKeys (pool c) tableName (schema (config c))
  | postgresql => listPostgresPrimaryKeys (pool c) tableName (schema (config c))
  | mysql | mariadb => listMySqlPrimaryKeys (pool c) tableName
  | sqlserver => listSqlServerPrimaryKeys (pool c) tableName
  | sqlite => listSqlitePrimaryKeys (pool c) tableName
  | other_vendor tag => unsupported tag
  end.

(** ** [listForeignKeys], pool-leasing vendor *)

Definition listOracleForeignKeys (p : pool_ref) (tableName : value)
  (schema : option string) : Op (list ForeignKeyEdge) :=
  pool_getConnection p ;;;
  try_finally
    (let sql := if given schema then listOracleForeignKeys_owner_sql
                else listOracleForeignKeys_user_sql in
     result <- connection_execute p sql (table_binds tableName schema) OBJECT ;;
     rs <- rows_of "map" result ;;
     ret (map (fun r => {| fk_column := get r "COLUMN_NAME";
                           refTable := get r "R_TABLE_NAME";
                           refColumn := get r "R_COLUMN_NAME" |}) rs))
    (connection_close p).

(** ** [healthCheck] *)

Definition no_options : ora_options := {| opt_maxRows := None; opt_outFormat := None |}.

(** The body of the [try] block up to the [return]: the probed version and
    the number of active connections. *)
Definition probe (c : DatabaseConnection) : Op (value * Z) :=
  match vendor_of c with
  | oracle =>
      pool_getConnection (pool c) ;;;
      result <- connection_execute (pool c) oracle_version_sql [] no_options ;;
      rs <- rows_of "0" result ;;
      inUse <- peek (ora_connectionsInUse drv (pool c)) ;;
      connection_close (pool c) ;;;
      ret (or_else (match rs with r :: _ => get r "0" | [] => VUndefined end)
             (VStr "unknown"),
           num_or inUse 0)
  | postgresql =>
      pgResult <- pgQuery (pool c) postgres_version_sql [] ;;
      match pg_rows pgResult with
      | r :: _ =>
          totalCount <- peek (pg_totalCount drv (pool c)) ;;
          ret (get r "version", num_or totalCount 0)
      | [] => throw (type_error "version")
      end
  | mysql | mariadb =>
      reply <- mysqlQuery (pool c) mysql_version_sql [] ;;
      match reply with
      | MyRows (r :: _) _ => ret (get r "version", 0)
      | MyRows [] _ | MyHeader _ => throw (type_error "version")
      end
  | sqlserver => ret (VStr "SQL Server", 0)
  | sqlite =>
      prepare (pool c) sqlite_version_sql ;;;
      sqliteResult <- get_one (pool c) sqlite_version_sql ;;
      match sqliteResult with
      | Some r => ret (VStr ("SQLite " ++ template (get r "version"))%string, 1)
      | None => throw (type_error "version")
      end
  | other_vendor _ => ret (VStr "unknown", 0)
  end.

Definition healthCheck (c : DatabaseConnection) : Op HealthCheckResult :=
  try_catch
    (found <- probe c ;;
     let poolSize := num_or (maxPoolSize (config c)) 10 in
     ret {| status := healthy;
            hc_vendor := vendor_of c;
            version := fst found;
            uptime := 0;
            activeConnections := snd found;
            poolStats := Some {| total := poolSize;
                                 active := snd found;
                                 idle := poolSize - snd found |} |})
    (fun _ =>
       ret {| status := unhealthy;
              hc_vendor := vendor_of c;
              version := VStr "error";
              uptime := 0;
              activeConnections := 0;
              poolStats := None |}).

(** ** [insertBatch] *)

(** Identifier quoting: back-ticks for the MySQL family, double quotes for
    every other vendor. *)
Definition quote (v : vendor) (id : string) : string :=
  match v with
  | mysql | mariadb => ("`" ++ id ++ "`")%string
  | _ => (dquote ++ id ++ dquote)%string
  end.

(** [distinctColumns.map(c => r[c])] *)
Definition bind_row (distinctColumns : list string) (r : row) : list value :=
  map (read r) distinctColumns.

Definition insert_sql (v : vendor) (tableName : value) (distinctColumns : list string)
  (valuesText : string) : string :=
  ("INSERT INTO " ++ quote v (template tableName)
     ++ " (" ++ join ", " (map (quote v) distinctColumns) ++ ") VALUES " ++ valuesText)%string.

(** [distinctColumns.map((_, i) => `:${i}`)] *)
Definition oracle_placeholders (distinctColumns : list string) : list string :=
  map (fun i => (":" ++ string_of_Z (Z.of_nat i))%string) (seq 0 (length distinctColumns)).

(** The loop inside the embedded engine's transaction. *)
Fixpoint insertMany (p : pool_ref) (sql : string) (distinctColumns : list string)
  (data : list row) (count : Z) : Op Z :=
  match data with
  | [] => ret count
  | r :: rest =>
      run p sql (bind_row distinctColumns r) ;;;
      insertMany p sql distinctColumns rest (count + 1)
  end.

(** The accumulators of the numbered-placeholder strategy: [paramIndex],
    [values] and [rowPlaceholders]. *)
Definition numbered_row (distinctColumns : list string)
  (acc : Z * list value * list string) (r : row) : Z * list value * list string :=
  let '(paramIndex, values, rowPlaceholders) := acc in
  let '(paramIndex', rowParams, values') :=
    fold_left
      (fun (a : Z * list string * list value) col =>
         let '(i, ps, vs) := a in
         (i + 1, ps ++ [("$" ++ string_of_Z i)%string], vs ++ [read r col]))
      distinctColumns (paramIndex, [], values) in
  (paramIndex', values',
   rowPlaceholders ++ [("(" ++ join ", " rowParams ++ ")")%string]).

(** The accumulators of the [?] strategy: [values] and [rowPlaceholders]. *)
Definition question_row (distinctColumns : list string)
  (acc : list value * list string) (r : row) : list value * list string :=
  let '(values, rowPlaceholders) := acc in
  let '(rowParams, values') :=
    fold_left
      (fun (a : list string * list value) col =>
         let '(ps, vs) := a in (ps ++ ["?"], vs ++ [read r col]))
      distinctColumns ([], values) in
  (values', rowPlaceholders ++ [("(" ++ join ", " rowParams ++ ")")%string]).

Definition insertBatch (c : DatabaseConnection) (tableName : value) (rows : list row)
  : Op Z :=
  match rows with
  | [] => ret 0
  | first :: _ =>
      let vendor := vendor_of c in
      let p := pool c in
      let distinctColumns := keys first in
      try_catch
        (match vendor with
         | oracle =>
             pool_getConnection p ;;;
             try_finally
               (let sql := insert_sql vendor tableName distinctColumns
                             ("(" ++ join ", " (oracle_placeholders distinctColumns) ++ ")") in
                let binds := map (bind_row distinctColumns) rows in
                result <- connection_executeMany p sql binds ;;
                ret (num_or (rowsAffected result) (len rows)))
               (connection_close p)
         | sqlite =>
             let placeholders :=
               ("(" ++ join ", " (map (fun _ => "?") distinctColumns) ++ ")")%string in
             let sql := insert_sql vendor tableName distinctColumns placeholders in
             prepare p sql ;;;
             transaction p (insertMany p sql distinctColumns rows 0)
         | postgresql =>
             let '(_, values, rowPlaceholders) :=
               fold_left (numbered_row distinctColumns) rows (1, [], []) in
             let sql := insert_sql vendor tableName distinctColumns
                          (join ", " rowPlaceholders) in
             result <- pgQuery p sql values ;;
             ret (num_or (pg_rowCount result) 0)
         | mysql | mariadb =>
             let '(values, rowPlaceholders) :=
               fold_left (question_row distinctColumns) rows ([], []) in
             let sql := insert_sql vendor tableName distinctColumns
                          (join ", " rowPlaceholders) in
             reply <- mysqlQuery p sql values ;;
             match reply with
             | MyHeader affectedRows => ret (num_or (Some affectedRows) (len rows))
             | MyRows _ _ => ret (len rows)
             end
         | sqlserver | other_vendor _ => ret 0
         end)
        (fun message => throw message)
  end.

End DatabaseService.

(* ================================================================== *)
(** * [DataMigrationService] *)
(* ================================================================== *)

Record MigrationResult : Type := {
  copied : Z;      (* rows *)
  elapsed : Z      (* time *)
}.

Inductive entry_status : Type := success | error.

(** One element of the array [migrateData] returns. *)
Record ReportEntry : Type := {
  entry_table : string;
  entry_state : entry_status;
  entry_rows : option Z;
  entry_time : option Z;
  entry_error : option string
}.

Section DataMigrationService.

Variable S : Type.
Variable drv : Driver S.
Variable source target : DatabaseConnection.

Local Abbreviation Op := (M S).

(** [Date.now()] *)
Definition Date_now : Op Z := peek (now drv).

(** [`SELECT ${colNames.join(', ')} FROM ${tableName}`] *)
Definition select_sql (colNames : list value) (tableName : value) : string :=
  ("SELECT " ++ join ", " (map join_item colNames) ++ " FROM " ++ template tableName)%string.

(** The batch loop of [migrateTable],
    [for (let i = 0; i < rows.length; i += batchSize)], from index [i] with
    [totalInserted] so far.  [fuel] bounds the iterations; the loop never
    settles once it is exhausted. *)
Fixpoint insert_batches (fuel : nat) (targetName : value) (rows : list row)
  (batchSize i totalInserted : Z) : Op Z :=
  if i <? len rows then
    match fuel with
    | O => fun w => (Hang, w)
    | Datatypes.S fuel' =>
        let batch := slice rows i (i + batchSize) in
        insertBatch drv target targetName batch ;;;
        insert_batches fuel' targetName rows batchSize (i + batchSize)
          (totalInserted + len batch)
    end
  else ret totalInserted.

(** [migrateTable(tableName, targetTableName, batchSize)].  The loop is given
    one unit of fuel per fetched row: with a positive [batchSize] it needs no
    more, and with any other [batchSize] no amount lets it return (see
    [insert_batches_fuel] and [insert_batches_never_returns]). *)
Definition migrateTable (tableName targetTableName : value) (batchSize : Z)
  : Op MigrationResult :=
  start <- Date_now ;;
  let targetName := or_else targetTableName tableName in
  columns <- describeTable drv source tableName ;;
  let colNames := map col_name columns in
  let sql := select_sql colNames tableName in
  result <- executeQuery drv source sql 100000 ;;
  let rows := rows result in
  if len rows =? 0 then
    finish <- Date_now ;;
    ret {| copied := 0; elapsed := finish - start |}
  else
    totalInserted <- insert_batches (length rows) targetName rows batchSize 0 0 ;;
    finish <- Date_now ;;
    ret {| copied := totalInserted; elapsed := finish - start |}.

(** The default of [batchSize]. *)
Definition default_batchSize : Z := 1000.

(** One turn of the loop of [migrateData]: the [try]/[catch] around
    [migrateTable(table)] and the entry it pushes. *)
Definition migrate_one (table : string) : Op ReportEntry :=
  try_catch
    (res <- migrateTable (VStr table) VUndefined default_batchSize ;;
     ret {| entry_table := table; entry_state := success;
            entry_rows := Some (copied res); entry_time := Some (elapsed res);
            entry_error := None |})
    (fun message =>
       ret {| entry_table := table; entry_state := error;
              entry_rows := None; entry_time := None;
              entry_error := Some message |}).

(** The loop of [migrateData] over the remaining [tables], with the
    [results] pushed so far. *)
Fixpoint migrate_each (tables : list string) (results : list ReportEntry)
  : Op (list ReportEntry) :=
  match tables with
  | [] => ret results
  | table :: rest =>
      entry <- migrate_one table ;;
      migrate_each rest (results ++ [entry])
  end.

(** [migrateData(tables, truncateTarget)]; the branch on [truncateTarget]
    has an empty body. *)
Definition migrateData (tables : list string) (truncateTarget : bool)
  : Op (list ReportEntry) :=
  migrate_each tables [].

End DataMigrationService.

(* ================================================================== *)
(** * The [replicate_database] request handler ([index.js]) *)
(* ================================================================== *)

(** The lines pushed on [report]. *)
Inductive report_line : Type :=
| Processing (name : value)
| Created
| CreationSkipped (message : string)
| Migrated (res : MigrationResult)
| ErrorProcessing (name : value) (message : string).

Definition render (l : report_line) : string :=
  match l with
  | Processing name => "Processing table: " ++ template name ++ "..."
  | Created => "  - Created table schema."
  | CreationSkipped message => "  - Table creation skipped/failed: " ++ message
  | Migrated res =>
      "  - Migrated " ++ string_of_Z (copied res) ++ " rows in "
        ++ string_of_Z (elapsed res) ++ "ms."
  | ErrorProcessing name message =>
      "  - âŒ Error processing table " ++ template name ++ ": " ++ message
  end%string.

Definition newline : string := String (ascii_of_nat 10) EmptyString.

(** What a request handler answers. *)
Record ToolReply : Type := {
  text : string;
  isError : bool
}.

Section Index.

Variable S : Type.
Variable drv : Driver S.

(** [SchemaCompareService.generateCreateTable], whose source is not part of
    the files at hand: a synchronous function of the table name, its columns
    and its primary keys that yields the statement text or throws. *)
Variable generateCreateTable : value -> list ColumnInfo -> list value -> result string.

(** The registry [connections]. *)
Variable connections : list DatabaseConnection.

Local Abbreviation Op := (M S).

Definition getConnection (id' : string) : Op DatabaseConnection :=
  match find (fun c => (id c =? id')%string) connections with
  | Some conn => ret conn
  | None => throw ("Connection '" ++ id' ++ "' not found")%string
  end.

(** The handler's local [report] array is mutated while native calls are in
    flight, so the handler runs over the world paired with the report. *)
Definition Handler (A : Type) : Type := St (world S * list report_line) A.

Definition lift {A} (m : Op A) : Handler A :=
  fun h => let '(r, w') := m (fst h) in (r, (w', snd h)).

(** [report.push(l)] *)
Definition push (l : report_line) : Handler unit :=
  fun h => (Return tt, (fst h, snd h ++ [l])).

(** The [try] block of the loop for one table that is not a view. *)
Definition replicate_table (source target : DatabaseConnection) (table : TableInfo)
  : Handler unit :=
  push (Processing (tbl_name table)) ;;;
  columns <- lift (describeTable drv source (tbl_name table)) ;;
  pks <- lift (listPrimaryKeys drv source (tbl_name table)) ;;
  ddl <- of_result (generateCreateTable (tbl_name table) columns pks) ;;
  try_catch
    (lift (executeQuery drv target ddl default_maxRows) ;;; push Created)
    (fun message => push (CreationSkipped message)) ;;;
  res <- lift (migrateTable drv source target (tbl_name table) VUndefined
                 default_batchSize) ;;
  push (Migrated res).

(** [for (const table of tables)] *)
Fixpoint replicate_each (source target : DatabaseConnection) (tables : list TableInfo)
  : Handler unit :=
  match tables with
  | [] => ret tt
  | table :: rest =>
      match tbl_type table with
      | VIEW => ret tt
      | TABLE =>
          try_catch (replicate_table source target table)
            (fun message => push (ErrorProcessing (tbl_name table) message))
      end ;;;
      replicate_each source target rest
  end.

(** The loop started on an empty [report]; the report is handed back when
    the loop is over. *)
Definition replicate_all (source target : DatabaseConnection) (tables : list TableInfo)
  : Op (list report_line) :=
  fun w =>
    let '(r, h) := replicate_each source target tables (w, []) in
    (match r with
     | Return _ => Return (snd h)
     | Throw message => Throw message
     | Hang => Hang
     end, fst h).

(** The [replicate_database] case of the request handler, with the handler's
    outer [catch]. *)
Definition replicate_database (sourceId targetId : string) : Op ToolReply :=
  try_catch
    (source <- getConnection sourceId ;;
     target <- getConnection targetId ;;
     tables <- listTables drv source ;;
     report <- replicate_all source target tables ;;
     ret {| text := join newline (map render report); isError := false |})
    (fun message => ret {| text := ("Error: " ++ message)%string; isError := true |}).

End Index.

(* ================================================================== *)
(** * Procedure source analysis ([analyzeProcedureTables]) *)
(* ================================================================== *)

(** The five expressions are global and case-insensitive, and have the
    shape: one or two keywords, each followed by [\s+], then a captured
    identifier (a letter or underscore, then letters, digits and
    underscores).  After [\s+] comes a letter or an underscore and nothing
    follows the identifier, so the greedy quantifiers never have to give
    anything back and one left-to-right pass decides a match. *)

(** [s] without the prefix [pattern], when it has it. *)
Fixpoint strip_prefix (pattern s : string) : option string :=
  match pattern with
  | EmptyString => Some s
  | String k pattern' =>
      match s with
      | String c s' => if Ascii.eqb c k then strip_prefix pattern' s' else None
      | EmptyString => None
      end
  end.

(** The text of the given bytes. *)
Definition bytes (codes : list nat) : string :=
  string_of_list_ascii (map ascii_of_nat codes).

(** The white-space characters, those of [\s] in a regular expression and of
    [trim]: TAB, LF, VT, FF, CR, SP, U+00A0, U+1680, U+2000 to U+200A, U+2028,
    U+2029, U+202F, U+205F, U+3000 and U+FEFF, each by its bytes. *)
Definition white_space_characters : list string :=
  map bytes
    [ [9]; [10]; [11]; [12]; [13]; [32]; [194; 160]; [225; 154; 128];
      [226; 128; 128]; [226; 128; 129]; [226; 128; 130]; [226; 128; 131];
      [226; 128; 132]; [226; 128; 133]; [226; 128; 134]; [226; 128; 135];
      [226; 128; 136]; [226; 128; 137]; [226; 128; 138]; [226; 128; 168];
      [226; 128; 169]; [226; 128; 175]; [226; 129; 159]; [227; 128; 128];
      [239; 187; 191] ]%nat.

(** The first of [chars] that [s] begins with: what follows it. *)
Fixpoint strip_any (chars : list string) (s : string) : option string :=
  match chars with
  | [] => None
  | ch :: more =>
      match strip_prefix ch s with
      | Some r => Some r
      | None => strip_any more s
      end
  end.

(** [\s] at the head of [s]: what follows the white-space character. *)
Definition space_at (s : string) : option string :=
  strip_any white_space_characters s.

(** [[A-Z_]] under the [i] flag. *)
Definition ident_start (c : ascii) : bool :=
  let n := nat_of_ascii (upper_ascii c) in
  ((65 <=? n) && (n <=? 90) || (n =? 95))%nat.

(** [[A-Z0-9_]] under the [i] flag. *)
Definition ident_char (c : ascii) : bool :=
  let n := nat_of_ascii c in
  (ident_start c || (48 <=? n) && (n <=? 57))%nat.

(** A keyword under the [i] flag at the head of [s]: what is left of [s]. *)
Fixpoint keyword (kw s : string) : option string :=
  match kw with
  | EmptyString => Some s
  | String k kw' =>
      match s with
      | String c s' =>
          if Ascii.eqb (upper_ascii c) (upper_ascii k) then keyword kw' s' else None
      | EmptyString => None
      end
  end.

Fixpoint skip_spaces_upto (fuel : nat) (s : string) : string :=
  match fuel with
  | O => s
  | Datatypes.S fuel' =>
      match space_at s with
      | Some r => skip_spaces_upto fuel' r
      | None => s
      end
  end.

(** [\s*]: the longest run of white space at the head of [s] is dropped.  A
    character takes at least one byte, so the length of [s] is fuel
    enough. *)
Definition skip_spaces (s : string) : string :=
  skip_spaces_upto (String.length s) s.

(** [\s+] *)
Definition spaces (s : string) : option string :=
  match space_at s with
  | Some r => Some (skip_spaces r)
  | None => None
  end.

(** The starred class of identifier characters: the longest run and what
    follows it. *)
Fixpoint ident_tail (s : string) : string * string :=
  match s with
  | String c s' =>
      if ident_char c
      then let '(name, rest) := ident_tail s' in (String c name, rest)
      else (EmptyString, s)
  | EmptyString => (EmptyString, EmptyString)
  end.

(** The captured group: an identifier. *)
Definition identifier (s : string) : option (string * string) :=
  match s with
  | String c s' =>
      if ident_start c
      then let '(name, rest) := ident_tail s' in Some (String c name, rest)
      else None
  | EmptyString => None
  end.

(** A whole expression, given by its keywords, at the head of [s]: the
    captured identifier and what is left of [s]. *)
Fixpoint match_here (keywords : list string) (s : string) : option (string * string) :=
  match keywords with
  | [] => identifier s
  | kw :: more =>
      match keyword kw s with
      | Some s1 =>
          match spaces s1 with
          | Some s2 => match_here more s2
          | None => None
          end
      | None => None
      end
  end.

(** The [while ((match = pattern.exec(sourceCode)) !== null)] loop of a
    global expression: the captures of the successive matches.  [covered] is
    the number of characters ahead that the last match consumed, the distance
    to [lastIndex]. *)
Fixpoint exec_all (keywords : list string) (s : string) (covered : nat) : list string :=
  match s with
  | EmptyString => []
  | String _ s' =>
      match covered with
      | Datatypes.S k => exec_all keywords s' k
      | O =>
          match match_here keywords s with
          | Some (name, rest) =>
              name :: exec_all keywords s' (String.length s - String.length rest - 1)
          | None => exec_all keywords s' 0
          end
      end
  end.

(** The expressions, in the order of [Object.entries(patterns)]. *)
Definition patterns : list (string * list string) :=
  [ ("select", ["FROM"]);
    ("insert", ["INSERT"; "INTO"]);
    ("update", ["UPDATE"]);
    ("delete", ["DELETE"; "FROM"]);
    ("merge", ["MERGE"; "INTO"]) ]%string.

(** [tableOps]: a [Map] from table name to a [Set] of operations, both in
    insertion order. *)
Definition TableOps : Type := list (string * list string).

Definition has (tableOps : TableOps) (tableName : string) : bool :=
  existsb (fun e => (fst e =? tableName)%string) tableOps.

(** [ops.add(op)] *)
Definition add (ops : list string) (op : string) : list string :=
  if existsb (String.eqb op) ops then ops else ops ++ [op].

(** [tableOps.get(tableName).add(op)] *)
Fixpoint add_to (tableOps : TableOps) (tableName op : string) : TableOps :=
  match tableOps with
  | [] => []
  | (t, ops) :: rest =>
      if (t =? tableName)%string then (t, add ops op) :: rest
      else (t, ops) :: add_to rest tableName op
  end.

(** The body of the [while] loop for one match. *)
Definition note_match (operation : string) (tableOps : TableOps) (capture : string)
  : TableOps :=
  let tableName := toUpperCase capture in
  let tableOps := if has tableOps tableName then tableOps
                  else tableOps ++ [(tableName, [])] in
  add_to tableOps tableName (toUpperCase operation).

Definition analyzeProcedureTables (sourceCode : string) : TableOps :=
  fold_left
    (fun tableOps (entry : string * list string) =>
       fold_left (note_match (fst entry)) (exec_all (snd entry) sourceCode 0) tableOps)
    patterns [].

(* ================================================================== *)
(** * Vocabulary of the statements *)
(* ================================================================== *)

(** ** Batches *)

(** Consecutive batches of [n] elements; the last one may be shorter. *)
Fixpoint batches_upto {A} (fuel n : nat) (xs : list A) : list (list A) :=
  match fuel with
  | O => []
  | Datatypes.S fuel' =>
      match xs with
      | [] => []
      | _ :: _ => firstn n xs :: batches_upto fuel' n (skipn n xs)
      end
  end.

Definition batches {A} (n : nat) (xs : list A) : list (list A) :=
  batches_upto (length xs) n xs.

(** One call per element, in order, up to the first failure; the values the
    calls return are dropped. *)
Fixpoint for_each {W A B} (f : A -> St W B) (xs : list A) : St W unit :=
  match xs with
  | [] => ret tt
  | x :: rest => f x ;;; for_each f rest
  end.

(** One call per element, in order, adding up the values the calls return. *)
Fixpoint sum_each {W A} (f : A -> St W Z) (xs : list A) (sum : Z) : St W Z :=
  match xs with
  | [] => ret sum
  | x :: rest => n <- f x ;; sum_each f rest (sum + n)
  end.

(** ** The journal *)

(** The native calls issued between two worlds of one run. *)
Definition since {S} (w w' : world S) : list (native_call * bool) :=
  skipn (length (journal w)) (journal w').

(** Connections leased from a pool and not yet closed: a successful
    [getConnection] opens one, a call of [close] gives one back. *)
Definition lease_delta (e : native_call * bool) : Z :=
  match e with
  | (ora_getConnection_call _, true) => 1
  | (ora_close_call _, _) => -1
  | _ => 0
  end.

Fixpoint open_leases (j : list (native_call * bool)) : Z :=
  match j with
  | [] => 0
  | e :: rest => lease_delta e + open_leases rest
  end.

(** The statement texts handed to the drivers. *)
Definition statement_of (c : native_call) : list string :=
  match c with
  | ora_execute_call _ sql _ _ | ora_executeMany_call _ sql _
  | pg_query_call _ sql _ | mysql_query_call _ sql _ | mssql_query_call _ sql
  | sqlite_prepare_call _ sql | sqlite_all_call _ sql | sqlite_get_call _ sql
  | sqlite_run_call _ sql _ | sqlite_exec_call _ sql => [sql]
  | ora_getConnection_call _ | ora_close_call _ => []
  end.

Definition statements (j : list (native_call * bool)) : list string :=
  flat_map (fun e => statement_of (fst e)) j.

(** ** Properties of operations *)

(** The operation always returns or throws. *)
Definition settles {W A} (m : St W A) : Prop :=
  forall w, fst (m w) <> Hang.

(** Every error the operation throws carries a message. *)
Definition speaks {W A} (m : St W A) : Prop :=
  forall w message, fst (m w) = Throw message -> message <> ""%string.

(** The operation only adds to the journal, and what it adds satisfies [Q]. *)
Definition emits {S A} (Q : list (native_call * bool) -> Prop) (m : M S A) : Prop :=
  forall w, exists added, journal (snd (m w)) = journal w ++ added /\ Q added.

(** Every native call of the operation satisfies [P]. *)
Definition only {S A} (P : native_call * bool -> Prop) (m : M S A) : Prop :=
  emits (Forall P) m.

(** The operation gives back every connection it leases. *)
Definition releases {S A} (m : M S A) : Prop :=
  emits (fun added => open_leases added = 0) m.

Definition says {A} (r : result A) : Prop :=
  match r with
  | Err message => message <> ""%string
  | Ok _ => True
  end.

(** A driver whose errors all carry a message. *)
Record explains {S} (drv : Driver S) : Prop := {
  explains_getConnection : forall p s, says (fst (ora_getConnection drv p s));
  explains_execute : forall p sql b o s, says (fst (ora_execute drv p sql b o s));
  explains_executeMany : forall p sql b s, says (fst (ora_executeMany drv p sql b s));
  explains_close : forall p s, says (fst (ora_close drv p s));
  explains_pg : forall p sql ps s, says (fst (pg_query drv p sql ps s));
  explains_mysql : forall p sql ps s, says (fst (mysql_query drv p sql ps s));
  explains_mssql : forall p sql s, says (fst (mssql_query drv p sql s));
  explains_mssql_event : forall p sql s items message s',
      mssql_query drv p sql s = (Ok (items, ErrorEvent message), s') ->
      message <> ""%string;
  explains_prepare : forall p sql s, says (fst (sqlite_prepare drv p sql s));
  explains_all : forall p sql s, says (fst (sqlite_all drv p sql s));
  explains_get : forall p sql s, says (fst (sqlite_get drv p sql s));
  explains_run : forall p sql ps s, says (fst (sqlite_run drv p sql ps s));
  explains_exec : forall p sql s, says (fst (sqlite_exec drv p sql s))
}.

(** ** [migrateTable], in the words of its specification *)

Section MigrateTableSpecified.

Variable S : Type.
Variable drv : Driver S.
Variable source target : DatabaseConnection.

(** Describe, fetch, return at once on zero rows; otherwise one
    [insertBatch] per consecutive batch, in order; [count] says how the
    number of copied rows is obtained from the batches. *)
Definition migrateTable_by
  (count : value -> list (list row) -> M S Z)
  (tableName targetTableName : value) (batchSize : Z) : M S MigrationResult :=
  start <- Date_now drv ;;
  columns <- describeTable drv source tableName ;;
  result <- executeQuery drv source (select_sql (map col_name columns) tableName) 100000 ;;
  match rows result with
  | [] =>
      finish <- Date_now drv ;;
      ret {| copied := 0; elapsed := finish - start |}
  | _ :: _ =>
      n <- count (or_else targetTableName tableName)
             (batches (Z.to_nat batchSize) (rows result)) ;;
      finish <- Date_now drv ;;
      ret {| copied := n; elapsed := finish - start |}
  end.

(** The count as the specification words it: the sum of the counts the
    [insertBatch] calls return. *)
Definition migrateTable_summing_inserted : value -> value -> Z -> M S MigrationResult :=
  migrateTable_by
    (fun targetName slices => sum_each (insertBatch drv target targetName) slices 0).

(** The count as the sum of the sizes of the batches handed over. *)
Definition migrateTable_summing_sizes : value -> value -> Z -> M S MigrationResult :=
  migrateTable_by
    (fun targetName slices =>
       for_each (insertBatch drv target targetName) slices ;;;
       ret (fold_right (fun b n => len b + n) 0 slices)).

End MigrateTableSpecified.

(* ================================================================== *)
(** * Scripted environments *)
(* ================================================================== *)

(** A stateless driver whose answers depend on the statement text alone. *)
Definition scripted
  (ora : string -> result ora_result)
  (pg : string -> result pg_result)
  (my : string -> result mysql_reply)
  (ms : string -> result mssql_stream)
  (lite : string -> result (list row)) : Driver unit :=
  {| now := fun _ => 0;
     ora_getConnection := fun _ s => (Ok tt, s);
     ora_execute := fun _ sql _ _ s => (ora sql, s);
     ora_executeMany := fun _ sql _ s => (ora sql, s);
     ora_close := fun _ s => (Ok tt, s);
     ora_connectionsInUse := fun _ _ => None;
     pg_query := fun _ sql _ s => (pg sql, s);
     pg_totalCount := fun _ _ => None;
     mysql_query := fun _ sql _ s => (my sql, s);
     mssql_query := fun _ sql s => (ms sql, s);
     sqlite_prepare := fun _ _ s => (Ok tt, s);
     sqlite_all := fun _ sql s => (lite sql, s);
     sqlite_get := fun _ sql s =>
       (match lite sql with
        | Ok (r :: _) => Ok (Some r)
        | Ok [] => Ok None
        | Err e => Err e
        end, s);
     sqlite_run := fun _ _ _ s => (Ok tt, s);
     sqlite_exec := fun _ _ s => (Ok tt, s) |}.

Definition no_ora (_ : string) : result ora_result :=
  Ok {| metaData := Some []; ora_rows := Some []; rowsAffected := None |}.
Definition no_pg (_ : string) : result pg_result :=
  Ok {| fields := []; pg_rows := []; pg_rowCount := None |}.
Definition no_my (_ : string) : result mysql_reply := Ok (MyRows [] []).
Definition no_ms (_ : string) : result mssql_stream := Ok ([], RequestCompleted).
Definition no_lite (_ : string) : result (list row) := Ok [].

Definition handle (name : string) (v : vendor) (p : pool_ref) : DatabaseConnection :=
  {| id := name; vendor_of := v; pool := p; connectionString := "";
     config := {| schema := None; database := None; maxPoolSize := None |} |}.

Definition fresh : world unit := {| st := tt; journal := [] |}.

(** An embedded database with one table [t] of three rows. *)
Definition small_lite (sql : string) : result (list row) :=
  if (sql =? "PRAGMA table_info(t)")%string then
    Ok [[("name", VStr "id"); ("type", VStr "INTEGER"); ("notnull", VNum 0);
         ("pk", VNum 1)]]
  else if (sql =? "SELECT id FROM t LIMIT 100000")%string then
    Ok [[("id", VNum 1)]; [("id", VNum 2)]; [("id", VNum 3)]]
  else Err "no such table".

Definition small : Driver unit := scripted no_ora no_pg no_my no_ms small_lite.

(** A property of journal fragments that holds of the empty fragment and of
    the concatenation of two fragments that have it: what sequential
    composition of operations preserves. *)
Class Additive (Q : list (native_call * bool) -> Prop) : Prop := {
  additive_nil : Q [];
  additive_app : forall a b, Q a -> Q b -> Q (a ++ b)
}.

Definition lite_source : DatabaseConnection := handle "a" sqlite 0%nat.
Definition mssql_target : DatabaseConnection := handle "b" sqlserver 1%nat.
Definition ora_target : DatabaseConnection := handle "c" oracle 2%nat.

(** An Oracle account without the privilege to read [v$version]. *)
Definition denied : Driver unit :=
  scripted (fun _ => Err "ORA-00942: table or view does not exist")
    no_pg no_my no_ms no_lite.

(** The reply to the version query of [healthCheck] carries the row the
    probe reads the version from. *)
Definition version_row_delivered {S} (drv : Driver S) (c : DatabaseConnection)
  (w : world S) : Prop :=
  match vendor_of c with
  | oracle =>
      forall r,
        fst (ora_execute drv (pool c) oracle_version_sql [] no_options
               (snd (ora_getConnection drv (pool c) (st w)))) = Ok r ->
        ora_rows r <> None
  | postgresql =>
      forall r,
        fst (pg_query drv (pool c) postgres_version_sql [] (st w)) = Ok r ->
        pg_rows r <> []
  | mysql | mariadb =>
      forall reply,
        fst (mysql_query drv (pool c) mysql_version_sql [] (st w)) = Ok reply ->
        exists r rs fs, reply = MyRows (r :: rs) fs
  | sqlite =>
      forall r,
        fst (sqlite_get drv (pool c) sqlite_version_sql
               (snd (sqlite_prepare drv (pool c) sqlite_version_sql (st w)))) = Ok r ->
        r <> None
  | sqlserver | other_vendor _ => True
  end.

Definition succeeded (e : native_call * bool) : Prop := snd e = true.
Definition failed (e : native_call * bool) : Prop := snd e = false.
(** ** [migrateData], in the words of its specification *)

Section MigrateDataSpecified.

Variable S : Type.
Variable drv : Driver S.
Variable source target : DatabaseConnection.

(** The requested tables in order, each with the outcome of its
    [migrateTable], run in the world the previous table left behind. *)
Fixpoint attempts (tables : list string) (w : world S)
  : list (string * outcome MigrationResult) :=
  match tables with
  | [] => []
  | table :: rest =>
      let '(r, w') :=
        migrateTable drv source target (VStr table) VUndefined default_batchSize w in
      (table, r) :: attempts rest w'
  end.

(** The report entry of one attempt. *)
Definition entry_for (attempt : string * outcome MigrationResult) : ReportEntry :=
  match snd attempt with
  | Return res =>
      {| entry_table := fst attempt; entry_state := success;
         entry_rows := Some (copied res); entry_time := Some (elapsed res);
         entry_error := None |}
  | Throw message =>
      {| entry_table := fst attempt; entry_state := error;
         entry_rows := None; entry_time := None; entry_error := Some message |}
  | Hang =>
      {| entry_table := fst attempt; entry_state := error;
         entry_rows := None; entry_time := None; entry_error := None |}
  end.

End MigrateDataSpecified.

(** Table [A] can be read and holds two rows; table [B] cannot be read. *)
Definition two_tables (sql : string) : result (list row) :=
  if (sql =? "PRAGMA table_info(A)")%string then
    Ok [[("name", VStr "k"); ("type", VStr "TEXT"); ("notnull", VNum 1); ("pk", VNum 0)]]
  else if (sql =? "SELECT k FROM A LIMIT 100000")%string then
    Ok [[("k", VStr "x")]; [("k", VStr "y")]]
  else if (sql =? "PRAGMA table_info(B)")%string then
    Ok [[("name", VStr "k"); ("type", VStr "TEXT"); ("notnull", VNum 1); ("pk", VNum 0)]]
  else Err "no such table: B".

Definition two : Driver unit := scripted no_ora no_pg no_my no_ms two_tables.

Definition lite_target : DatabaseConnection := handle "d" sqlite 3%nat.

(** An embedded database whose driver raises errors that carry no text, as
    [new Error()] does. *)
Definition mute_lite (sql : string) : result (list row) := Err "".

Definition mute : Driver unit := scripted no_ora no_pg no_my no_ms mute_lite.

(** ** [replicate_database], in the words of its specification *)

Section ReplicateSpecified.

Variable S : Type.
Variable drv : Driver S.
Variable generateCreateTable : value -> list ColumnInfo -> list value -> result string.
Variable source target : DatabaseConnection.

(** Describe the columns and the primary keys of a table and ask for its
    CREATE TABLE statement. *)
Definition prepare_table (name : value) : M S string :=
  columns <- describeTable drv source name ;;
  pks <- listPrimaryKeys drv source name ;;
  of_result (generateCreateTable name columns pks).

(** The line that records how the copy of a table ended. *)
Definition copy_line (name : value) (r : outcome MigrationResult) : list report_line :=
  match r with
  | Return res => [Migrated res]
  | Throw message => [ErrorProcessing name message]
  | Hang => []
  end.

(** The note that records how the execution of the CREATE TABLE statement
    ended. *)
Definition ddl_note (r : outcome QueryResult) : report_line :=
  match r with
  | Throw message => CreationSkipped message
  | _ => Created
  end.

(** What the report says about one table that is not a view, and the world
    afterwards: a failure before the statement is at hand ends the table; a
    failure of the statement is a note and the copy is attempted all the
    same. *)
Definition table_lines (table : TableInfo) (w : world S)
  : list report_line * world S :=
  let name := tbl_name table in
  match prepare_table name w with
  | (Return ddl, w1) =>
      let '(created, w2) := executeQuery drv target ddl default_maxRows w1 in
      let '(copy, w3) :=
        migrateTable drv source target name VUndefined default_batchSize w2 in
      (Processing name :: ddl_note created :: copy_line name copy, w3)
  | (Throw message, w1) => ([Processing name; ErrorProcessing name message], w1)
  | (Hang, w1) => ([Processing name], w1)
  end.

(** The report over the tables in order; an entry of kind VIEW contributes
    nothing and leaves the world as it is. *)
Fixpoint report_lines (tables : list TableInfo) (w : world S)
  : list report_line * world S :=
  match tables with
  | [] => ([], w)
  | table :: rest =>
      match tbl_type table with
      | VIEW => report_lines rest w
      | TABLE =>
          let '(lines, w1) := table_lines table w in
          let '(more, w2) := report_lines rest w1 in
          (lines ++ more, w2)
      end
  end.

End ReplicateSpecified.







(** ** The row cap of [executeQuery] *)






(** A SQL Server request that emits its metadata and three rows. *)
Definition three_rows (sql : string) : result mssql_stream :=
  Ok ([ColumnMetadata ["n"]; RowEvent [("n", VNum 1)]; RowEvent [("n", VNum 2)];
       RowEvent [("n", VNum 3)]], RequestCompleted).

Definition streaming : Driver unit := scripted no_ora no_pg no_my three_rows no_lite.

Definition pg_handle : DatabaseConnection := handle "p" postgresql 4%nat.

(** ** The bindings of [insertBatch] *)

(** The [run] calls in a journal fragment, in order: the statement and the
    values of each. *)
Definition runs (j : list (native_call * bool)) : list (string * list value) :=
  flat_map (fun e => match fst e with
                     | sqlite_run_call _ sql params => [(sql, params)]
                     | _ => []
                     end) j.

(** A first row with columns [a] and [b]; a second row without [b] and with
    a column [c] of its own. *)
Definition ragged : list row :=
  [ [("a", VNum 1); ("b", VNum 2)]; [("a", VNum 3); ("c", VNum 4)] ]%string.

(** A first row with a column named as a member every object inherits, and a
    second row without that column. *)
Definition inheriting : list row :=
  [ [("id", VNum 1); ("constructor", VStr "acme")]; [("id", VNum 2)] ]%string.

Definition quiet : Driver unit := scripted no_ora no_pg no_my no_ms no_lite.

(** Every character of [s] has the property [P]. *)
Fixpoint every (P : ascii -> bool) (s : string) : bool :=
  match s with
  | EmptyString => true
  | String c s' => P c && every P s'
  end.

(** ** The fallback of [listOracleTables] *)










(** ** The table operations of [analyzeProcedureTables] *)

(** The mapping sends table [T] to a set that holds operation [op]. *)
Definition maps_to (tableOps : TableOps) (T op : string) : Prop :=
  exists ops, In (T, ops) tableOps /\ In op ops.

(** The expression given by [keywords] matches somewhere in [text] and
    captures [name] there. *)
Definition occurs (keywords : list string) (text name : string) : Prop :=
  exists before here rest,
    text = (before ++ here)%string /\ match_here keywords here = Some (name, rest).

(** The keys of the mapping are distinct and no set repeats an
    operation. *)
Definition tidy (tableOps : TableOps) : Prop :=
  NoDup (map fst tableOps) /\ Forall (fun e => NoDup (snd e)) tableOps.

(** White space: one white-space character after the other. *)
Inductive white_space : string -> Prop :=
| white_end : white_space EmptyString
| white_more (ch sp : string) :
    In ch white_space_characters -> white_space sp -> white_space (ch ++ sp).

(** Two texts that are the same up to the case of the letters [a] to [z] of
    ASCII, byte for byte. *)
Fixpoint same_but_case (k kw : string) : bool :=
  match k, kw with
  | EmptyString, EmptyString => true
  | String c k', String a kw' =>
      Ascii.eqb (upper_ascii c) (upper_ascii a) && same_but_case k' kw'
  | _, _ => false
  end.

(** [lead] spells the keywords in order, in any mix of cases, each followed
    by one or more white-space characters. *)
Fixpoint spells (keywords : list string) (lead : string) : Prop :=
  match keywords with
  | [] => lead = EmptyString
  | kw :: more =>
      exists k sp tail,
        lead = (k ++ sp ++ tail)%string
        /\ same_but_case k kw = true
        /\ sp <> EmptyString /\ white_space sp
        /\ spells more tail
  end.

(** A byte of a white-space character: one of the six of ASCII, or a byte of
    a character outside ASCII. *)
Definition space_byte (c : ascii) : bool :=
  let n := nat_of_ascii c in
  ((9 <=? n) && (n <=? 13) || (n =? 32) || (128 <=? n))%nat.

(** [name] is an identifier: a letter or an underscore, then letters, digits
    and underscores. *)
Definition is_identifier (name : string) : Prop :=
  exists c tail,
    name = String c tail /\ ident_start c = true /\ every ident_char tail = true.

(** No identifier character follows. *)
Definition ends_identifier (rest : string) : Prop :=
  match rest with
  | EmptyString => True
  | String c _ => ident_char c = false
  end.

(** The expression given by [keywords] has an occurrence at the head of
    [here]: the keywords in any mix of cases, each followed by white space,
    then the identifier [name], which stops where [rest] begins. *)
Definition occurrence_at (keywords : list string) (here name rest : string) : Prop :=
  exists lead,
    here = (lead ++ name ++ rest)%string
    /\ spells keywords lead /\ is_identifier name /\ ends_identifier rest.

(** The identifiers a global scan of [text] captures: that of the leftmost
    occurrence, then those of the scan of what follows that occurrence. *)
Inductive scanned (keywords : list string) : string -> list string -> Prop :=
| scanned_none (text : string) :
    (forall before here name rest,
        text = (before ++ here)%string -> ~ occurrence_at keywords here name rest) ->
    scanned keywords text []
| scanned_match (before here name rest : string) (names : list string) :
    occurrence_at keywords here name rest ->
    (forall b1 b2 n r,
        before = (b1 ++ b2)%string -> b2 <> EmptyString ->
        ~ occurrence_at keywords (b2 ++ here) n r) ->
    scanned keywords rest names ->
    scanned keywords (before ++ here) (name :: names).

(** A keyword made of letters and underscores, at least one. *)
Definition wordlike (kw : string) : bool :=
  match kw with
  | EmptyString => false
  | String _ _ => every ident_start kw
  end.

(** The operations and the keywords that announce each. *)
Definition operation_keywords : list (string * list string) :=
  [ ("SELECT", ["FROM"]); ("INSERT", ["INSERT"; "INTO"]); ("UPDATE", ["UPDATE"]);
    ("DELETE", ["DELETE"; "FROM"]); ("MERGE", ["MERGE"; "INTO"]) ]%string.

(** A PostgreSQL server that answers the version query. *)
Definition versioned_pg (sql : string) : result pg_result :=
  if (sql =? postgres_version_sql)%string then
    Ok {| fields := ["version"]; pg_rows := [[("version", VStr "PostgreSQL 16.2")]];
          pg_rowCount := Some 1 |}
  else Err "syntax error".

Definition versioned : Driver unit := scripted no_ora versioned_pg no_my no_ms no_lite.

(* ================================================================== *)
(** * The rest of [DatabaseService] *)
(* ================================================================== *)

(** ** Statement texts *)

Definition listPostgresForeignKeys_sql : string :=
"SELECT
         kcu.column_name,
         ccu.table_name AS foreign_table_name,
         ccu.column_name AS foreign_column_name
       FROM information_schema.table_constraints AS tc
       JOIN information_schema.key_column_usage AS kcu
         ON tc.constraint_name = kcu.constraint_name
         AND tc.table_schema = kcu.table_schema
       JOIN information_schema.constraint_column_usage AS ccu
         ON ccu.constraint_name = tc.constraint_name
         AND ccu.table_schema = tc.table_schema
       WHERE tc.constraint_type = 'FOREIGN KEY'
         AND tc.table_name = $1
         AND tc.table_schema = $2".

Definition listMySqlForeignKeys_sql : string :=
"
      SELECT 
        COLUMN_NAME as column_name,
        REFERENCED_TABLE_NAME as foreign_table_name,
        REFERENCED_COLUMN_NAME as foreign_column_name
      FROM INFORMATION_SCHEMA.KEY_COLUMN_USAGE
      WHERE TABLE_NAME = ? AND REFERENCED_TABLE_NAME IS NOT NULL
    ".

Definition listSqlServerForeignKeys_sql (tableName : string) : string :=
("
        SELECT 
          COL_NAME(fc.parent_object_id, fc.parent_column_id) as column_name,
          OBJECT_NAME(fc.referenced_object_id) as foreign_table_name,
          COL_NAME(fc.referenced_object_id, fc.referenced_column_id) as foreign_column_name
        FROM sys.foreign_key_columns fc
        WHERE OBJECT_NAME(fc.parent_object_id) = '" ++ tableName ++ "'
      ")%string.

Definition foreign_key_list_sql (tableName : string) : string :=
  ("PRAGMA foreign_key_list(" ++ tableName ++ ")")%string.

Definition listOraclePackages_sql : string :=
"
      SELECT 
        OBJECT_NAME as name,
        OBJECT_TYPE as type,
        STATUS as status
      FROM USER_OBJECTS
      WHERE OBJECT_TYPE IN ('PACKAGE', 'PACKAGE BODY')
      ORDER BY OBJECT_NAME, OBJECT_TYPE
    ".

Definition getOracleErrors_sql (objectName objectType : string) : string :=
("
        SELECT 
          LINE as line,
          POSITION as position,
          TEXT as text,
          ATTRIBUTE as attribute
        FROM USER_ERRORS
        WHERE NAME = '" ++ toUpperCase objectName ++ "'
          AND TYPE = '" ++ objectType ++ "'
        ORDER BY SEQUENCE
      ")%string.

Definition listPackageProcedures_sql : string :=
"
      SELECT 
        p.PROCEDURE_NAME as proc_name,
        p.OBJECT_TYPE as type,
        p.OVERLOAD as overload,
        o.STATUS as status
      FROM USER_PROCEDURES p
      LEFT JOIN USER_OBJECTS o ON p.PROCEDURE_NAME = o.OBJECT_NAME 
        AND p.OBJECT_TYPE = o.OBJECT_TYPE
      WHERE p.OBJECT_NAME = :packageName
        AND p.PROCEDURE_NAME IS NOT NULL
      ORDER BY p.PROCEDURE_NAME, p.OVERLOAD
    ".

Definition getOracleSource_sql (objectName objectType : string) : string :=
("
      SELECT TEXT
      FROM USER_SOURCE
      WHERE NAME = '" ++ toUpperCase objectName ++ "'
        AND TYPE = '" ++ objectType ++ "'
      ORDER BY LINE
    ")%string.

(** ** [String.prototype.replace] with a string pattern *)

(** The first occurrence of [pattern] in [s]: what precedes it and what
    follows it. *)
Fixpoint split_at (pattern s : string) : option (string * string) :=
  match strip_prefix pattern s with
  | Some following => Some (EmptyString, following)
  | None =>
      match s with
      | String c s' =>
          match split_at pattern s' with
          | Some (preceding, following) => Some (String c preceding, following)
          | None => None
          end
      | EmptyString => None
      end
  end.

(** The replacement text with its dollar patterns expanded.  A string
    pattern has no capture groups, so a dollar before a digit or an angle
    bracket stands for itself. *)
Fixpoint substitution (replacement matched preceding following : string) : string :=
  match replacement with
  | String c r =>
      if Ascii.eqb c "$" then
        match r with
        | String d r' =>
            if Ascii.eqb d "$" then
              String "$" (substitution r' matched preceding following)
            else if Ascii.eqb d "&" then
              matched ++ substitution r' matched preceding following
            else if Ascii.eqb d "`" then
              preceding ++ substitution r' matched preceding following
            else if Ascii.eqb d "'" then
              following ++ substitution r' matched preceding following
            else String c (substitution r matched preceding following)
        | EmptyString => String c EmptyString
        end
      else String c (substitution r matched preceding following)
  | EmptyString => EmptyString
  end%string.

(** [s.replace(pattern, replacement)]: the first occurrence only. *)
Definition replace_first (s pattern replacement : string) : string :=
  match split_at pattern s with
  | Some (preceding, following) =>
      (preceding ++ substitution replacement pattern preceding following ++ following)%string
  | None => s
  end.

(** ** [listForeignKeys] and the operations on stored code *)

Record PackageInfo : Type := {
  pkg_name : value;
  pkg_type : value;
  pkg_status : value
}.

Record CompilationError : Type := {
  err_line : value;
  err_position : value;
  err_text : value;
  err_attribute : value
}.

Record ProcedureInfo : Type := {
  proc_name : value;
  proc_type : value;
  proc_overload : value;
  proc_status : value
}.

(** [row.UPPER || row.lower] *)
Definition either (r : row) (upper lower : string) : value :=
  or_else (get r upper) (get r lower).

Definition oracle_only : string := "Esta función solo está disponible para Oracle".

Section DatabaseServiceContinued.

Variable S : Type.
Variable drv : Driver S.

Local Abbreviation Op := (M S).

Definition fk_edge (r : row) : ForeignKeyEdge :=
  {| fk_column := get r "column_name";
     refTable := get r "foreign_table_name";
     refColumn := get r "foreign_column_name" |}.

Definition listPostgresForeignKeys (p : pool_ref) (tableName : value)
  (schema : option string) : Op (list ForeignKeyEdge) :=
  result <- pgQuery drv p listPostgresForeignKeys_sql
              [tableName; VStr (default_to "public" schema)] ;;
  ret (map fk_edge (pg_rows result)).

Definition listMySqlForeignKeys (p : pool_ref) (tableName : value)
  : Op (list ForeignKeyEdge) :=
  reply <- mysqlQuery drv p listMySqlForeignKeys_sql [tableName] ;;
  match reply with
  | MyRows rs _ => ret (map fk_edge rs)
  | MyHeader _ => throw "rows.map is not a function"
  end.

Definition listSqlServerForeignKeys (p : pool_ref) (tableName : value)
  : Op (list ForeignKeyEdge) :=
  collect_rows drv p (listSqlServerForeignKeys_sql (template tableName))
    (fun data => {| fk_column := cell data 0;
                    refTable := cell data 1;
                    refColumn := cell data 2 |}).

Definition listSqliteForeignKeys (p : pool_ref) (tableName : value)
  : Op (list ForeignKeyEdge) :=
  prepare drv p (foreign_key_list_sql (template tableName)) ;;;
  rs <- all drv p (foreign_key_list_sql (template tableName)) ;;
  ret (map (fun r => {| fk_column := get r "from";
                        refTable := get r "table";
                        refColumn := get r "to" |}) rs).

Definition listForeignKeys (c : DatabaseConnection) (tableName : value)
  : Op (list ForeignKeyEdge) :=
  match vendor_of c with
  | oracle => listOracleForeignKeys drv (pool c) tableName (schema (config c))
  | postgresql => listPostgresForeignKeys (pool c) tableName (schema (config c))
  | mysql | mariadb => listMySqlForeignKeys (pool c) tableName
  | sqlserver => listSqlServerForeignKeys (pool c) tableName
  | sqlite => listSqliteForeignKeys (pool c) tableName
  | other_vendor tag => unsupported tag
  end.

Definition listOraclePackages (c : DatabaseConnection) : Op (list PackageInfo) :=
  match vendor_of c with
  | oracle =>
      result <- executeQuery drv c listOraclePackages_sql 1000 ;;
      ret (map (fun r => {| pkg_name := either r "NAME" "name";
                            pkg_type := either r "TYPE" "type";
                            pkg_status := either r "STATUS" "status" |}) (rows result))
  | _ => throw oracle_only
  end.

Definition getOracleErrors (c : DatabaseConnection) (objectName objectType : string)
  : Op (list CompilationError) :=
  match vendor_of c with
  | oracle =>
      try_catch
        (result <- executeQuery drv c (getOracleErrors_sql objectName objectType) 100 ;;
         ret (map (fun r => {| err_line := either r "LINE" "line";
                               err_position := either r "POSITION" "position";
                               err_text := either r "TEXT" "text";
                               err_attribute := either r "ATTRIBUTE" "attribute" |})
                (rows result)))
        (fun _ => ret [])
  | _ => throw oracle_only
  end.

(** The statement of [listPackageProcedures]: the placeholder replaced by
    the quoted, upper-cased package name. *)
Definition safeSql (packageName : string) : string :=
  replace_first listPackageProcedures_sql ":packageName"
    ("'" ++ toUpperCase packageName ++ "'").

Definition listPackageProcedures (c : DatabaseConnection) (packageName : string)
  : Op (list ProcedureInfo) :=
  match vendor_of c with
  | oracle =>
      result <- executeQuery drv c (safeSql packageName) 1000 ;;
      ret (map (fun r => {| proc_name := either r "PROC_NAME" "proc_name";
                            proc_type := either r "TYPE" "type";
                            proc_overload := or_else (either r "OVERLOAD" "overload") VNull;
                            proc_status := or_else (either r "STATUS" "status")
                                             (VStr "UNKNOWN") |})
             (filter (fun r => truthy (either r "PROC_NAME" "proc_name")) (rows result)))
  | _ => throw oracle_only
  end.

Definition getOracleSource (c : DatabaseConnection) (objectName objectType : string)
  : Op string :=
  match vendor_of c with
  | oracle =>
      result <- executeQuery drv c (getOracleSource_sql objectName objectType) 10000 ;;
      ret (join "" (map (fun r => join_item (either r "TEXT" "text")) (rows result)))
  | _ => throw oracle_only
  end.

End DatabaseServiceContinued.

(* ================================================================== *)
(** * Blocks of a procedure source ([parseProcedureBlocks]) *)
(* ================================================================== *)

(** [s.split('\n')] *)
Fixpoint split_lines (s : string) : list string :=
  match s with
  | EmptyString => [EmptyString]
  | String c s' =>
      if Ascii.eqb c (ascii_of_nat 10) then EmptyString :: split_lines s'
      else
        match split_lines s' with
        | l :: more => String c l :: more
        | [] => [String c EmptyString]
        end
  end.

(** [s.trimEnd()]: what is left of [s] once nothing but white space
    follows. *)
Fixpoint trimEnd (s : string) : string :=
  match s with
  | EmptyString => EmptyString
  | String c s' =>
      match skip_spaces s with
      | EmptyString => EmptyString
      | _ => String c (trimEnd s')
      end
  end.

(** [s.trim()] *)
Definition trim (s : string) : string := trimEnd (skip_spaces s).

(** [s.startsWith(lead)] *)
Definition startsWith (s lead : string) : bool := String.prefix lead s.

(** [s.includes(part)] *)
Fixpoint includes (s part : string) : bool :=
  String.prefix part s
  || match s with
     | String _ s' => includes s' part
     | EmptyString => false
     end.

(** The expression of [extractTablesFromCode] is an alternation of four
    keywords before the white space and the captured identifier.  The
    keywords begin with different letters, so at most one alternative matches
    at a position. *)
Definition table_keywords : list string := [ "FROM"; "INTO"; "UPDATE"; "JOIN" ]%string.

Fixpoint match_any (alternatives : list string) (s : string) : option (string * string) :=
  match alternatives with
  | [] => None
  | kw :: more =>
      match match_here [kw] s with
      | Some found => Some found
      | None => match_any more s
      end
  end.

(** The [exec] loop of the global expression, as [exec_all]. *)
Fixpoint exec_any (alternatives : list string) (s : string) (covered : nat) : list string :=
  match s with
  | EmptyString => []
  | String _ s' =>
      match covered with
      | Datatypes.S k => exec_any alternatives s' k
      | O =>
          match match_any alternatives s with
          | Some (name, rest) =>
              name :: exec_any alternatives s' (String.length s - String.length rest - 1)
          | None => exec_any alternatives s' 0
          end
      end
  end.

(** [tables] is a [Set]: [Array.from] lists it in insertion order. *)
Definition extractTablesFromCode (code : string) : list string :=
  fold_left (fun tables capture => add tables (toUpperCase capture))
    (exec_any table_keywords code 0) [].

Inductive block_type : Type :=
| declaration_block
| begin_block
| cursor_block
| sql_block
| exception_block
| end_block.

(** The string the code uses for a block type. *)
Definition block_tag (t : block_type) : string :=
  match t with
  | declaration_block => "declaration"
  | begin_block => "begin"
  | cursor_block => "cursor"
  | sql_block => "sql"
  | exception_block => "exception"
  | end_block => "end"
  end.

Record Block : Type := {
  blk_type : block_type;
  blk_content : string;
  blk_tables : list string;
  lineStart : Z;
  lineEnd : Z
}.

Definition createBlock (type : block_type) (lines : list string) (start finish : Z)
  : Block :=
  let content := join newline lines in
  {| blk_type := type;
     blk_content := content;
     blk_tables := extractTablesFromCode content;
     lineStart := start + 1;
     lineEnd := finish + 1 |}.

(** The variables of the loop of [parseProcedureBlocks]. *)
Record parse_state : Type := {
  blocks : list Block;
  currentBlock : list string;
  blockStart : Z;
  blockType : block_type
}.

(** [if (currentBlock.length > 0) blocks.push(createBlock(..., finish))] *)
Definition flush (s : parse_state) (finish : Z) : list Block :=
  match currentBlock s with
  | [] => blocks s
  | _ :: _ =>
      blocks s ++ [createBlock (blockType s) (currentBlock s) (blockStart s) finish]
  end.

(** A line that closes the block at hand and opens a block of type [t]. *)
Definition open_block (s : parse_state) (i : Z) (raw : string) (t : block_type)
  : parse_state :=
  {| blocks := flush s (i - 1); currentBlock := [raw]; blockStart := i; blockType := t |}.

(** A line that joins the block at hand, whose type becomes [t]. *)
Definition keep_block (s : parse_state) (raw : string) (t : block_type) : parse_state :=
  {| blocks := blocks s; currentBlock := currentBlock s ++ [raw];
     blockStart := blockStart s; blockType := t |}.

Definition is_sql_block (t : block_type) : bool :=
  match t with sql_block => true | _ => false end.

(** The body of the loop for line [i]. *)
Definition parse_line (s : parse_state) (i : Z) (raw : string) : parse_state :=
  let line := toUpperCase (trim raw) in
  if startsWith line "BEGIN" then open_block s i raw begin_block
  else if includes line "CURSOR" then keep_block s raw cursor_block
  else if includes line "SELECT" || includes line "INSERT"
          || includes line "UPDATE" || includes line "DELETE" then
    if is_sql_block (blockType s) then keep_block s raw (blockType s)
    else open_block s i raw sql_block
  else if startsWith line "EXCEPTION" then open_block s i raw exception_block
  else if startsWith line "END" then
    {| blocks := blocks s
                 ++ [createBlock (blockType s) (currentBlock s ++ [raw]) (blockStart s) i];
       currentBlock := [];
       blockStart := blockStart s;
       blockType := end_block |}
  else keep_block s raw (blockType s).

(** The loop from line [i] on. *)
Fixpoint parse_lines (lines : list string) (i : Z) (s : parse_state) : parse_state :=
  match lines with
  | [] => s
  | raw :: more => parse_lines more (i + 1) (parse_line s i raw)
  end.

Definition parseProcedureBlocks (sourceCode : string) : list Block :=
  let lines := split_lines sourceCode in
  flush
    (parse_lines lines 0
       {| blocks := []; currentBlock := []; blockStart := 0;
          blockType := declaration_block |})
    (len lines - 1).

(* ================================================================== *)
(** * Connections: [CliConnectionLoader] and the registry of [index.js] *)
(* ================================================================== *)

(** What [new URL(uri)] exposes of a parsed address; [href] is
    [url.toString()]. *)
Record URL : Type := {
  protocol : string;
  username : string;
  password : string;
  hostname : string;
  port : string;
  pathname : string;
  href : string
}.

(** A row of the connection store. *)
Record StoredConfig : Type := {
  stored_id : string;
  stored_vendor : string;
  stored_connectionString : string
}.

(** The settings handed to the constructor of a SQL Server connection. *)
Record TediousConfig : Type := {
  server : string;
  userName : string;
  tedious_password : string;
  tedious_port : Z;
  tedious_database : string
}.

(** Everything the loader and the handlers reach outside the repository,
    over a state [W] of its own: the address parser, the client libraries
    that open pools, the process environment and the connection store. *)
Record Host (W : Type) : Type := {
  new_URL : string -> result URL;
  decodeURIComponent : string -> result string;
  ORACLE_CLIENT_LIB_DIR : option string;
  win32 : bool;
  initOracleClient : string -> W -> result unit * W;
  oracledb_createPool : string -> string -> string -> W -> result pool_ref * W;
  pg_Pool : string -> W -> result pool_ref * W;
  pg_connect : pool_ref -> W -> result unit * W;
  pg_release : pool_ref -> W -> result unit * W;
  mysql_createPool : string -> W -> result pool_ref * W;
  mysql_getConnection : pool_ref -> W -> result unit * W;
  mysql_release : pool_ref -> W -> result unit * W;
  tedious_connect : TediousConfig -> W -> result pool_ref * W;
  sqlite_Database : string -> W -> result pool_ref * W;
  store_saveConnection : StoredConfig -> W -> result unit * W;
  store_getConnections : W -> result (list StoredConfig) * W;
  store_removeConnection : string -> W -> result unit * W
}.

(** [s.substring(n)] *)
Fixpoint substring_from (n : nat) (s : string) : string :=
  match n, s with
  | Datatypes.S k, String _ s' => substring_from k s'
  | _, _ => s
  end.

(** [s.endsWith(tail)] *)
Definition endsWith (s tail : string) : bool :=
  (String.length tail <=? String.length s)%nat
  && (substring_from (String.length s - String.length tail) s =? tail)%string.

(** [Number(s)] for the text of a port: decimal digits, or nothing. *)
Definition Number_of (s : string) : Z :=
  match NilZero.int_of_string s with
  | Some n => Z.of_int n
  | None => 0
  end.

(** [/^\/[a-zA-Z]:/.test(path)] *)
Definition drive_path (path : string) : bool :=
  match path with
  | String a (String b (String c _)) =>
      Ascii.eqb a "/"
      && (let n := nat_of_ascii (upper_ascii b) in (65 <=? n) && (n <=? 90))%nat
      && Ascii.eqb c ":"
  | _ => false
  end.

Section CliConnectionLoader.

Variable W : Type.
Variable host : Host W.

(** One awaited call of a client library. *)
Definition outside {A} (f : W -> result A * W) : St W A :=
  fun w => let '(r, w') := f w in (settle r, w').

Definition createOracleConnection (id' : string) (url : URL) : St W DatabaseConnection :=
  user <- of_result (decodeURIComponent host (username url)) ;;
  password' <- of_result (decodeURIComponent host (password url)) ;;
  let connectString :=
    (hostname url ++ ":" ++ (if (port url =? "")%string then "1521" else port url)
       ++ "/" ++ substring_from 1 (pathname url))%string in
  match ORACLE_CLIENT_LIB_DIR host with
  | Some libDir =>
      if (libDir =? "")%string then ret tt
      else try_catch (outside (initOracleClient host libDir)) (fun _ => ret tt)
  | None => ret tt
  end ;;;
  pool' <- outside (oracledb_createPool host user password' connectString) ;;
  ret {| id := id'; vendor_of := oracle; pool := pool';
         connectionString := href url;
         config := {| schema := Some (toUpperCase user);
                      database := Some (substring_from 1 (pathname url));
                      maxPoolSize := None |} |}.

Definition createPostgresConnection (id' : string) (url : URL) (rawUri : string)
  : St W DatabaseConnection :=
  pool' <- outside (pg_Pool host rawUri) ;;
  outside (pg_connect host pool') ;;;
  outside (pg_release host pool') ;;;
  ret {| id := id'; vendor_of := postgresql; pool := pool';
         connectionString := rawUri;
         config := {| schema := Some "public";
                      database := Some (substring_from 1 (pathname url));
                      maxPoolSize := None |} |}.

Definition createMysqlConnection (id' : string) (uri : string) : St W DatabaseConnection :=
  pool' <- outside (mysql_createPool host uri) ;;
  outside (mysql_getConnection host pool') ;;;
  outside (mysql_release host pool') ;;;
  let database' :=
    match new_URL host uri with
    | Ok url => Some (substring_from 1 (pathname url))
    | Err _ => None
    end in
  ret {| id := id'; vendor_of := mysql; pool := pool';
         connectionString := uri;
         config := {| schema := None; database := database'; maxPoolSize := None |} |}.

Definition createSqlServerConnection (id' : string) (url : URL)
  : St W DatabaseConnection :=
  user <- of_result (decodeURIComponent host (username url)) ;;
  password' <- of_result (decodeURIComponent host (password url)) ;;
  let settings :=
    {| server := hostname url; userName := user; tedious_password := password';
       tedious_port := (if Number_of (port url) =? 0 then 1433 else Number_of (port url));
       tedious_database := substring_from 1 (pathname url) |} in
  connection <- outside (tedious_connect host settings) ;;
  ret {| id := id'; vendor_of := sqlserver; pool := connection;
         connectionString := href url;
         config := {| schema := Some "dbo";
                      database := Some (tedious_database settings);
                      maxPoolSize := None |} |}.

Definition createSqliteConnection (id' : string) (url : URL) : St W DatabaseConnection :=
  let path :=
    if win32 host && drive_path (pathname url) then substring_from 1 (pathname url)
    else pathname url in
  path' <- of_result (decodeURIComponent host path) ;;
  db <- outside (sqlite_Database host path') ;;
  ret {| id := id'; vendor_of := sqlite; pool := db;
         connectionString := href url;
         config := {| schema := None; database := Some path'; maxPoolSize := None |} |}.

(** The address of [createConnection]: a path to a [.db] or [.sqlite] file
    that is not an address is read as a [sqlite:] address. *)
Definition parse_address (uri : string) : result URL :=
  match new_URL host uri with
  | Ok url => Ok url
  | Err e =>
      if endsWith uri ".db" || endsWith uri ".sqlite"
      then new_URL host ("sqlite://" ++ uri)
      else Err e
  end.

Definition createConnection (id' uri : string) : St W DatabaseConnection :=
  url <- of_result (parse_address uri) ;;
  let protocol' := replace_first (protocol url) ":" "" in
  if (protocol' =? "oracle")%string then createOracleConnection id' url
  else if (protocol' =? "postgres")%string || (protocol' =? "postgresql")%string
  then createPostgresConnection id' url uri
  else if (protocol' =? "mysql")%string then createMysqlConnection id' uri
  else if (protocol' =? "sqlserver")%string || (protocol' =? "mssql")%string
  then createSqlServerConnection id' url
  else if (protocol' =? "sqlite")%string || (protocol' =? "file")%string
  then createSqliteConnection id' url
  else throw ("Unsupported protocol: " ++ protocol')%string.

(** The loop of [loadConnections] over the arguments from index [i] on,
    with the connections pushed so far.  A flag whose value opens a
    connection consumes its value; in every other case the loop moves one
    argument ahead. *)
Fixpoint load_from (args : list string) (connections : list DatabaseConnection)
  : St W (list DatabaseConnection) :=
  match args with
  | [] => ret connections
  | arg :: rest =>
      match rest with
      | [] => ret connections
      | connectionString' :: following =>
          if startsWith arg "--" then
            if startsWith connectionString' "--" then load_from rest connections
            else
              fun w =>
                match createConnection (substring_from 2 arg) connectionString' w with
                | (Return conn, w') => load_from following (connections ++ [conn]) w'
                | (Throw _, w') => load_from rest connections w'
                | (Hang, w') => (Hang, w')
                end
          else load_from rest connections
      end
  end.

Definition loadConnections (args : list string) : St W (list DatabaseConnection) :=
  load_from args [].

(** ** The registry of [index.js] *)

(** [connections.find(c => c.id === id)] *)
Definition find_connection (connections : list DatabaseConnection) (id' : string)
  : option DatabaseConnection :=
  find (fun c => (id c =? id')%string) connections.

(** The loop of [main] over the stored configurations: one that the command
    line already defines is skipped, one that cannot be opened is dropped. *)
Fixpoint load_stored (cliConnections : list DatabaseConnection)
  (storedConfigs : list StoredConfig) (storedConnections : list DatabaseConnection)
  : St W (list DatabaseConnection) :=
  match storedConfigs with
  | [] => ret storedConnections
  | stored :: rest =>
      match find_connection cliConnections (stored_id stored) with
      | Some _ => load_stored cliConnections rest storedConnections
      | None =>
          fun w =>
            match createConnection (stored_id stored) (stored_connectionString stored) w with
            | (Return conn, w') =>
                load_stored cliConnections rest (storedConnections ++ [conn]) w'
            | (Throw _, w') => load_stored cliConnections rest storedConnections w'
            | (Hang, w') => (Hang, w')
            end
      end
  end.

(** The [try] block of [main] with its [catch]: the registry it leaves.  The
    registry is empty before, and stays so when loading fails. *)
Definition load_registry (args : list string) : St W (list DatabaseConnection) :=
  try_catch
    (cliConnections <- loadConnections args ;;
     storedConfigs <- outside (store_getConnections host) ;;
     storedConnections <- load_stored cliConnections storedConfigs [] ;;
     ret (cliConnections ++ storedConnections))
    (fun _ => ret []).

(** [connections[existingIndex] = conn] for the first index whose element
    has the given [id], or [connections.push(conn)] when there is none. *)
Fixpoint activate (connections : list DatabaseConnection) (id' : string)
  (conn : DatabaseConnection) : list DatabaseConnection :=
  match connections with
  | [] => [conn]
  | c :: rest =>
      if (id c =? id')%string then conn :: rest else c :: activate rest id' conn
  end.

(** A request handler over the world outside and the registry. *)
Definition Serving (A : Type) : Type := St (W * list DatabaseConnection) A.

Definition outward {A} (m : St W A) : Serving A :=
  fun s => let '(r, w') := m (fst s) in (r, (w', snd s)).

(** The [save_connection] case with its own [catch]. *)
Definition save_connection (id' vendor' connectionString' : string) : Serving ToolReply :=
  try_catch
    (conn <- outward (createConnection id' connectionString') ;;
     outward (outside (store_saveConnection host
                {| stored_id := id'; stored_vendor := vendor';
                   stored_connectionString := connectionString' |})) ;;;
     (fun s => (Return tt, (fst s, activate (snd s) id' conn))) ;;;
     ret {| text := ("Connection '" ++ id' ++ "' saved and activated.")%string;
            isError := false |})
    (fun message =>
       ret {| text := ("Failed to connect: " ++ message)%string; isError := true |}).

(** The [remove_connection] case with the [catch] of the handler. *)
Definition remove_connection (id' : string) : Serving ToolReply :=
  try_catch
    (outward (outside (store_removeConnection host id')) ;;;
     (fun s => (Return tt,
                (fst s, filter (fun c => negb (id c =? id')%string) (snd s)))) ;;;
     ret {| text := ("Connection '" ++ id' ++ "' removed.")%string; isError := false |})
    (fun message => ret {| text := ("Error: " ++ message)%string; isError := true |}).

End CliConnectionLoader.

(* ================================================================== *)
(** * More scripted environments *)
(* ================================================================== *)

(** An embedded source whose table [r] hands over two rows with different
    columns. *)
Definition ragged_lite (sql : string) : result (list row) :=
  if (sql =? "PRAGMA table_info(r)")%string then
    Ok [[("name", VStr "a"); ("type", VStr "INTEGER"); ("notnull", VNum 0); ("pk", VNum 0)];
        [("name", VStr "b"); ("type", VStr "INTEGER"); ("notnull", VNum 0); ("pk", VNum 0)]]
  else if (sql =? "SELECT a, b FROM r LIMIT 100000")%string then
    Ok [[("a", VNum 1)]; [("b", VNum 2)]]
  else Err "no such table".

(** An Oracle target whose table [r] has a column [a] and no column [b]. *)
Definition picky_ora (sql : string) : result ora_result :=
  if (sql =? insert_sql oracle (VStr "r") ["a"] "(:0)")%string then
    Ok {| metaData := None; ora_rows := None; rowsAffected := Some 1 |}
  else Err "ORA-00904: invalid identifier".

Definition picky : Driver unit := scripted picky_ora no_pg no_my no_ms ragged_lite.

(* ================================================================== *)
(** * Vocabulary of the further properties *)
(* ================================================================== *)

(** ** The VALUES text of a multi-row INSERT *)

(** One parenthesised group of [width] numbered placeholders, the first of
    which is [$first]. *)
Definition numbered_group (width : nat) (first : Z) : string :=
  ("(" ++ join ", " (map (fun j => "$" ++ string_of_Z (first + Z.of_nat j)) (seq 0 width))
       ++ ")")%string.

(** One parenthesised group of [width] question marks. *)
Definition question_group (width : nat) : string :=
  ("(" ++ join ", " (repeat "?" width) ++ ")")%string.

(** The groups of a statement for [count] rows of [width] columns: the
    placeholders are numbered from 1 on, row after row. *)
Definition numbered_groups (width count : nat) : list string :=
  map (fun i => numbered_group width (1 + Z.of_nat i * Z.of_nat width)) (seq 0 count).

Definition mysql_handle : DatabaseConnection := handle "m" mysql 5%nat.

(** ** The blocks of [parseProcedureBlocks] *)

(** The number of lines of a text. *)
Definition line_count (s : string) : Z := len (split_lines s).

(** Consecutive blocks: each one ends as many lines after the end of the
    block before it as it has lines; [from] is the line the first one
    follows. *)
Fixpoint tiled (from : Z) (bs : list Block) : Prop :=
  match bs with
  | [] => True
  | b :: more => lineEnd b = from + line_count (blk_content b) /\ tiled (lineEnd b) more
  end.

(** No line break inside. *)
Definition one_line (s : string) : bool :=
  every (fun c => negb (Ascii.eqb c (ascii_of_nat 10))) s.

(** The line a run of blocks ends at. *)
Definition reach (from : Z) (bs : list Block) : Z :=
  fold_left (fun _ b => lineEnd b) bs from.

(** The blocks pushed so far against the lines they were cut from: the
    contents give the lines back, the ends follow the lines, no start lies
    after the first line of its block, and the tables are those of the
    content. *)
Definition cut_from (covered : list string) (bs : list Block) : Prop :=
  concat (map (fun b => split_lines (blk_content b)) bs) = covered
  /\ tiled 0 bs
  /\ reach 0 bs = len covered
  /\ Forall (fun b => 1 <= lineStart b <= lineEnd b - line_count (blk_content b) + 1) bs
  /\ Forall (fun b => blk_tables b = extractTablesFromCode (blk_content b)) bs.

(** A match read on the upper-cased text. *)
Definition upper_match (m : option (string * string)) : option (string * string) :=
  option_map (fun found => (toUpperCase (fst found), toUpperCase (snd found))) m.

(** The state of the loop of [parseProcedureBlocks] after the lines
    [done]: the pushed blocks are cut from the lines before the block at
    hand, and [blockStart] is not after the first line of that block. *)
Definition parsed (s : parse_state) (done : list string) : Prop :=
  exists covered,
    done = covered ++ currentBlock s
    /\ cut_from covered (blocks s)
    /\ 0 <= blockStart s <= len covered.

(** ** Replacement texts *)

(** No dollar pattern occurs in the replacement text. *)
Definition plain_replacement (r : string) : bool :=
  negb (includes r "$$" || includes r "$&" || includes r "$`" || includes r "$'").

(** No dollar sign at all. *)
Definition dollar_free (s : string) : bool :=
  every (fun c => negb (Ascii.eqb c "$")) s.

(** ** Property names *)

(** A property name made of decimal digits only: an object lists such names
    before its other properties, whatever the order of assignment. *)
Definition digits_only (k : string) : bool :=
  match k with
  | EmptyString => false
  | String _ _ =>
      every (fun c => let n := nat_of_ascii c in ((48 <=? n) && (n <=? 57))%nat) k
  end.

(** A name that assignment stores as an own property, in the order of
    assignment: not [__proto__], which assignment hands to the setter of the
    prototype, and not a run of digits. *)
Definition ordinary_key (k : string) : bool :=
  negb (k =? "__proto__")%string && negb (digits_only k).

(** An embedded database whose table [k] has the composite primary key
    ([b], [a]) and a third column [c]. *)
Definition composite_lite (sql : string) : result (list row) :=
  if (sql =? "PRAGMA table_info(k)")%string then
    Ok [[("name", VStr "a"); ("type", VStr "TEXT"); ("notnull", VNum 1); ("pk", VNum 2)];
        [("name", VStr "b"); ("type", VStr "TEXT"); ("notnull", VNum 1); ("pk", VNum 1)];
        [("name", VStr "c"); ("type", VStr "TEXT"); ("notnull", VNum 0); ("pk", VNum 0)]]
  else Err "no such table".

Definition composite : Driver unit := scripted no_ora no_pg no_my no_ms composite_lite.

(** ** Loaded connections *)

(** A loaded connection comes from a flag of the command line, [--] and its
    name, and the argument after it, which is not a flag. *)
Definition from_flag (args : list string) (c : DatabaseConnection) : Prop :=
  exists before value following,
    args = before ++ ("--" ++ id c)%string :: value :: following
    /\ startsWith value "--" = false.

(** The protocols [createConnection] has a branch for. *)
Definition known_protocols : list string :=
  [ "oracle"; "postgres"; "postgresql"; "mysql"; "sqlserver"; "mssql"; "sqlite"; "file" ]%string.

(** ** A scripted host *)

Definition bare_URL (scheme rest path : string) : URL :=
  {| protocol := (scheme ++ ":")%string; username := "app"; password := "secret";
     hostname := "db"; port := ""; pathname := path;
     href := (scheme ++ "://" ++ rest)%string |}.

(** The addresses the scripted host can parse. *)
Definition desk_URL (uri : string) : result URL :=
  if (uri =? "postgres://app:secret@db/shop")%string
  then Ok (bare_URL "postgres" "app:secret@db/shop" "/shop")
  else if (uri =? "mysql://app:secret@db")%string
  then Ok (bare_URL "mysql" "app:secret@db" "")
  else if (uri =? "mariadb://app:secret@db/shop")%string
  then Ok (bare_URL "mariadb" "app:secret@db/shop" "/shop")
  else Err "Invalid URL".

(** A host on which every library call succeeds and the store is empty. *)
Definition desk : Host unit :=
  {| new_URL := desk_URL;
     decodeURIComponent := fun s => Ok s;
     ORACLE_CLIENT_LIB_DIR := None;
     win32 := false;
     initOracleClient := fun _ w => (Ok tt, w);
     oracledb_createPool := fun _ _ _ w => (Ok 10%nat, w);
     pg_Pool := fun _ w => (Ok 11%nat, w);
     pg_connect := fun _ w => (Ok tt, w);
     pg_release := fun _ w => (Ok tt, w);
     mysql_createPool := fun _ w => (Ok 12%nat, w);
     mysql_getConnection := fun _ w => (Ok tt, w);
     mysql_release := fun _ w => (Ok tt, w);
     tedious_connect := fun _ w => (Ok 13%nat, w);
     sqlite_Database := fun _ w => (Ok 14%nat, w);
     store_saveConnection := fun _ w => (Ok tt, w);
     store_getConnections := fun w => (Ok [], w);
     store_removeConnection := fun _ w => (Ok tt, w) |}.
(* ================================================================== *)
(** * [ContextService]: one Markdown file per connection *)

(** An error of the file system: its [code] and its message. *)
Record fs_error : Type := {
  err_code : string;
  err_message : string
}.

Inductive fs_result (A : Type) : Type :=
| Done (a : A)
| Failed (e : fs_error).
Arguments Failed {A} e.

(** The file system and [path.join], over a state [W] of their own. *)
Record Disk (W : Type) : Type := {
  path_join : string -> string -> string;
  fs_writeFile : string -> string -> W -> fs_result unit * W;
  fs_readFile : string -> W -> fs_result string * W;
  fs_access : string -> W -> fs_result unit * W;
  fs_readdir : string -> W -> fs_result (list string) * W
}.

(** [[a-zA-Z0-9_\-\.]] *)
Definition safe_char (c : ascii) : bool :=
  let n := nat_of_ascii c in
  ((97 <=? n) && (n <=? 122) || (65 <=? n) && (n <=? 90) || (48 <=? n) && (n <=? 57)
   || (n =? 95) || (n =? 45) || (n =? 46))%nat.

(** [connectionId.replace(/[^a-zA-Z0-9_\-\.]/g, '_')]: every character
    outside the class becomes an underscore.  A character outside ASCII, being
    several bytes here, becomes as many underscores. *)
Fixpoint safeId (connectionId : string) : string :=
  match connectionId with
  | EmptyString => EmptyString
  | String c rest => String (if safe_char c then c else "_"%char) (safeId rest)
  end.

(** The other path separator. *)
Definition backslash : string := String (ascii_of_nat 92) EmptyString.

Section ContextService.

Context {W : Type} (disk : Disk W).

(** [this.contextsDir] *)
Variable contextsDir : string.

Definition getFilePath (connectionId : string) : string :=
  path_join disk contextsDir (safeId connectionId ++ ".md").

Definition saveContext (connectionId content : string) : St W unit :=
  fun w =>
    match fs_writeFile disk (getFilePath connectionId) content w with
    | (Done _, w') => (Return tt, w')
    | (Failed e, w') => (Throw (err_message e), w')
    end.

(** [null] is [None]. *)
Definition getContext (connectionId : string) : St W (option string) :=
  fun w =>
    match fs_readFile disk (getFilePath connectionId) w with
    | (Done text, w') => (Return (Some text), w')
    | (Failed e, w') =>
        if (err_code e =? "ENOENT")%string then (Return None, w')
        else (Throw (err_message e), w')
    end.

Definition hasContext (connectionId : string) : St W bool :=
  fun w =>
    match fs_access disk (getFilePath connectionId) w with
    | (Done _, w') => (Return true, w')
    | (Failed _, w') => (Return false, w')
    end.

Definition listContexts : St W (list string) :=
  fun w =>
    match fs_readdir disk contextsDir w with
    | (Done files, w') =>
        (Return (map (fun f => replace_first f ".md" "")
                   (filter (fun f => endsWith f ".md") files)), w')
    | (Failed _, w') => (Return [], w')
    end.

End ContextService.

(** A file system that accepts every call and holds no file, with [path.join]
    on plain segments. *)
Definition plain_disk : Disk unit :=
  {| path_join := fun dir file => (dir ++ "/" ++ file)%string;
     fs_writeFile := fun _ _ w => (Done tt, w);
     fs_readFile := fun _ w =>
       (Failed {| err_code := "ENOENT"; err_message := "no such file or directory" |}, w);
     fs_access := fun _ w =>
       (Failed {| err_code := "ENOENT"; err_message := "no such file or directory" |}, w);
     fs_readdir := fun _ w => (Done [], w) |}.

(* ================================================================== *)
(** * Properties *)
(* ================================================================== *)

(** ** Lists, slices and batches *)

Lemma len_nonneg {A} (xs : list A) : 0 <= len xs.
Proof. unfold len. lia. Qed.

Lemma len_app {A} (xs ys : list A) : len (xs ++ ys) = len xs + len ys.
Proof. unfold len. rewrite length_app. lia. Qed.

Lemma len_zero {A} (xs : list A) : (len xs =? 0) = true <-> xs = [].
Proof.
  unfold len. destruct xs; simpl; split; intro H; try reflexivity; discriminate.
Qed.

Lemma len_skipn {A} (xs : list A) (k : nat) :
  len (skipn k xs) = Z.max (len xs - Z.of_nat k) 0.
Proof. unfold len. rewrite length_skipn. lia. Qed.

(** Inside the array and with a positive width, [slice] is the plain window. *)
Lemma slice_window {A} (xs : list A) (i n : Z) :
  0 <= i -> 0 < n ->
  slice xs i (i + n) = firstn (Z.to_nat n) (skipn (Z.to_nat i) xs).
Proof.
  intros Hi Hn. unfold slice.
  destruct (i <? 0) eqn:E1; [apply Z.ltb_lt in E1; lia|].
  destruct (i + n <? 0) eqn:E2; [apply Z.ltb_lt in E2; lia|].
  set (L := Z.of_nat (length xs)).
  destruct (Z_le_gt_dec L i) as [Hout|Hin].
  - (* the window starts at or after the end *)
    rewrite (Z.min_r i L) by lia.
    rewrite (Z.min_r (i + n) L) by lia.
    replace (L - L) with 0 by lia. simpl.
    rewrite (skipn_all2 xs (n := Z.to_nat i)) by (subst L; lia).
    now rewrite firstn_nil.
  - rewrite (Z.min_l i L) by lia.
    destruct (Z_le_gt_dec (i + n) L) as [Hfit|Hcut].
    + rewrite (Z.min_l (i + n) L) by lia. f_equal. lia.
    + rewrite (Z.min_r (i + n) L) by lia.
      rewrite !firstn_all2; try reflexivity; rewrite length_skipn; subst L; lia.
Qed.

Lemma skipn_skipn_add {A} (xs : list A) (a b : nat) :
  skipn a (skipn b xs) = skipn (b + a) xs.
Proof.
  revert xs. induction b as [|b IH]; intros xs; simpl; [reflexivity|].
  destruct xs; [now rewrite !skipn_nil | apply IH].
Qed.

Lemma batches_upto_concat {A} (n : nat) :
  (0 < n)%nat -> forall fuel (xs : list A),
  (length xs <= fuel)%nat -> concat (batches_upto fuel n xs) = xs.
Proof.
  intros Hn. induction fuel as [|fuel IH]; intros xs Hlen.
  - destruct xs; [reflexivity | simpl in Hlen; lia].
  - destruct xs as [|x xs]; [reflexivity|].
    cbn [batches_upto concat].
    rewrite IH.
    + apply firstn_skipn.
    + rewrite length_skipn.
      change (length (x :: xs)) with (Datatypes.S (length xs)) in *. lia.
Qed.

Lemma batches_upto_sizes {A} (n : nat) :
  (0 < n)%nat -> forall fuel (xs : list A),
  Forall (fun b => (0 < length b <= n)%nat) (batches_upto fuel n xs).
Proof.
  intros Hn. induction fuel as [|fuel IH]; intros xs; [constructor|].
  destruct xs as [|x xs]; [constructor|].
  cbn [batches_upto]. constructor; [|apply IH].
  rewrite length_firstn.
  change (length (x :: xs)) with (Datatypes.S (length xs)). lia.
Qed.

(** Every batch but the last is full. *)
Lemma batches_upto_full {A} (n : nat) :
  forall fuel (xs : list A) front b back,
  batches_upto fuel n xs = front ++ b :: back -> back <> [] ->
  Forall (fun c => length c = n) (front ++ [b]).
Proof.
  induction fuel as [|fuel IH]; intros xs front b back E Hback.
  - destruct front; discriminate.
  - destruct xs as [|x xs]; [destruct front; discriminate|].
    cbn [batches_upto] in E.
    destruct front as [|f front]; simpl in E; injection E as E1 E2.
    + constructor; [|constructor].
      subst b. rewrite length_firstn.
      destruct (Nat.le_gt_cases n (length (x :: xs))) as [Hle|Hgt]; [lia|].
      exfalso. rewrite skipn_all2 in E2 by lia.
      destruct fuel; simpl in E2; congruence.
    + simpl. constructor.
      * subst f. rewrite length_firstn.
        destruct (Nat.le_gt_cases n (length (x :: xs))) as [Hle|Hgt]; [lia|].
        exfalso. rewrite skipn_all2 in E2 by lia.
        destruct fuel; simpl in E2; destruct front; discriminate.
      * eapply IH; eauto.
Qed.

Lemma sum_lengths_concat {A} (bs : list (list A)) :
  fold_right (fun b n => len b + n) 0 bs = len (concat bs).
Proof.
  induction bs as [|b bs IH]; simpl; [reflexivity|].
  rewrite len_app. lia.
Qed.

(** ** The combinators *)

Lemma native_run {S A} (c : native_call) (f : S -> result A * S) (w : world S) :
  native c f w =
  (settle (fst (f (st w))),
   {| st := snd (f (st w)); journal := journal w ++ [(c, is_ok (fst (f (st w))))] |}).
Proof. unfold native. now destruct (f (st w)). Qed.

Lemma bind_return {W A B} (m : St W A) (k : A -> St W B) w a w' :
  m w = (Return a, w') -> bind m k w = k a w'.
Proof. unfold bind. now intros ->. Qed.

Lemma bind_throw {W A B} (m : St W A) (k : A -> St W B) w e w' :
  m w = (Throw e, w') -> bind m k w = (Throw e, w').
Proof. unfold bind. now intros ->. Qed.

Lemma bind_hang {W A B} (m : St W A) (k : A -> St W B) w w' :
  m w = (Hang, w') -> bind m k w = (Hang, w').
Proof. unfold bind. now intros ->. Qed.

(** Splitting on the outcome of the operation that runs first. *)
Ltac run_first m w :=
  let a := fresh "a" in
  let e := fresh "e" in
  let w' := fresh "w" in
  let E := fresh "E" in
  destruct (m w) as [[a|e|] w'] eqn:E.

(** *** Operations that settle *)

Section Settles.

Context {W : Type}.

Lemma settles_ret {A} (a : A) : settles (ret (W := W) a).
Proof. intros w. discriminate. Qed.

Lemma settles_throw {A} e : settles (throw (W := W) (A := A) e).
Proof. intros w. discriminate. Qed.

Lemma settles_of_result {A} (r : result A) : settles (of_result (W := W) r).
Proof. intros w. destruct r; discriminate. Qed.

Lemma settles_bind {A B} (m : St W A) (k : A -> St W B) :
  settles m -> (forall a, settles (k a)) -> settles (bind m k).
Proof.
  intros Hm Hk w. unfold bind. specialize (Hm w).
  run_first m w; simpl in *; try discriminate; [apply Hk | congruence].
Qed.

Lemma settles_try_catch {A} (m : St W A) (h : string -> St W A) :
  settles m -> (forall e, settles (h e)) -> settles (try_catch m h).
Proof.
  intros Hm Hh w. unfold try_catch. specialize (Hm w).
  run_first m w; simpl in *; try discriminate; [apply Hh | congruence].
Qed.

Lemma settles_try_finally {A} (m : St W A) (f : St W unit) :
  settles m -> settles f -> settles (try_finally m f).
Proof.
  intros Hm Hf w. unfold try_finally. specialize (Hm w).
  run_first m w; simpl in *; try congruence;
    specialize (Hf w0); run_first f w0; simpl in *; congruence.
Qed.

End Settles.

Lemma settles_native {S A} (c : native_call) (f : S -> result A * S) :
  settles (native c f).
Proof. intros w. rewrite native_run. simpl. destruct (fst (f (st w))); discriminate. Qed.

Lemma settles_peek {S A} (f : S -> A) : settles (peek f).
Proof. intros w. discriminate. Qed.

(** Structural proof of a property of an operation: peel the combinators
    with [step], split on whatever data the operation branches on. *)
Ltac branch :=
  match goal with
  | |- ?P ?m =>
      lazymatch m with
      | match ?x with _ => _ end => destruct x
      end
  end.

Ltac structurally step :=
  repeat first [ progress intros | progress cbv zeta | step | branch ].

Ltac settle_step :=
  first [ apply settles_ret | apply settles_throw | apply settles_of_result
        | apply settles_native | apply settles_peek
        | apply settles_bind | apply settles_try_catch | apply settles_try_finally ].

Section SettlesService.

Variable S : Type.
Variable drv : Driver S.

Lemma settles_executeQuery c sql maxRows : settles (executeQuery drv c sql maxRows).
Proof.
  unfold executeQuery, executeOracleQuery, executePostgresQuery, executeMySqlQuery,
    executeSqlServerQuery, executeSqliteQuery, unsupported, pool_getConnection,
    connection_execute, connection_close, pgQuery, mysqlQuery, requestQuery, prepare, all.
  structurally settle_step.
Qed.

Lemma settles_describeTable c tableName : settles (describeTable drv c tableName).
Proof.
  unfold describeTable, describeOracleTable, describePostgresTable, describeMySqlTable,
    describeSqlServerTable, describeSqliteTable, collect_rows, rows_of, unsupported,
    pool_getConnection, connection_execute, connection_close, pgQuery, mysqlQuery,
    requestQuery, prepare, all.
  structurally settle_step.
Qed.

Lemma settles_listPrimaryKeys c tableName : settles (listPrimaryKeys drv c tableName).
Proof.
  unfold listPrimaryKeys, listOraclePrimaryKeys, listPostgresPrimaryKeys,
    listMySqlPrimaryKeys, listSqlServerPrimaryKeys, listSqlitePrimaryKeys, collect_rows,
    rows_of, unsupported, pool_getConnection, connection_execute, connection_close,
    pgQuery, mysqlQuery, requestQuery, prepare, all.
  structurally settle_step.
Qed.

Lemma settles_listTables c : settles (listTables drv c).
Proof.
  unfold listTables, listOracleTables, listPostgresTables, listMySqlTables,
    listSqlServerTables, listSqliteTables, collect_rows, rows_of, unsupported,
    pool_getConnection, connection_execute, connection_close, pgQuery, mysqlQuery,
    requestQuery, prepare, all.
  structurally settle_step.
Qed.

Lemma settles_insertMany p sql cols data :
  forall count, settles (insertMany drv p sql cols data count).
Proof.
  induction data as [|r data IH]; intros count; simpl.
  - apply settles_ret.
  - apply settles_bind; [apply settles_native | intros _; apply IH].
Qed.

Lemma settles_insertBatch c tableName rows : settles (insertBatch drv c tableName rows).
Proof.
  unfold insertBatch, transaction, unsupported, pool_getConnection,
    connection_executeMany, connection_close, pgQuery, mysqlQuery, prepare, exec.
  structurally ltac:(first [ apply settles_insertMany | settle_step ]).
Qed.

End SettlesService.

(** ** [insertBatch] on an empty batch (C9) *)

(** C9.  For every vendor, every handle and every table name,
    [insertBatch(tableName, [])] returns 0 at once and leaves the world as it
    was: the state behind the drivers is untouched and the journal has not
    grown, so no statement was built or executed and no connection was
    leased. *)
Theorem insertBatch_empty :
  forall S (drv : Driver S) (c : DatabaseConnection) (tableName : value) (w : world S),
    insertBatch drv c tableName [] w = (Return 0, w)
    /\ since w (snd (insertBatch drv c tableName [] w)) = []
    /\ statements (since w (snd (insertBatch drv c tableName [] w))) = []
    /\ open_leases (since w (snd (insertBatch drv c tableName [] w))) = 0.
Proof.
  intros S drv c tableName w.
  assert (Hnone : since w (snd (insertBatch drv c tableName [] w)) = []).
  { cbn [insertBatch ret snd]. unfold since. apply skipn_all. }
  split; [reflexivity|]. rewrite Hnone. repeat split.
Qed.

(** ** The batch loop of [migrateTable] (C1) *)

Lemma bind_ext {W A B} (m : St W A) (k k' : A -> St W B) w :
  (forall a w', k a w' = k' a w') -> bind m k w = bind m k' w.
Proof. intros H. unfold bind. run_first m w; auto. Qed.

Lemma bind_assoc {W A B C} (m : St W A) (k : A -> St W B) (h : B -> St W C) w :
  bind (bind m k) h w = bind m (fun a => bind (k a) h) w.
Proof. unfold bind. run_first m w; auto. Qed.

Lemma batches_upto_enough {A} (n : nat) :
  (0 < n)%nat -> forall f1 f2 (xs : list A),
  (length xs <= f1)%nat -> (length xs <= f2)%nat ->
  batches_upto f1 n xs = batches_upto f2 n xs.
Proof.
  intros Hn. induction f1 as [|f1 IH]; intros f2 xs H1 H2.
  - destruct xs; [now destruct f2 | simpl in H1; lia].
  - destruct xs as [|x xs]; [now destruct f2|].
    destruct f2 as [|f2]; [simpl in H2; lia|].
    cbn [batches_upto]. f_equal.
    apply IH; rewrite length_skipn;
      change (length (x :: xs)) with (Datatypes.S (length xs)) in *; lia.
Qed.

Section BatchLoop.

Variable S : Type.
Variable drv : Driver S.
Variable target : DatabaseConnection.

(** With a positive batch size and a unit of fuel per remaining row, the
    loop is one [insertBatch] per consecutive batch of the remaining rows, and
    it adds their number to [totalInserted]. *)
Lemma insert_batches_fuel (targetName : value) (rows : list row) (batchSize : Z) :
  0 < batchSize ->
  forall fuel i totalInserted w,
    0 <= i -> len rows - i <= Z.of_nat fuel ->
    insert_batches drv target fuel targetName rows batchSize i totalInserted w =
    (for_each (insertBatch drv target targetName)
       (batches_upto fuel (Z.to_nat batchSize) (skipn (Z.to_nat i) rows)) ;;;
     ret (totalInserted + len (skipn (Z.to_nat i) rows))) w.
Proof.
  intros Hbs. induction fuel as [|fuel IH]; intros i total w Hi Hfuel.
  - cbn [insert_batches batches_upto for_each].
    destruct (i <? len rows) eqn:E; [apply Z.ltb_lt in E; lia|].
    apply Z.ltb_ge in E.
    rewrite len_skipn. unfold bind, ret. f_equal. f_equal. lia.
  - cbn [insert_batches].
    destruct (i <? len rows) eqn:E.
    + apply Z.ltb_lt in E.
      destruct (skipn (Z.to_nat i) rows) as [|x xs] eqn:Erest.
      { exfalso. assert (H := len_skipn rows (Z.to_nat i)).
        rewrite Erest in H. unfold len in *. simpl in H. lia. }
      cbn [batches_upto for_each]. rewrite <- Erest.
      rewrite bind_assoc. rewrite slice_window by lia.
      apply bind_ext. intros _ w'.
      rewrite IH by lia.
      replace (Z.to_nat (i + batchSize)) with (Z.to_nat i + Z.to_nat batchSize)%nat by lia.
      rewrite <- skipn_skipn_add.
      apply bind_ext. intros _ w''. unfold ret. f_equal. f_equal.
      rewrite <- (firstn_skipn (Z.to_nat batchSize) (skipn (Z.to_nat i) rows)) at 3.
      rewrite len_app. lia.
    + apply Z.ltb_ge in E.
      rewrite (skipn_all2 rows (n := Z.to_nat i)) by (unfold len in E; lia).
      cbn [batches_upto for_each]. unfold bind, ret. f_equal. f_equal.
      unfold len. simpl. lia.
Qed.

(** More fuel than that changes nothing. *)
Lemma insert_batches_enough (targetName : value) (rows : list row) (batchSize : Z) :
  0 < batchSize ->
  forall fuel fuel' i totalInserted w,
    0 <= i -> len rows - i <= Z.of_nat fuel -> len rows - i <= Z.of_nat fuel' ->
    insert_batches drv target fuel targetName rows batchSize i totalInserted w =
    insert_batches drv target fuel' targetName rows batchSize i totalInserted w.
Proof.
  intros Hbs fuel fuel' i total w Hi Hfuel Hfuel'.
  rewrite !insert_batches_fuel by assumption.
  rewrite (@batches_upto_enough _ (Z.to_nat batchSize) ltac:(lia) fuel fuel'); [reflexivity| |];
    rewrite length_skipn; unfold len in *; lia.
Qed.

(** With any other batch size the index never reaches the end of the rows:
    whatever the fuel, the loop does not return. *)
Lemma insert_batches_never_returns (targetName : value) (rows : list row) (batchSize : Z) :
  batchSize <= 0 ->
  forall fuel i totalInserted w n,
    i < len rows ->
    fst (insert_batches drv target fuel targetName rows batchSize i totalInserted w)
    <> Return n.
Proof.
  intros Hbs. induction fuel as [|fuel IH]; intros i total w n Hi;
    cbn [insert_batches]; apply Z.ltb_lt in Hi as E; rewrite E.
  - discriminate.
  - unfold bind.
    run_first (insertBatch drv target targetName (slice rows i (i + batchSize))) w;
      try discriminate.
    apply IH. lia.
Qed.

Lemma settles_for_each {A B} (f : A -> M S B) (xs : list A) :
  (forall x, settles (f x)) -> settles (for_each f xs).
Proof.
  intros Hf. induction xs as [|x xs IH]; simpl.
  - apply settles_ret.
  - apply settles_bind; auto.
Qed.

Lemma settles_insert_batches targetName rows batchSize :
  0 < batchSize ->
  settles (insert_batches drv target (length rows) targetName rows batchSize 0 0).
Proof.
  intros Hbs w.
  rewrite insert_batches_fuel by (unfold len; lia).
  apply settles_bind; [|intros; apply settles_ret].
  apply settles_for_each. intros x. apply settles_insertBatch.
Qed.

End BatchLoop.

Section MigrateTable.

Variable S : Type.
Variable drv : Driver S.
Variable source target : DatabaseConnection.

Lemma settles_migrateTable tableName targetTableName batchSize :
  0 < batchSize ->
  settles (migrateTable drv source target tableName targetTableName batchSize).
Proof.
  intros Hbs. unfold migrateTable, Date_now.
  repeat first [ progress intros | progress cbv zeta
               | apply settles_describeTable | apply settles_executeQuery
               | apply settles_insert_batches; assumption
               | settle_step | branch ].
Qed.

End MigrateTable.

(** The loop of the code against the batches of the specification. *)
Lemma migrateTable_as_batches
  S (drv : Driver S) (source target : DatabaseConnection)
  (tableName targetTableName : value) (batchSize : Z) :
  0 < batchSize ->
  forall w,
    migrateTable drv source target tableName targetTableName batchSize w =
    migrateTable_summing_sizes drv source target tableName targetTableName batchSize w.
Proof.
  intros Hbs w. unfold migrateTable, migrateTable_summing_sizes, migrateTable_by.
  apply bind_ext. intros start w0.
  apply bind_ext. intros columns w1.
  apply bind_ext. intros result w2.
  destruct (rows result) as [|r rs] eqn:Erows; [reflexivity|].
  change (len (r :: rs) =? 0) with false. cbv iota.
  rewrite bind_assoc.
  unfold bind at 1.
  rewrite insert_batches_fuel by (unfold len; lia).
  unfold batches. cbn [Z.to_nat skipn].
  unfold bind at 1 3.
  destruct (for_each _ _ w2) as [[[]|e|] w3]; try reflexivity.
  unfold ret at 1 3. cbv beta iota.
  rewrite sum_lengths_concat, batches_upto_concat by lia. reflexivity.
Qed.

Lemma batches_facts {A} (batchSize : Z) (rows : list A) :
  0 < batchSize ->
  let slices := batches (Z.to_nat batchSize) rows in
  concat slices = rows
  /\ Forall (fun b => 0 < len b <= batchSize) slices
  /\ (forall front b back, slices = front ++ b :: back -> back <> [] ->
         Forall (fun c => len c = batchSize) (front ++ [b]))
  /\ fold_right (fun b n => len b + n) 0 slices = len rows.
Proof.
  intros Hbs slices. subst slices. unfold batches.
  assert (Hn : (0 < Z.to_nat batchSize)%nat) by lia.
  repeat split.
  - now apply batches_upto_concat.
  - eapply Forall_impl; [|apply (batches_upto_sizes Hn)].
    intros b Hb. cbv beta in Hb. unfold len. lia.
  - intros front b back E Hback.
    eapply Forall_impl; [|eapply batches_upto_full; eauto].
    intros c Hc. cbv beta in Hc. unfold len. lia.
  - rewrite sum_lengths_concat. now rewrite batches_upto_concat.
Qed.

(** C1, as the code has it.  For a positive [batchSize], [migrateTable]
    describes the source table, fetches its rows and, when there are none,
    returns at once with zero copied and without any [insertBatch] call;
    otherwise it calls [insertBatch] on the target once per consecutive batch
    of [batchSize] rows, in order, and the [rows] value it returns is the sum
    of the sizes of those batches, that is the number of fetched rows.  The
    batches are non-empty, hold at most [batchSize] rows, are full except
    possibly the last, and concatenate to the fetched rows. *)
Theorem migrateTable_batchwise :
  forall S (drv : Driver S) (source target : DatabaseConnection)
         (tableName targetTableName : value) (batchSize : Z),
    0 < batchSize ->
    (forall w,
        migrateTable drv source target tableName targetTableName batchSize w =
        migrateTable_summing_sizes drv source target tableName targetTableName batchSize w)
    /\ (forall rows : list row,
           let slices := batches (Z.to_nat batchSize) rows in
           concat slices = rows
           /\ Forall (fun b => 0 < len b <= batchSize) slices
           /\ (forall front b back, slices = front ++ b :: back -> back <> [] ->
                  Forall (fun c => len c = batchSize) (front ++ [b]))
           /\ fold_right (fun b n => len b + n) 0 slices = len rows).
Proof.
  intros S drv source target tableName targetTableName batchSize Hbs. split.
  - now apply migrateTable_as_batches.
  - intros rows. now apply batches_facts.
Qed.

(** C1, as stated, fails: with an embedded source holding three rows and a
    target of the event-driven vendor, for which [insertBatch] has no
    strategy and returns 0, [migrateTable] reports three rows copied while the
    counts returned by its [insertBatch] calls add up to zero. *)
Lemma migrateTable_ignores_inserted_counts :
  fst (migrateTable small lite_source mssql_target (VStr "t") VUndefined 2 fresh)
  = Return {| copied := 3; elapsed := 0 |}
  /\ fst (migrateTable_summing_inserted small lite_source mssql_target
            (VStr "t") VUndefined 2 fresh)
     = Return {| copied := 0; elapsed := 0 |}.
Proof. split; reflexivity. Qed.

Lemma migrateTable_batchwise_witness :
  0 < 2
  /\ migrateTable small lite_source ora_target (VStr "t") VUndefined 2 fresh
     = migrateTable_summing_sizes small lite_source ora_target (VStr "t") VUndefined 2 fresh.
Proof.
  split; [reflexivity|].
  apply (proj1 (@migrateTable_batchwise unit small lite_source ora_target
                  (VStr "t") VUndefined 2 eq_refl)).
Defined.

(** ** The journal of an operation *)

Lemma open_leases_app a b : open_leases (a ++ b) = open_leases a + open_leases b.
Proof. induction a as [|e a IH]; simpl; [reflexivity | rewrite IH; lia]. Qed.

#[local] Instance Additive_Forall (P : native_call * bool -> Prop) : Additive (Forall P).
Proof. split; [constructor | intros a b Ha Hb; apply Forall_app; now split]. Qed.

#[local] Instance Additive_leases : Additive (fun added => open_leases added = 0).
Proof. split; [reflexivity | intros a b Ha Hb; rewrite open_leases_app; lia]. Qed.

Section Emits.

Context {S : Type} (Q : list (native_call * bool) -> Prop) `{Additive Q}.

Lemma emits_still {A} (m : M S A) :
  (forall w, snd (m w) = w) -> emits Q m.
Proof.
  intros Hm w. exists []. rewrite Hm, app_nil_r. split; [reflexivity | apply additive_nil].
Qed.

Lemma emits_ret {A} (a : A) : emits Q (ret (W := world S) a).
Proof. now apply emits_still. Qed.

Lemma emits_throw {A} e : emits Q (throw (W := world S) (A := A) e).
Proof. now apply emits_still. Qed.

Lemma emits_of_result {A} (r : result A) : emits Q (of_result (W := world S) r).
Proof. now apply emits_still. Qed.

Lemma emits_peek {A} (f : S -> A) : emits Q (peek f).
Proof. now apply emits_still. Qed.

Lemma emits_native {A} (c : native_call) (f : S -> result A * S) :
  (forall ok, Q [(c, ok)]) -> emits Q (native c f).
Proof. intros Hc w. rewrite native_run. eexists. split; [reflexivity | apply Hc]. Qed.

Lemma emits_then {A B} (m : M S A) (k : M S B) w :
  emits Q m -> emits Q k ->
  exists added, journal (snd (k (snd (m w)))) = journal w ++ added /\ Q added.
Proof.
  intros Hm Hk. destruct (Hm w) as (a1 & E1 & Q1).
  destruct (Hk (snd (m w))) as (a2 & E2 & Q2).
  exists (a1 ++ a2). rewrite E2, E1, app_assoc. split; [reflexivity|].
  now apply additive_app.
Qed.

Lemma emits_bind {A B} (m : M S A) (k : A -> M S B) :
  emits Q m -> (forall a, emits Q (k a)) -> emits Q (bind m k).
Proof.
  intros Hm Hk w. unfold bind.
  destruct (m w) as [[a|e|] w'] eqn:E; try (specialize (Hm w); now rewrite E in Hm).
  generalize (emits_then (k := k a) w Hm (Hk a)). now rewrite E.
Qed.

Lemma emits_try_catch {A} (m : M S A) (h : string -> M S A) :
  emits Q m -> (forall e, emits Q (h e)) -> emits Q (try_catch m h).
Proof.
  intros Hm Hh w. unfold try_catch.
  destruct (m w) as [[a|e|] w'] eqn:E; try (specialize (Hm w); now rewrite E in Hm).
  generalize (emits_then (k := h e) w Hm (Hh e)). now rewrite E.
Qed.

Lemma emits_try_finally {A} (m : M S A) (f : M S unit) :
  emits Q m -> emits Q f -> emits Q (try_finally m f).
Proof.
  intros Hm Hf w. unfold try_finally.
  destruct (m w) as [[a|e|] w'] eqn:E; try (specialize (Hm w); now rewrite E in Hm);
    generalize (emits_then (k := f) w Hm Hf); rewrite E; simpl;
    now destruct (f w') as [[[]|e'|] w''].
Qed.

End Emits.

Ltac emit_step :=
  first [ apply emits_ret | apply emits_throw | apply emits_of_result | apply emits_peek
        | apply emits_bind | apply emits_try_catch | apply emits_try_finally ];
  try typeclasses eauto.

(** ** Leased connections (C2) *)

Section Leases.

Variable S : Type.
Variable drv : Driver S.

(** The pattern of every pool-leasing operation but one: lease, then
    [try { body } finally { close }].  Whatever [body] does, the connection is
    given back. *)
Lemma releases_scoped {A} (p : pool_ref) (body : M S A) :
  settles body -> releases body ->
  releases (pool_getConnection drv p ;;; try_finally body (connection_close drv p)).
Proof.
  intros Hsettles Hbody w. unfold bind, pool_getConnection, connection_close.
  rewrite native_run.
  destruct (ora_getConnection drv p (st w)) as [[[]|e] s0]; simpl.
  2:{ eexists. split; [reflexivity|]. reflexivity. }
  unfold try_finally.
  match goal with |- context [body ?w0] => set (w1 := w0) end.
  destruct (Hbody w1) as (added & E & Hq). specialize (Hsettles w1).
  destruct (body w1) as [[a|e|] w2]; simpl in E, Hsettles; [| |congruence];
    rewrite native_run; simpl;
    exists ((ora_getConnection_call p, true) :: added
            ++ [(ora_close_call p, is_ok (fst (ora_close drv p (st w2))))]);
    (split;
     [ destruct (fst (ora_close drv p (st w2))) as [[]|]; simpl; rewrite E; subst w1;
       simpl; rewrite <- !app_assoc; reflexivity
     | change (1 + open_leases (added ++ [(ora_close_call p,
                 is_ok (fst (ora_close drv p (st w2))))]) = 0);
       rewrite open_leases_app, Hq; reflexivity ]).
Qed.

Ltac release_step :=
  first [ apply emits_native; intros []; reflexivity | emit_step ].

Ltac body_releases :=
  unfold releases, rows_of, connection_execute, connection_executeMany;
  structurally release_step.

Ltac body_settles :=
  unfold rows_of, connection_execute, connection_executeMany;
  structurally settle_step.

Lemma releases_executeOracleQuery p sql maxRows :
  releases (executeOracleQuery drv p sql maxRows).
Proof. apply releases_scoped; [body_settles | body_releases]. Qed.

Lemma releases_listOracleTables p schema : releases (listOracleTables drv p schema).
Proof. apply releases_scoped; [body_settles | body_releases]. Qed.

Lemma releases_describeOracleTable p tableName schema :
  releases (describeOracleTable drv p tableName schema).
Proof. apply releases_scoped; [body_settles | body_releases]. Qed.

Lemma releases_listOraclePrimaryKeys p tableName schema :
  releases (listOraclePrimaryKeys drv p tableName schema).
Proof. apply releases_scoped; [body_settles | body_releases]. Qed.

Lemma releases_listOracleForeignKeys p tableName schema :
  releases (listOracleForeignKeys drv p tableName schema).
Proof. apply releases_scoped; [body_settles | body_releases]. Qed.

Lemma releases_insertMany p sql cols data :
  forall count, releases (insertMany drv p sql cols data count).
Proof.
  induction data as [|r data IH]; intros count; simpl.
  - release_step.
  - release_step; [release_step | intros _; apply IH].
Qed.

Ltac service_releases :=
  unfold releases, collect_rows, rows_of, unsupported, transaction, pgQuery, mysqlQuery,
    requestQuery, prepare, all, get_one, run, exec;
  structurally ltac:(first [ apply releases_executeOracleQuery
                           | apply releases_listOracleTables
                           | apply releases_describeOracleTable
                           | apply releases_listOraclePrimaryKeys
                           | apply releases_insertMany
                           | apply releases_scoped; [body_settles | body_releases]
                           | release_step ]).

Lemma releases_executeQuery c sql maxRows : releases (executeQuery drv c sql maxRows).
Proof.
  unfold executeQuery, executePostgresQuery, executeMySqlQuery, executeSqlServerQuery,
    executeSqliteQuery.
  service_releases.
Qed.

Lemma releases_listTables c : releases (listTables drv c).
Proof.
  unfold listTables, listPostgresTables, listMySqlTables, listSqlServerTables,
    listSqliteTables.
  service_releases.
Qed.

Lemma releases_describeTable c tableName : releases (describeTable drv c tableName).
Proof.
  unfold describeTable, describePostgresTable, describeMySqlTable,
    describeSqlServerTable, describeSqliteTable.
  service_releases.
Qed.

Lemma releases_listPrimaryKeys c tableName : releases (listPrimaryKeys drv c tableName).
Proof.
  unfold listPrimaryKeys, listPostgresPrimaryKeys, listMySqlPrimaryKeys,
    listSqlServerPrimaryKeys, listSqlitePrimaryKeys.
  service_releases.
Qed.

Lemma releases_insertBatch c tableName rows : releases (insertBatch drv c tableName rows).
Proof. unfold insertBatch. service_releases. Qed.

Lemma since_app (w w' : world S) added :
  journal w' = journal w ++ added -> since w w' = added.
Proof.
  intros E. unfold since. rewrite E.
  rewrite skipn_app, skipn_all, Nat.sub_diag. reflexivity.
Qed.

(** [healthCheck] is the exception: it closes the connection on the
    success path only.  When the version query fails, the error is caught and
    turned into a degraded status, and the connection stays leased. *)
Lemma healthCheck_keeps_lease c w s0 e s1 :
  vendor_of c = oracle ->
  ora_getConnection drv (pool c) (st w) = (Ok tt, s0) ->
  ora_execute drv (pool c) oracle_version_sql [] no_options s0 = (Err e, s1) ->
  exists h w',
    healthCheck drv c w = (Return h, w')
    /\ status h = unhealthy
    /\ open_leases (since w w') = 1.
Proof.
  intros Hv Hget Hexec.
  unfold healthCheck, probe, try_catch, bind, pool_getConnection, connection_execute.
  rewrite Hv, native_run, Hget. simpl.
  rewrite native_run. simpl. rewrite Hexec. simpl.
  eexists. eexists. split; [reflexivity|]. split; [reflexivity|].
  erewrite since_app; [|simpl; rewrite <- app_assoc; reflexivity].
  reflexivity.
Qed.

End Leases.

(** C2, at the failing input.  A [healthCheck] on an Oracle handle whose
    account cannot read [v$version]: the connection is leased, the query
    fails, the status is degraded, and the journal ends without any call of
    [close]: one connection is still leased when the operation returns. *)
Theorem healthCheck_leaks_connection :
  healthCheck denied ora_target fresh =
  (Return {| status := unhealthy; hc_vendor := oracle; version := VStr "error";
             uptime := 0; activeConnections := 0; poolStats := None |},
   {| st := tt;
      journal := [ (ora_getConnection_call 2%nat, true);
                   (ora_execute_call 2%nat oracle_version_sql [] no_options, false) ] |})
  /\ open_leases (journal (snd (healthCheck denied ora_target fresh))) = 1.
Proof. split; reflexivity. Qed.

(** ** [healthCheck] (C3) *)

(** One awaited native call at the head of the goal: split on its answer. *)
Ltac run_native :=
  match goal with
  | |- context [native ?c ?f ?w] =>
      rewrite (native_run c f w); cbn [st journal];
      match goal with
      | |- context [f ?s] =>
          let r := fresh "r" in
          let e := fresh "e" in
          let s' := fresh "s" in
          let E := fresh "E" in
          destruct (f s) as [[r|e] s'] eqn:E; cbn [fst snd settle is_ok st journal]
      end
  end.

Ltac journal_grows :=
  cbn [snd journal]; rewrite <- ?app_assoc; cbn [app]; reflexivity.

Ltac some_failed :=
  left; unfold failed; repeat first [ now apply Exists_cons_hd | apply Exists_cons_tl ].

Section HealthCheck.

Variable S : Type.
Variable drv : Driver S.

Lemma probe_summary (c : DatabaseConnection) (w : world S) :
  exists added,
    journal (snd (probe drv c w)) = journal w ++ added
    /\ match fst (probe drv c w) with
       | Return _ => Forall succeeded added
       | Throw _ => Exists failed added \/ ~ version_row_delivered drv c w
       | Hang => False
       end.
Proof.
  unfold probe, version_row_delivered.
  destruct (vendor_of c);
    unfold bind, pool_getConnection, connection_execute, connection_close, pgQuery,
      mysqlQuery, prepare, get_one, rows_of, peek, ret, throw.
  - (* oracle *)
    run_native; [|eexists; split; [journal_grows | some_failed]].
    run_native; [|eexists; split; [journal_grows | some_failed]].
    destruct (ora_rows r0) as [rs|] eqn:Erows; cbn [fst snd].
    + run_native; eexists; (split; [journal_grows|]);
        [repeat constructor | some_failed].
    + eexists. split; [journal_grows|]. right. intros Hd.
      apply (Hd r0); [reflexivity | assumption].
  - (* postgresql *)
    run_native; [|eexists; split; [journal_grows | some_failed]].
    destruct (pg_rows r) as [|r0 rs] eqn:Erows; cbn [fst snd].
    + eexists. split; [journal_grows|]. right. intros Hd.
      apply (Hd r); [reflexivity | assumption].
    + eexists. split; [journal_grows | repeat constructor].
  - (* mysql *)
    run_native; [|eexists; split; [journal_grows | some_failed]].
    destruct r as [[|r0 rs] fs|n]; cbn [fst snd];
      eexists; (split; [journal_grows|]); try (repeat constructor; fail);
      right; intros Hd; destruct (Hd _ eq_refl) as (? & ? & ? & ?); discriminate.
  - (* mariadb *)
    run_native; [|eexists; split; [journal_grows | some_failed]].
    destruct r as [[|r0 rs] fs|n]; cbn [fst snd];
      eexists; (split; [journal_grows|]); try (repeat constructor; fail);
      right; intros Hd; destruct (Hd _ eq_refl) as (? & ? & ? & ?); discriminate.
  - (* sqlserver *)
    exists []. split; [now rewrite app_nil_r | constructor].
  - (* sqlite *)
    run_native; [|eexists; split; [journal_grows | some_failed]].
    run_native; [|eexists; split; [journal_grows | some_failed]].
    destruct r0 as [r0|]; cbn [fst snd]; eexists; (split; [journal_grows|]).
    + repeat constructor.
    + right. intros Hd. now apply (Hd None).
  - (* any other tag *)
    exists []. split; [now rewrite app_nil_r | constructor].
Qed.

End HealthCheck.

Section HealthCheckRow.

Variable S : Type.
Variable drv : Driver S.

Lemma probe_returns_row (c : DatabaseConnection) (w : world S) found :
  fst (probe drv c w) = Return found -> version_row_delivered drv c w.
Proof.
  unfold probe, version_row_delivered.
  destruct (vendor_of c);
    unfold bind, pool_getConnection, connection_execute, connection_close, pgQuery,
      mysqlQuery, prepare, get_one, rows_of, peek, ret, throw; try (intros; exact I).
  - run_native; [|discriminate].
    run_native; [|discriminate].
    destruct (ora_rows r0) as [rs|] eqn:Erows; cbn [fst snd]; [|discriminate].
    intros _ r' [= <-]. congruence.
  - run_native; [|discriminate].
    destruct (pg_rows r) as [|r0 rs] eqn:Erows; cbn [fst snd]; [discriminate|].
    intros _ r' [= <-]. congruence.
  - run_native; [|discriminate].
    destruct r as [[|r0 rs] fs|n]; cbn [fst snd]; try discriminate.
    intros _ reply [= <-]. eauto.
  - run_native; [|discriminate].
    destruct r as [[|r0 rs] fs|n]; cbn [fst snd]; try discriminate.
    intros _ reply [= <-]. eauto.
  - run_native; [|discriminate].
    run_native; [|discriminate].
    destruct r0 as [r0|]; cbn [fst snd]; [|discriminate].
    intros _ r' [= <-]. discriminate.
Qed.

End HealthCheckRow.
(** C3, as the code has it.  For every vendor tag and every handle,
    [healthCheck] returns a result and never throws.  The status is
    [unhealthy] exactly when something inside the probe failed; in particular
    it is [unhealthy] as soon as one native call fails, and also when the
    reply to the version query lacks the row the version is read from, even
    though every native call succeeded.  It is [healthy] when every native
    call succeeds and hands over that row. *)
Theorem healthCheck_never_throws :
  forall S (drv : Driver S) (c : DatabaseConnection) (w : world S),
  exists h w' added,
    healthCheck drv c w = (Return h, w')
    /\ journal w' = journal w ++ added
    /\ hc_vendor h = vendor_of c
    /\ (status h = healthy <-> exists found, fst (probe drv c w) = Return found)
    /\ (status h = unhealthy <-> exists message, fst (probe drv c w) = Throw message)
    /\ (Exists failed added -> status h = unhealthy)
    /\ (Forall succeeded added -> version_row_delivered drv c w -> status h = healthy)
    /\ (~ version_row_delivered drv c w -> status h = unhealthy).
Proof.
  intros S drv c w.
  destruct (probe_summary drv c w) as (added & Ej & Hsum).
  pose proof (@probe_returns_row S drv c w) as Hrow.
  unfold healthCheck, try_catch, bind.
  destruct (probe drv c w) as [[found|message|] w1] eqn:Ep; cbn [fst snd] in *;
    [| |contradiction]; unfold ret;
    do 2 eexists; exists added; (split; [reflexivity|]); cbn [status hc_vendor];
    (split; [exact Ej|]); (split; [reflexivity|]).
  - split; [split; eauto|]. split; [split; [discriminate | intros [? ?]; discriminate]|].
    split; [|split; [reflexivity|]].
    + intros Hex. exfalso. apply Exists_exists in Hex. destruct Hex as (e & Hin & He).
      rewrite Forall_forall in Hsum. specialize (Hsum e Hin).
      unfold succeeded, failed in *. congruence.
    + intros Hnd. exfalso. apply Hnd. now apply (Hrow found).
  - split; [split; [discriminate | intros [? ?]; discriminate]|].
    split; [split; eauto|]. split; [reflexivity|]. split; [|reflexivity].
    intros Hall Hd. exfalso. destruct Hsum as [Hex|Hnd]; [|now apply Hnd].
    apply Exists_exists in Hex. destruct Hex as (e & Hin & He).
    rewrite Forall_forall in Hall. specialize (Hall e Hin).
    unfold succeeded, failed in *. congruence.
Qed.

Lemma healthCheck_never_throws_witness :
  exists h added,
    healthCheck versioned pg_handle fresh = (Return h, {| st := tt; journal := added |})
    /\ Forall succeeded added
    /\ version_row_delivered versioned pg_handle fresh
    /\ status h = healthy.
Proof.
  assert (Hrow : version_row_delivered versioned pg_handle fresh).
  { intros r. vm_compute. intros [= <-]. discriminate. }
  destruct (healthCheck_never_throws versioned pg_handle fresh)
    as (h & w' & added & E & Ej & _ & _ & _ & _ & Hhealthy & _).
  assert (Ew : w' = snd (healthCheck versioned pg_handle fresh)) by now rewrite E.
  assert (Hall : Forall succeeded added).
  { rewrite Ew in Ej. vm_compute in Ej. rewrite <- Ej. repeat constructor. }
  exists h, added. split; [|split; [exact Hall | split; [exact Hrow | now apply Hhealthy]]].
  rewrite E. f_equal. destruct w' as [[] j]. cbn in Ej. now rewrite Ej.
Defined.

(** C3, as stated, fails.  A PostgreSQL server that answers the version
    query without a row: the one native call succeeds, reading [version] from
    the missing row raises a [TypeError] inside the [try], and the result is
    [unhealthy]. *)
Lemma healthCheck_unhealthy_without_failure :
  exists h added,
    healthCheck quiet pg_handle fresh = (Return h, {| st := tt; journal := added |})
    /\ added <> [] /\ Forall succeeded added
    /\ status h = unhealthy.
Proof.
  do 2 eexists. split; [reflexivity|]. split; [discriminate|].
  split; [repeat constructor | reflexivity].
Qed.

(** ** Error messages *)

Section Speaks.

Context {W : Type}.

Lemma speaks_ret {A} (a : A) : speaks (ret (W := W) a).
Proof. intros w e. discriminate. Qed.

Lemma speaks_throw {A} e : e <> ""%string -> speaks (throw (W := W) (A := A) e).
Proof. intros He w e' [= <-]. exact He. Qed.

Lemma speaks_of_result {A} (r : result A) : says r -> speaks (of_result (W := W) r).
Proof. intros Hr w e. destruct r; simpl; [discriminate | now intros [= <-]]. Qed.

Lemma speaks_bind {A B} (m : St W A) (k : A -> St W B) :
  speaks m -> (forall a, speaks (k a)) -> speaks (bind m k).
Proof.
  intros Hm Hk w e. unfold bind. specialize (Hm w).
  run_first m w; simpl in *; [apply Hk | intros [= <-]; now apply Hm | discriminate].
Qed.

(** Nothing thrown by the guarded block escapes a [catch]: only the handler
    matters. *)
Lemma speaks_try_catch {A} (m : St W A) (h : string -> St W A) :
  (forall e, speaks (h e)) -> speaks (try_catch m h).
Proof.
  intros Hh w e. unfold try_catch.
  run_first m w; simpl; [discriminate | apply Hh | discriminate].
Qed.

(** [catch (e) { throw e }] *)
Lemma speaks_rethrow {A} (m : St W A) :
  speaks m -> speaks (try_catch m (fun message => throw message)).
Proof.
  intros Hm w e. unfold try_catch, throw. specialize (Hm w).
  run_first m w; simpl in *; [discriminate | intros [= <-]; now apply Hm | discriminate].
Qed.

Lemma speaks_try_finally {A} (m : St W A) (f : St W unit) :
  speaks m -> speaks f -> speaks (try_finally m f).
Proof.
  intros Hm Hf w e. unfold try_finally. specialize (Hm w).
  run_first m w; simpl in *; try discriminate;
    specialize (Hf w0); run_first f w0; simpl in *; try discriminate;
    intros [= <-]; auto.
Qed.

End Speaks.

Lemma speaks_native {S A} (c : native_call) (f : S -> result A * S) :
  (forall s, says (fst (f s))) -> speaks (native c f).
Proof.
  intros Hf w e. rewrite native_run. simpl. specialize (Hf (st w)).
  destruct (fst (f (st w))); simpl in *; [discriminate | now intros [= <-]].
Qed.

Lemma speaks_peek {S A} (f : S -> A) : speaks (peek f).
Proof. intros w e. discriminate. Qed.

Ltac speak_step :=
  first [ apply speaks_ret | apply speaks_of_result | apply speaks_peek
        | apply speaks_throw; simpl; discriminate
        | apply speaks_bind | apply speaks_rethrow | apply speaks_try_catch
        | apply speaks_try_finally ].

Section SpeaksService.

Variable S : Type.
Variable drv : Driver S.
Hypothesis Hdrv : explains drv.

Ltac native_speaks :=
  apply speaks_native; intros;
  first [ apply (explains_getConnection Hdrv) | apply (explains_execute Hdrv)
        | apply (explains_executeMany Hdrv) | apply (explains_close Hdrv)
        | apply (explains_pg Hdrv) | apply (explains_mysql Hdrv)
        | apply (explains_mssql Hdrv) | apply (explains_prepare Hdrv)
        | apply (explains_all Hdrv) | apply (explains_get Hdrv)
        | apply (explains_run Hdrv) | apply (explains_exec Hdrv) ].

Lemma speaks_collect_rows {A} p sql (f : list (string * value) -> A) :
  speaks (collect_rows drv p sql f).
Proof.
  intros w e. unfold collect_rows, bind, requestQuery. rewrite native_run.
  destruct (mssql_query drv p sql (st w)) as [[[items []]|e'] s'] eqn:E; simpl.
  - discriminate.
  - intros [= <-]. eapply (explains_mssql_event Hdrv); eauto.
  - intros [= <-]. generalize (explains_mssql Hdrv p sql (st w)). now rewrite E.
Qed.

Lemma speaks_describeTable c tableName : speaks (describeTable drv c tableName).
Proof.
  unfold describeTable, describeOracleTable, describePostgresTable, describeMySqlTable,
    describeSqlServerTable, describeSqliteTable, rows_of, unsupported,
    pool_getConnection, connection_execute, connection_close, pgQuery, mysqlQuery,
    prepare, all.
  structurally ltac:(first [ apply speaks_collect_rows | native_speaks | speak_step ]).
Qed.

Lemma speaks_executeQuery c sql maxRows : speaks (executeQuery drv c sql maxRows).
Proof.
  unfold executeQuery. apply speaks_try_catch. intros e.
  apply speaks_throw. simpl. discriminate.
Qed.

Lemma speaks_insertMany p sql cols data :
  forall count, speaks (insertMany drv p sql cols data count).
Proof.
  induction data as [|r data IH]; intros count; simpl.
  - apply speaks_ret.
  - apply speaks_bind; [unfold run; native_speaks | intros _; apply IH].
Qed.

Lemma speaks_transaction {A} p (body : M S A) :
  speaks body -> speaks (transaction drv p body).
Proof.
  intros Hbody. unfold transaction, exec.
  apply speaks_bind; [native_speaks|]. intros _ w e. unfold try_catch.
  assert (Hin : speaks (r <- body ;;
                        native (sqlite_exec_call p "COMMIT") (sqlite_exec drv p "COMMIT") ;;;
                        ret r)).
  { structurally ltac:(first [ exact Hbody | native_speaks | speak_step ]). }
  specialize (Hin w). destruct (bind body _ w) as [[a|e'|] w'] eqn:E; simpl in *;
    try discriminate.
  unfold bind. rewrite native_run.
  generalize (explains_exec Hdrv p "ROLLBACK" (st w')).
  destruct (sqlite_exec drv p "ROLLBACK" (st w')) as [[[]|e''] s'']; simpl;
    intros Hs [= <-]; auto.
Qed.

Lemma speaks_insertBatch c tableName rows : speaks (insertBatch drv c tableName rows).
Proof.
  unfold insertBatch, unsupported, pool_getConnection, connection_executeMany,
    connection_close, pgQuery, mysqlQuery, prepare.
  structurally ltac:(first [ apply speaks_transaction; apply speaks_insertMany
                           | native_speaks | speak_step ]).
Qed.

Lemma speaks_for_each {A B} (f : A -> M S B) (xs : list A) :
  (forall x, speaks (f x)) -> speaks (for_each f xs).
Proof.
  intros Hf. induction xs as [|x xs IH]; simpl.
  - apply speaks_ret.
  - apply speaks_bind; auto.
Qed.

Lemma speaks_migrateTable source target tableName targetTableName batchSize :
  0 < batchSize ->
  speaks (migrateTable drv source target tableName targetTableName batchSize).
Proof.
  intros Hbs.
  assert (H : speaks (migrateTable_summing_sizes drv source target tableName
                        targetTableName batchSize)).
  { unfold migrateTable_summing_sizes, migrateTable_by, Date_now.
    structurally ltac:(first [ apply speaks_describeTable | apply speaks_executeQuery
                             | apply speaks_for_each; intros; apply speaks_insertBatch
                             | speak_step ]). }
  intros w e.
  rewrite (migrateTable_as_batches drv source target tableName targetTableName Hbs w).
  apply H.
Qed.

End SpeaksService.

(** ** [migrateData] (C4) *)

Section MigrateData.

Variable S : Type.
Variable drv : Driver S.
Variable source target : DatabaseConnection.

Lemma migrate_one_entry table w :
  fst (migrateTable drv source target (VStr table) VUndefined default_batchSize w) <> Hang ->
  migrate_one drv source target table w =
  (Return (entry_for
             (table,
              fst (migrateTable drv source target (VStr table) VUndefined
                     default_batchSize w))),
   snd (migrateTable drv source target (VStr table) VUndefined default_batchSize w)).
Proof.
  unfold migrate_one, try_catch, bind.
  destruct (migrateTable drv source target (VStr table) VUndefined default_batchSize w)
    as [[res|message|] w']; simpl; intros H; [reflexivity | reflexivity | congruence].
Qed.

Lemma migrate_each_attempts tables :
  forall results w,
  exists w',
    migrate_each drv source target tables results w =
    (Return (results ++ map entry_for (attempts drv source target tables w)), w').
Proof.
  induction tables as [|table rest IH]; intros results w.
  - exists w. simpl. now rewrite app_nil_r.
  - cbn [migrate_each attempts]. unfold bind.
    rewrite migrate_one_entry by (apply settles_migrateTable; reflexivity).
    destruct (migrateTable drv source target (VStr table) VUndefined default_batchSize w)
      as [r w1].
    cbn [fst snd map].
    destruct (IH (results ++ [entry_for (table, r)]) w1) as (w' & E).
    exists w'. rewrite E. now rewrite <- app_assoc.
Qed.

Lemma attempts_tables tables : forall w,
  map fst (attempts drv source target tables w) = tables.
Proof.
  induction tables as [|table rest IH]; intros w; [reflexivity|].
  cbn [attempts].
  destruct (migrateTable drv source target (VStr table) VUndefined default_batchSize w).
  simpl. now rewrite IH.
Qed.

Lemma attempts_settle tables : forall w,
  Forall (fun a => snd a <> Hang) (attempts drv source target tables w).
Proof.
  induction tables as [|table rest IH]; intros w; [constructor|].
  cbn [attempts].
  pose proof (@settles_migrateTable S drv source target (VStr table) VUndefined
                default_batchSize eq_refl w) as Hs.
  destruct (migrateTable drv source target (VStr table) VUndefined default_batchSize w).
  constructor; [exact Hs | apply IH].
Qed.

Lemma attempts_speak tables :
  explains drv ->
  forall w, Forall (fun a => forall message, snd a = Throw message -> message <> ""%string)
              (attempts drv source target tables w).
Proof.
  intros Hdrv. induction tables as [|table rest IH]; intros w; [constructor|].
  cbn [attempts].
  pose proof (@speaks_migrateTable S drv Hdrv source target (VStr table) VUndefined
                default_batchSize eq_refl w) as Hs.
  destruct (migrateTable drv source target (VStr table) VUndefined default_batchSize w).
  constructor; [exact Hs | apply IH].
Qed.

End MigrateData.

(** C4, as the code has it.  For every list of requested tables,
    [migrateData] returns (it neither throws nor hangs) a report with exactly
    one entry per requested table, in the order requested.  Every table is
    attempted, in order and in the world the previous attempt left, whatever
    happened to the tables before it.  The entry of a table whose copy
    returns has status [success] and its row count; the entry of a table
    whose copy throws has status [error] and the message of the error thrown,
    as it is: that message is not empty when the errors of the drivers are
    not. *)
Theorem migrateData_report :
  forall S (drv : Driver S) (source target : DatabaseConnection)
         (tables : list string) (truncateTarget : bool) (w : world S),
  exists report w',
    migrateData drv source target tables truncateTarget w = (Return report, w')
    /\ report = map entry_for (attempts drv source target tables w)
    /\ map fst (attempts drv source target tables w) = tables
    /\ map entry_table report = tables
    /\ length report = length tables
    /\ Forall (fun a => snd a <> Hang) (attempts drv source target tables w)
    /\ Forall (fun e =>
                 (entry_state e = success
                  /\ (exists n, entry_rows e = Some n) /\ entry_error e = None)
                 \/ (entry_state e = error /\ exists message, entry_error e = Some message))
         report
    /\ (explains drv ->
        Forall (fun e => entry_state e = error ->
                         exists message, entry_error e = Some message
                                         /\ message <> ""%string) report).
Proof.
  intros S drv source target tables truncateTarget w.
  destruct (migrate_each_attempts drv source target tables [] w) as (w' & E).
  pose proof (attempts_tables drv source target tables w) as Ht.
  pose proof (attempts_settle drv source target tables w) as Hs.
  exists (map entry_for (attempts drv source target tables w)), w'.
  assert (Hnames : map entry_table (map entry_for (attempts drv source target tables w))
                   = tables).
  { rewrite <- Ht at 2. rewrite map_map. apply map_ext.
    intros [t [res|message|]]; reflexivity. }
  split; [exact E|]. split; [reflexivity|]. split; [exact Ht|].
  split; [exact Hnames|]. split.
  { transitivity (length (map fst (attempts drv source target tables w)));
      [now rewrite !length_map | now rewrite Ht]. }
  split; [exact Hs|]. split.
  - apply Forall_map. eapply Forall_impl; [|exact Hs].
    intros [t [res|message|]] Ha; simpl in *; eauto 6. congruence.
  - intros Hdrv. apply Forall_map.
    pose proof (attempts_speak source target tables Hdrv w) as Hsp.
    rewrite Forall_forall in *. intros [t [res|message|]] Hin; simpl.
    + discriminate.
    + intros _. exists message. split; [reflexivity|]. now apply (Hsp _ Hin).
    + intros _. exfalso. now apply (Hs _ Hin).
Qed.

(** ** [replicate_database] (C5) *)

Section Replicate.

Variable S : Type.
Variable drv : Driver S.
Variable generateCreateTable : value -> list ColumnInfo -> list value -> result string.
Variable source target : DatabaseConnection.

Lemma settles_prepare_table name :
  settles (prepare_table drv generateCreateTable source name).
Proof.
  unfold prepare_table.
  structurally ltac:(first [ apply settles_describeTable | apply settles_listPrimaryKeys
                           | settle_step ]).
Qed.

(** The [try] block of one table with the [catch] around it, against the
    lines of the specification. *)
Lemma replicate_table_lines table w report :
  try_catch (replicate_table drv generateCreateTable source target table)
    (fun message => push (ErrorProcessing (tbl_name table) message)) (w, report) =
  (Return tt,
   (snd (table_lines drv generateCreateTable source target table w),
    report ++ fst (table_lines drv generateCreateTable source target table w))).
Proof.
  pose proof (settles_prepare_table (tbl_name table) w) as H1.
  unfold table_lines. unfold prepare_table in *.
  unfold replicate_table, try_catch, bind, push, lift, ret, of_result in *.
  cbn [fst snd] in *.
  destruct (describeTable drv source (tbl_name table) w) as [[columns|e|] w1];
    cbn [fst snd] in *; [| now rewrite <- app_assoc | congruence].
  destruct (listPrimaryKeys drv source (tbl_name table) w1) as [[pks|e|] w2];
    cbn [fst snd] in *; [| now rewrite <- app_assoc | congruence].
  destruct (generateCreateTable (tbl_name table) columns pks) as [ddl|e];
    cbn [fst snd settle] in *; [| now rewrite <- app_assoc].
  pose proof (settles_executeQuery drv target ddl default_maxRows w2) as H2.
  destruct (executeQuery drv target ddl default_maxRows w2) as [[created|e|] w3];
    cbn [fst snd] in *; [| |congruence].
  - pose proof (@settles_migrateTable S drv source target (tbl_name table) VUndefined
                  default_batchSize eq_refl w3) as H3.
    destruct (migrateTable drv source target (tbl_name table) VUndefined
                default_batchSize w3) as [[res|e|] w4];
      cbn [fst snd copy_line ddl_note] in *; [| |congruence];
      rewrite <- !app_assoc; reflexivity.
  - pose proof (@settles_migrateTable S drv source target (tbl_name table) VUndefined
                  default_batchSize eq_refl w3) as H3.
    destruct (migrateTable drv source target (tbl_name table) VUndefined
                default_batchSize w3) as [[res|e'|] w4];
      cbn [fst snd copy_line ddl_note] in *; [| |congruence];
      rewrite <- !app_assoc; reflexivity.
Qed.

Lemma replicate_each_lines tables : forall w report,
  replicate_each drv generateCreateTable source target tables (w, report) =
  (Return tt,
   (snd (report_lines drv generateCreateTable source target tables w),
    report ++ fst (report_lines drv generateCreateTable source target tables w))).
Proof.
  induction tables as [|table rest IH]; intros w report.
  - simpl. now rewrite app_nil_r.
  - cbn [replicate_each report_lines]. destruct (tbl_type table).
    + unfold bind at 1. rewrite replicate_table_lines.
      destruct (table_lines drv generateCreateTable source target table w) as [lines w1].
      cbn [fst snd]. rewrite IH.
      destruct (report_lines drv generateCreateTable source target rest w1) as [more w2].
      cbn [fst snd]. now rewrite app_assoc.
    + unfold bind at 1. unfold ret at 1. apply IH.
Qed.




End Replicate.

(** The whole handler: it answers with the rendered report of the tables
    listed for the source, and with an error reply when a handle is unknown or
    the listing fails; it never throws. *)
Lemma replicate_database_reply
  S (drv : Driver S)
  (generateCreateTable : value -> list ColumnInfo -> list value -> result string)
  (connections : list DatabaseConnection) (sourceId targetId : string)
  (source target : DatabaseConnection) (w : world S) :
  find (fun c => (id c =? sourceId)%string) connections = Some source ->
  find (fun c => (id c =? targetId)%string) connections = Some target ->
  match listTables drv source w with
  | (Return tables, w1) =>
      replicate_database drv generateCreateTable connections sourceId targetId w
      = (Return {| text := join newline
                             (map render
                                (fst (report_lines drv generateCreateTable source target
                                        tables w1)));
                   isError := false |},
         snd (report_lines drv generateCreateTable source target tables w1))
  | (Throw message, w1) =>
      replicate_database drv generateCreateTable connections sourceId targetId w
      = (Return {| text := ("Error: " ++ message)%string; isError := true |}, w1)
  | (Hang, _) => False
  end.
Proof.
  intros Hs Ht. pose proof (settles_listTables drv source w) as Hl.
  unfold replicate_database, getConnection, try_catch, bind. rewrite Hs, Ht.
  unfold ret. cbv beta iota.
  destruct (listTables drv source w) as [[tables|message|] w1]; cbn [fst] in Hl;
    [| reflexivity | congruence].
  unfold replicate_all. rewrite replicate_each_lines. reflexivity.
Qed.


(** ** The row cap of [executeQuery] (C6) *)


Section RowCap.

Variable S : Type.
Variable drv : Driver S.




End RowCap.




(** ** The statements at concrete inputs *)

Lemma scripted_explains ora pg my ms lite :
  (forall sql, says (ora sql)) -> (forall sql, says (pg sql)) ->
  (forall sql, says (my sql)) -> (forall sql, says (ms sql)) ->
  (forall sql items message, ms sql = Ok (items, ErrorEvent message) -> message <> ""%string) ->
  (forall sql, says (lite sql)) ->
  explains (scripted ora pg my ms lite).
Proof.
  intros Hora Hpg Hmy Hms Hev Hlite.
  constructor; intros; cbn; auto; try exact I.
  - cbn in H. injection H as H. eauto.
  - specialize (Hlite sql). destruct (lite sql) as [[|r rs]|e]; cbn in *; auto.
Qed.

Lemma two_explains : explains two.
Proof.
  apply scripted_explains; try (intros; exact I); try discriminate.
  intros sql. unfold two_tables.
  repeat (destruct (_ =? _)%string; [exact I|]). cbn. discriminate.
Qed.

Lemma migrateData_report_witness :
  explains two
  /\ exists report,
       fst (migrateData two lite_source lite_target ["A"; "B"]%string false fresh)
       = Return report
       /\ map entry_table report = ["A"; "B"]%string
       /\ Forall (fun e => entry_state e = error ->
                           exists message, entry_error e = Some message
                                           /\ message <> ""%string) report.
Proof.
  split; [exact two_explains|].
  destruct (migrateData_report two lite_source lite_target ["A"; "B"]%string false fresh)
    as (report & w' & E & _ & _ & Hnames & _ & _ & _ & Hmsg).
  exists report. rewrite E. split; [reflexivity|]. split; [exact Hnames|].
  exact (Hmsg two_explains).
Defined.

(** C4, as stated, fails.  With a driver whose errors carry no text the copy
    of each table throws, and its entry has status [error] and the empty
    message. *)
Lemma migrateData_empty_message :
  exists report w',
    migrateData mute lite_source lite_target ["A"; "B"]%string false fresh
    = (Return report, w')
    /\ map entry_table report = ["A"; "B"]%string
    /\ map entry_state report = [error; error]
    /\ map entry_error report = [Some ""%string; Some ""%string].
Proof. do 2 eexists. split; [vm_compute; reflexivity|]. repeat split. Qed.


(** ** The bindings of [insertBatch] (C10) *)

Lemma numbered_cells (r : row) cols : forall i ps vs,
  snd (fold_left
         (fun (a : Z * list string * list value) col =>
            let '(i, ps, vs) := a in
            (i + 1, ps ++ [("$" ++ string_of_Z i)%string], vs ++ [read r col]))
         cols (i, ps, vs))
  = vs ++ bind_row cols r.
Proof.
  induction cols as [|col cols IH]; intros i ps vs; cbn [fold_left bind_row map].
  - now rewrite app_nil_r.
  - rewrite IH. unfold bind_row. now rewrite <- app_assoc.
Qed.

Lemma numbered_values cols rows : forall i vs ps,
  snd (fst (fold_left (numbered_row cols) rows (i, vs, ps)))
  = vs ++ concat (map (bind_row cols) rows).
Proof.
  induction rows as [|r rows IH]; intros i vs ps; cbn [fold_left map concat].
  - now rewrite app_nil_r.
  - unfold numbered_row at 2.
    pose proof (numbered_cells r cols i [] vs) as Hc.
    destruct (fold_left _ cols (i, [], vs)) as [[i' rowParams] values'].
    cbn [snd] in Hc. subst values'. rewrite IH. now rewrite <- app_assoc.
Qed.

Lemma question_cells (r : row) cols : forall ps vs,
  snd (fold_left
         (fun (a : list string * list value) col =>
            let '(ps, vs) := a in (ps ++ ["?"%string], vs ++ [read r col]))
         cols (ps, vs))
  = vs ++ bind_row cols r.
Proof.
  induction cols as [|col cols IH]; intros ps vs; cbn [fold_left bind_row map].
  - now rewrite app_nil_r.
  - rewrite IH. unfold bind_row. now rewrite <- app_assoc.
Qed.

Lemma question_values cols rows : forall vs ps,
  fst (fold_left (question_row cols) rows (vs, ps))
  = vs ++ concat (map (bind_row cols) rows).
Proof.
  induction rows as [|r rows IH]; intros vs ps; cbn [fold_left map concat].
  - now rewrite app_nil_r.
  - unfold question_row at 2.
    pose proof (question_cells r cols [] vs) as Hc.
    destruct (fold_left _ cols ([], vs)) as [rowParams values'].
    cbn [snd] in Hc. subst values'. rewrite IH. now rewrite <- app_assoc.
Qed.

(** Writing a property leaves the other properties as they are. *)
Lemma find_set_other (r : row) k v k' :
  k' <> k ->
  find (fun kv => (fst kv =? k')%string) (set r k v)
  = find (fun kv => (fst kv =? k')%string) r.
Proof.
  intros Hk. induction r as [|[k0 v0] r IH]; cbn [set find fst snd].
  - destruct (String.eqb_spec k k'); [congruence | reflexivity].
  - destruct (String.eqb_spec k0 k) as [->|Hne]; cbn [find fst snd].
    + destruct (String.eqb_spec k k'); [congruence | reflexivity].
    + destruct (String.eqb_spec k0 k'); [reflexivity | exact IH].
Qed.

Lemma get_set_other (r : row) k v k' :
  k' <> k -> get (set r k v) k' = get r k'.
Proof. intros Hk. unfold get. now rewrite find_set_other. Qed.

Lemma read_set_other (r : row) k v k' :
  k' <> k -> read (set r k v) k' = read r k'.
Proof. intros Hk. unfold read. now rewrite find_set_other. Qed.

(** A name that is not a column of the first row never reaches a binding. *)
Lemma bind_row_ignores cols (r : row) k v :
  ~ In k cols -> bind_row cols (set r k v) = bind_row cols r.
Proof.
  intros Hk. unfold bind_row. apply map_ext_in. intros k' Hin.
  apply read_set_other. intros ->. contradiction.
Qed.

Lemma find_missing (r : row) k :
  ~ In k (keys r) -> find (fun kv => (fst kv =? k)%string) r = None.
Proof.
  intros Hk. unfold keys in *. induction r as [|[k0 v0] r IH]; [reflexivity|].
  cbn [find fst snd map] in *.
  destruct (String.eqb_spec k0 k) as [->|Hne]; [exfalso; apply Hk; now left|].
  apply IH. intros Hin. apply Hk. now right.
Qed.

Lemma get_missing (r : row) k : ~ In k (keys r) -> get r k = VUndefined.
Proof. intros Hk. unfold get. now rewrite find_missing. Qed.

(** A name a row lacks reads as the inherited member of that name, and as
    [undefined] when [Object.prototype] has no such member. *)
Lemma read_missing (r : row) k :
  ~ In k (keys r) ->
  read r k = if existsb (String.eqb k) inherited_members then VNative k else VUndefined.
Proof. intros Hk. unfold read. now rewrite find_missing. Qed.

Lemma bind_row_missing cols (r : row) k i :
  nth_error cols i = Some k -> ~ In k (keys r) ->
  nth_error (bind_row cols r) i
  = Some (if existsb (String.eqb k) inherited_members then VNative k else VUndefined).
Proof.
  intros Hi Hk. unfold bind_row. rewrite nth_error_map, Hi. cbn.
  now rewrite read_missing.
Qed.

Ltac triple := apply pair_equal_spec; split; [apply pair_equal_spec; split|].

Lemma map_seq_shift {A} (f : nat -> A) n :
  map f (seq 1 n) = map (fun j => f (Datatypes.S j)) (seq 0 n).
Proof. rewrite <- seq_shift, map_map. reflexivity. Qed.

Lemma numbered_cells_all (r : row) cols : forall i ps vs,
  fold_left
    (fun (a : Z * list string * list value) col =>
       let '(i, ps, vs) := a in
       (i + 1, ps ++ [("$" ++ string_of_Z i)%string], vs ++ [read r col]))
    cols (i, ps, vs)
  = (i + len cols,
     ps ++ map (fun j => ("$" ++ string_of_Z (i + Z.of_nat j))%string) (seq 0 (length cols)),
     vs ++ bind_row cols r).
Proof.
  induction cols as [|col cols IH]; intros i ps vs.
  - cbn. rewrite !app_nil_r. triple; [unfold len; simpl; lia | reflexivity | reflexivity].
  - cbn [fold_left]. rewrite IH. cbn [length seq map bind_row].
    rewrite map_seq_shift, <- !app_assoc. cbn [app]. triple.
    + unfold len. cbn [length]. lia.
    + f_equal. f_equal; [do 2 f_equal; lia|].
      apply map_ext. intros j. do 2 f_equal. lia.
    + reflexivity.
Qed.

Lemma numbered_rows_all cols rows : forall i vs ps,
  fold_left (numbered_row cols) rows (i, vs, ps)
  = (i + len rows * len cols,
     vs ++ concat (map (bind_row cols) rows),
     ps ++ map (fun k => numbered_group (length cols) (i + Z.of_nat k * len cols))
             (seq 0 (length rows))).
Proof.
  induction rows as [|r rows IH]; intros i vs ps.
  - cbn. rewrite !app_nil_r. triple; [unfold len; simpl; lia | reflexivity | reflexivity].
  - cbn [fold_left]. unfold numbered_row at 2.
    rewrite numbered_cells_all. rewrite IH.
    cbn [length seq map concat]. rewrite map_seq_shift, <- !app_assoc. cbn [app]. triple.
    + unfold len. cbn [length]. lia.
    + reflexivity.
    + f_equal. f_equal.
      * unfold numbered_group. do 3 f_equal. apply map_ext. intros j.
        do 2 f_equal. lia.
      * apply map_ext. intros k. f_equal. unfold len. lia.
Qed.

Lemma question_cells_all (r : row) cols : forall ps vs,
  fold_left
    (fun (a : list string * list value) col =>
       let '(ps, vs) := a in (ps ++ ["?"%string], vs ++ [read r col]))
    cols (ps, vs)
  = (ps ++ repeat "?"%string (length cols), vs ++ bind_row cols r).
Proof.
  induction cols as [|col cols IH]; intros ps vs.
  - cbn. now rewrite !app_nil_r.
  - cbn [fold_left]. rewrite IH. cbn [length repeat bind_row map].
    now rewrite <- !app_assoc.
Qed.

Lemma question_rows_all cols rows : forall vs ps,
  fold_left (question_row cols) rows (vs, ps)
  = (vs ++ concat (map (bind_row cols) rows),
     ps ++ repeat (question_group (length cols)) (length rows)).
Proof.
  induction rows as [|r rows IH]; intros vs ps.
  - cbn. now rewrite !app_nil_r.
  - cbn [fold_left]. unfold question_row at 2.
    rewrite question_cells_all. rewrite IH.
    cbn [length repeat map concat app]. now rewrite <- !app_assoc.
Qed.

Section Bindings.

Variable S : Type.
Variable drv : Driver S.

Lemma runs_app a b : runs (a ++ b) = runs a ++ runs b.
Proof. unfold runs. apply flat_map_app. Qed.

(** The loop binds the rows one after the other to the prepared statement,
    each in the order of the columns, and stops at the first failure. *)
Lemma insertMany_runs p sql cols data : forall count w,
  exists added k,
    journal (snd (insertMany drv p sql cols data count w)) = journal w ++ added
    /\ runs added = map (pair sql) (firstn k (map (bind_row cols) data))
    /\ (forall n, fst (insertMany drv p sql cols data count w) = Return n ->
                  runs added = map (pair sql) (map (bind_row cols) data)
                  /\ n = count + len data).
Proof.
  induction data as [|r data IH]; intros count w; cbn [insertMany].
  - exists [], O. rewrite app_nil_r. split; [reflexivity|]. split; [reflexivity|].
    intros n [= <-]. split; [reflexivity|]. unfold len. cbn. lia.
  - unfold bind, run. rewrite native_run.
    destruct (sqlite_run drv p sql (bind_row cols r) (st w)) as [[[]|e] s1];
      cbn [fst snd settle is_ok].
    + match goal with |- context [insertMany _ _ _ _ _ _ ?w0] => set (w1 := w0) end.
      destruct (IH (count + 1) w1) as (added & k & Ej & Hk & Hall).
      exists ((sqlite_run_call p sql (bind_row cols r), true) :: added), (Datatypes.S k).
      split; [rewrite Ej; subst w1; cbn [journal]; now rewrite <- app_assoc|].
      split; [cbn; now rewrite <- Hk|].
      intros n Hn. destruct (Hall n Hn) as [Hv ->]. split.
      * cbn. now rewrite <- Hv.
      * unfold len. cbn [length]. lia.
    + exists [(sqlite_run_call p sql (bind_row cols r), false)], 1%nat.
      split; [reflexivity|]. split; [reflexivity|]. discriminate.
Qed.

Lemma insertBatch_sqlite_runs c tableName first rest w :
  vendor_of c = sqlite ->
  let sql := insert_sql sqlite tableName (keys first)
               ("(" ++ join ", " (map (fun _ => "?"%string) (keys first)) ++ ")") in
  exists prepared body k,
    since w (snd (insertBatch drv c tableName (first :: rest) w))
    = (sqlite_prepare_call (pool c) sql, prepared) :: body
    /\ runs body = map (pair sql) (firstn k (map (bind_row (keys first)) (first :: rest)))
    /\ (prepared = false -> body = [])
    /\ (forall n, fst (insertBatch drv c tableName (first :: rest) w) = Return n ->
                  runs body = map (pair sql) (map (bind_row (keys first)) (first :: rest))
                  /\ n = len (first :: rest)).
Proof.
  intros Hv sql. unfold insertBatch. rewrite Hv. cbv zeta. fold sql.
  unfold transaction. unfold try_catch, bind, prepare, exec, throw, ret.
  run_native.
  2:{ exists false, [], O. split; [apply since_app; reflexivity|].
      split; [reflexivity|]. split; [reflexivity | discriminate]. }
  run_native.
  2:{ exists true, [(sqlite_exec_call (pool c) "BEGIN", false)], O.
      split; [apply since_app; journal_grows|].
      split; [reflexivity|]. split; [discriminate | discriminate]. }
  match goal with |- context [insertMany _ _ _ _ _ _ ?w0] => set (w1 := w0) end.
  destruct (insertMany_runs (pool c) sql (keys first) (first :: rest) 0 w1)
    as (added & k & Ej & Hk & Hall).
  assert (Hbody : forall closing,
             runs closing = [] ->
             runs ((sqlite_exec_call (pool c) "BEGIN", true) :: added ++ closing)
             = map (pair sql) (firstn k (map (bind_row (keys first)) (first :: rest)))).
  { intros closing Hc.
    change ((sqlite_exec_call (pool c) "BEGIN", true) :: added ++ closing)
      with ([(sqlite_exec_call (pool c) "BEGIN", true)] ++ added ++ closing).
    rewrite !runs_app, Hc, app_nil_r. exact Hk. }
  destruct (insertMany drv (pool c) sql (keys first) (first :: rest) 0 w1)
    as [[count|e|] w2] eqn:Em; cbn [fst snd] in *.
  - run_native; [|run_native].
    + exists true, ((sqlite_exec_call (pool c) "BEGIN", true) :: added
                    ++ [(sqlite_exec_call (pool c) "COMMIT", true)]), k.
      split; [apply since_app; cbn [snd journal]; rewrite Ej; subst w1; cbn [journal];
              rewrite <- !app_assoc; reflexivity|].
      split; [now apply Hbody|]. split; [discriminate|].
      intros n [= <-]. destruct (Hall count eq_refl) as [Hr ->].
      split; [|lia]. rewrite Hbody by reflexivity. now rewrite <- Hk.
    + exists true, ((sqlite_exec_call (pool c) "BEGIN", true) :: added
                    ++ [(sqlite_exec_call (pool c) "COMMIT", false);
                        (sqlite_exec_call (pool c) "ROLLBACK", true)]), k.
      split; [apply since_app; cbn [snd journal]; rewrite Ej; subst w1; cbn [journal];
              rewrite <- !app_assoc; reflexivity|].
      split; [now apply Hbody|]. split; discriminate.
    + exists true, ((sqlite_exec_call (pool c) "BEGIN", true) :: added
                    ++ [(sqlite_exec_call (pool c) "COMMIT", false);
                        (sqlite_exec_call (pool c) "ROLLBACK", false)]), k.
      split; [apply since_app; cbn [snd journal]; rewrite Ej; subst w1; cbn [journal];
              rewrite <- !app_assoc; reflexivity|].
      split; [now apply Hbody|]. split; discriminate.
  - run_native.
    + exists true, ((sqlite_exec_call (pool c) "BEGIN", true) :: added
                    ++ [(sqlite_exec_call (pool c) "ROLLBACK", true)]), k.
      split; [apply since_app; cbn [snd journal]; rewrite Ej; subst w1; cbn [journal];
              rewrite <- !app_assoc; reflexivity|].
      split; [now apply Hbody|]. split; discriminate.
    + exists true, ((sqlite_exec_call (pool c) "BEGIN", true) :: added
                    ++ [(sqlite_exec_call (pool c) "ROLLBACK", false)]), k.
      split; [apply since_app; cbn [snd journal]; rewrite Ej; subst w1; cbn [journal];
              rewrite <- !app_assoc; reflexivity|].
      split; [now apply Hbody|]. split; discriminate.
  - exfalso. pose proof (settles_insertMany drv (pool c) sql (keys first)
                           (first :: rest) 0 w1) as Hs.
    rewrite Em in Hs. now apply Hs.
Qed.

(** The pool-leasing vendor: the lease, then one [executeMany] with the rows
    projected on the columns, then the release. *)
Lemma insertBatch_oracle_calls c tableName first rest w :
  vendor_of c = oracle ->
  let sql := insert_sql oracle tableName (keys first)
               ("(" ++ join ", " (oracle_placeholders (keys first)) ++ ")") in
  let after := snd (insertBatch drv c tableName (first :: rest) w) in
  since w after = [(ora_getConnection_call (pool c), false)]
  \/ exists ok closed,
       since w after
       = [ (ora_getConnection_call (pool c), true);
           (ora_executeMany_call (pool c) sql
              (map (bind_row (keys first)) (first :: rest)), ok);
           (ora_close_call (pool c), closed) ].
Proof.
  intros Hv sql after. subst after. unfold insertBatch. rewrite Hv. cbv zeta. fold sql.
  unfold try_catch, try_finally, bind, pool_getConnection, connection_executeMany,
    connection_close, ret, throw.
  run_native; [|left; apply since_app; reflexivity].
  right. run_native; run_native;
    (do 2 eexists; apply since_app; journal_grows).
Qed.

(** The event-driven vendor and unknown tags: nothing is bound. *)
Lemma insertBatch_binds_nothing c tableName first rest w :
  vendor_of c = sqlserver \/ (exists tag, vendor_of c = other_vendor tag) ->
  insertBatch drv c tableName (first :: rest) w = (Return 0, w).
Proof.
  intros [Hv|(tag & Hv)]; unfold insertBatch; rewrite Hv; reflexivity.
Qed.

End Bindings.

(** C10, as the code has it.  For a non-empty batch, the columns of
    [insertBatch] are the keys of the first row and nothing else.  The
    statement is an INSERT into the quoted table over those columns, quoted
    and in the order of the first row, and the values bound are what each row
    of the batch reads under those names, row after row in that order: in
    one [executeMany] after a successful lease for the pool-leasing vendor
    (one value list per row, placeholders [:0], [:1], ...), in the one query
    of PostgreSQL and of the MySQL family (all values in one list, one
    placeholder group per row), and in one [run] of the prepared statement
    per row for the embedded engine, up to the first failure and for every
    row when the operation returns.  The event-driven vendor and unknown tags
    bind nothing and return 0.  A key that only a later row has never reaches
    a binding.  A column that a later row lacks is bound to [undefined],
    unless it has the name of a member every object inherits: then that
    member is bound. *)
Theorem insertBatch_columns_of_first_row :
  forall S (drv : Driver S) (c : DatabaseConnection) (tableName : value)
         (first : row) (rest : list row) (w : world S),
    let rows := first :: rest in
    let cols := keys first in
    let values := map (fun r => map (read r) cols) rows in
    let statement quoted placeholders :=
      ("INSERT INTO " ++ quoted (template tableName)
         ++ " (" ++ join ", " (map quoted cols) ++ ") VALUES " ++ placeholders)%string in
    let double id := (dquote ++ id ++ dquote)%string in
    let backtick id := ("`" ++ id ++ "`")%string in
    let run := insertBatch drv c tableName rows w in
    (vendor_of c = oracle ->
     since w (snd run) = [(ora_getConnection_call (pool c), false)]
     \/ exists ok closed,
          since w (snd run)
          = [ (ora_getConnection_call (pool c), true);
              (ora_executeMany_call (pool c)
                 (statement double
                    ("(" ++ join ", " (map (fun i => ":" ++ string_of_Z (Z.of_nat i))
                                         (seq 0 (length cols))) ++ ")")%string)
                 values, ok);
              (ora_close_call (pool c), closed) ])
    /\ (vendor_of c = postgresql ->
        exists ok,
          since w (snd run)
          = [ (pg_query_call (pool c)
                 (statement double
                    (join ", " (numbered_groups (length cols) (length rows))))
                 (concat values), ok) ])
    /\ (vendor_of c = mysql \/ vendor_of c = mariadb ->
        exists ok,
          since w (snd run)
          = [ (mysql_query_call (pool c)
                 (statement backtick
                    (join ", " (repeat (question_group (length cols)) (length rows))))
                 (concat values), ok) ])
    /\ (vendor_of c = sqlite ->
        let sql :=
          statement double ("(" ++ join ", " (map (fun _ => "?") cols) ++ ")")%string in
        exists prepared body k,
          since w (snd run) = (sqlite_prepare_call (pool c) sql, prepared) :: body
          /\ runs body = map (pair sql) (firstn k values)
          /\ (prepared = false -> body = [])
          /\ (forall n, fst run = Return n ->
                        runs body = map (pair sql) values /\ n = len rows))
    /\ (vendor_of c = sqlserver \/ (exists tag, vendor_of c = other_vendor tag) ->
        run = (Return 0, w))
    /\ (forall (r : row) k v,
           ~ In k cols -> map (read (set r k v)) cols = map (read r) cols)
    /\ (forall (r : row) k,
           ~ In k (keys r) ->
           (~ In k inherited_members -> read r k = VUndefined)
           /\ (In k inherited_members -> read r k = VNative k)).
Proof.
  intros S drv c tableName first rest w rows cols values statement double backtick run.
  split; [|split; [|split; [|split; [|split; [|split]]]]].
  - intros Hv. exact (insertBatch_oracle_calls drv c tableName first rest w Hv).
  - intros Hv. subst run. unfold insertBatch. subst rows. rewrite Hv. cbv zeta.
    fold cols. rewrite numbered_rows_all. cbn [app].
    unfold try_catch, bind, pgQuery. rewrite native_run.
    match goal with
    | |- context [pg_query drv ?p ?q ?vs ?s] =>
        destruct (pg_query drv p q vs s) as [[r|e] s']
    end; cbn [fst snd settle is_ok]; eexists; apply since_app; reflexivity.
  - intros Hv. subst run. unfold insertBatch. subst rows.
    destruct Hv as [Hv|Hv]; rewrite Hv; cbv zeta; fold cols;
      rewrite question_rows_all; cbn [app];
      unfold try_catch, bind, mysqlQuery; rewrite native_run;
      match goal with
      | |- context [mysql_query drv ?p ?q ?vs ?s] =>
          destruct (mysql_query drv p q vs s) as [[[rs fs|n]|e] s']
      end; cbn [fst snd settle is_ok]; eexists; apply since_app; reflexivity.
  - intros Hv sql. exact (insertBatch_sqlite_runs drv c tableName first rest w Hv).
  - intros Hv. now apply insertBatch_binds_nothing.
  - intros r k v Hk. apply (@bind_row_ignores cols r k v Hk).
  - intros r k Hk. rewrite (@read_missing r k Hk). split; intros Hin.
    + destruct (existsb (String.eqb k) inherited_members) eqn:E; [|reflexivity].
      elim Hin. apply existsb_exists in E as (x & Hx & E).
      apply String.eqb_eq in E. now subst x.
    + assert (E : existsb (String.eqb k) inherited_members = true).
      { apply existsb_exists. exists k. split; [exact Hin | apply String.eqb_refl]. }
      now rewrite E.
Qed.

Lemma insertBatch_columns_of_first_row_witness :
  since fresh (snd (insertBatch quiet ora_target (VStr "t") ragged fresh))
  = [ (ora_getConnection_call 2%nat, true);
      (ora_executeMany_call 2%nat
         ("INSERT INTO " ++ dquote ++ "t" ++ dquote ++ " (" ++ dquote ++ "a" ++ dquote
            ++ ", " ++ dquote ++ "b" ++ dquote ++ ") VALUES (:0, :1)")
         [[VNum 1; VNum 2]; [VNum 3; VUndefined]], true);
      (ora_close_call 2%nat, true) ]
  /\ since fresh (snd (insertBatch quiet pg_handle (VStr "t") ragged fresh))
     = [ (pg_query_call 4%nat
            ("INSERT INTO " ++ dquote ++ "t" ++ dquote ++ " (" ++ dquote ++ "a" ++ dquote
               ++ ", " ++ dquote ++ "b" ++ dquote ++ ") VALUES ($1, $2), ($3, $4)")
            [VNum 1; VNum 2; VNum 3; VUndefined], true) ]
  /\ since fresh (snd (insertBatch quiet mysql_handle (VStr "t") ragged fresh))
     = [ (mysql_query_call 5%nat "INSERT INTO `t` (`a`, `b`) VALUES (?, ?), (?, ?)"
            [VNum 1; VNum 2; VNum 3; VUndefined], true) ]
  /\ runs (since fresh (snd (insertBatch quiet lite_source (VStr "t") ragged fresh)))
     = [ (("INSERT INTO " ++ dquote ++ "t" ++ dquote ++ " (" ++ dquote ++ "a" ++ dquote
             ++ ", " ++ dquote ++ "b" ++ dquote ++ ") VALUES (?, ?)")%string,
          [VNum 1; VNum 2]);
         (("INSERT INTO " ++ dquote ++ "t" ++ dquote ++ " (" ++ dquote ++ "a" ++ dquote
             ++ ", " ++ dquote ++ "b" ++ dquote ++ ") VALUES (?, ?)")%string,
          [VNum 3; VUndefined]) ]
  /\ insertBatch quiet mssql_target (VStr "t") ragged fresh = (Return 0, fresh).
Proof.
  pose proof (insertBatch_columns_of_first_row quiet ora_target (VStr "t")
                [("a", VNum 1); ("b", VNum 2)]%string
                [[("a", VNum 3); ("c", VNum 4)]%string] fresh) as (Hora & _).
  pose proof (insertBatch_columns_of_first_row quiet pg_handle (VStr "t")
                [("a", VNum 1); ("b", VNum 2)]%string
                [[("a", VNum 3); ("c", VNum 4)]%string] fresh) as (_ & Hpg & _).
  pose proof (insertBatch_columns_of_first_row quiet mysql_handle (VStr "t")
                [("a", VNum 1); ("b", VNum 2)]%string
                [[("a", VNum 3); ("c", VNum 4)]%string] fresh) as (_ & _ & Hmy & _).
  pose proof (insertBatch_columns_of_first_row quiet lite_source (VStr "t")
                [("a", VNum 1); ("b", VNum 2)]%string
                [[("a", VNum 3); ("c", VNum 4)]%string] fresh)
    as (_ & _ & _ & Hlite & _).
  pose proof (insertBatch_columns_of_first_row quiet mssql_target (VStr "t")
                [("a", VNum 1); ("b", VNum 2)]%string
                [[("a", VNum 3); ("c", VNum 4)]%string] fresh)
    as (_ & _ & _ & _ & Hms & _).
  split; [|split; [|split; [|split]]].
  - destruct (Hora eq_refl) as [Hfail|(ok & closed & Hcalls)]; [discriminate Hfail|].
    reflexivity.
  - destruct (Hpg eq_refl) as (ok & Hcalls). reflexivity.
  - destruct (Hmy (or_introl eq_refl)) as (ok & Hcalls). reflexivity.
  - destruct (Hlite eq_refl) as (prepared & body & k & Hcalls & _ & _ & Hall).
    pose proof (f_equal runs Hcalls) as Hruns.
    change (runs (?e :: body)) with (runs body) in Hruns.
    rewrite (proj1 (Hall 2 eq_refl)) in Hruns. exact Hruns.
  - exact (Hms (or_introl eq_refl)).
Defined.

(** C10, as stated, fails.  A first row with a column named [constructor]
    and a second row without it: the second row does not bind [undefined]
    for that column but the member of that name every object inherits. *)
Lemma insertBatch_binds_inherited_member :
  keys (hd [] inheriting) = ["id"; "constructor"]%string
  /\ ~ In "constructor"%string (keys (nth 1 inheriting []))
  /\ since fresh (snd (insertBatch quiet pg_handle (VStr "t") inheriting fresh))
     = [ (pg_query_call 4%nat
            ("INSERT INTO " ++ dquote ++ "t" ++ dquote ++ " (" ++ dquote ++ "id" ++ dquote
               ++ ", " ++ dquote ++ "constructor" ++ dquote
               ++ ") VALUES ($1, $2), ($3, $4)")
            [VNum 1; VStr "acme"; VNum 2; VNative "constructor"], true) ]
  /\ VNative "constructor" <> VUndefined.
Proof.
  split; [reflexivity|]. split; [|split; [reflexivity | discriminate]].
  cbn. intros [H|[]]. discriminate H.
Qed.

(** ** The fallback of [listOracleTables] (C7) *)





Section OracleTables.

Variable S : Type.
Variable drv : Driver S.
Variable p : pool_ref.
Variable schema : option string.

(** The operation once the connection is leased and the first tier has
    answered. *)
Variables (w : world S) (s0 s1 : S) (r1 : ora_result) (found : list row).
Hypothesis Hlease : ora_getConnection drv p (st w) = (Ok tt, s0).
Hypothesis Hfirst :
  ora_execute drv p (tier1_sql schema) (tier1_binds schema) OBJECT s0 = (Ok r1, s1).
Hypothesis Hfound : ora_rows r1 = Some found.


Ltac closing s :=
  rewrite native_run; cbn [fst snd settle is_ok st journal];
  destruct (ora_close drv p s) as [[[]|e] s'']; cbn [fst snd settle is_ok st journal].



Variables (s2 : S) (r2 : ora_result) (current : list row).
Hypothesis Hempty : found = [].
Hypothesis Hsecond : ora_execute drv p schemaCheckSql [] OBJECT s1 = (Ok r2, s2).
Hypothesis Hcurrent : ora_rows r2 = Some current.



Variables (s3 : S) (r3 : ora_result) (everything : list row).
Hypothesis Happlies : fallback_applies schema (current_schema current) = true.
Hypothesis Hthird : ora_execute drv p allTablesSql [] OBJECT s2 = (Ok r3, s3).
Hypothesis Heverything : ora_rows r3 = Some everything.


End OracleTables.




(** ** [analyzeProcedureTables] (C8) *)

Lemma existsb_eqb (x : string) (xs : list string) :
  existsb (String.eqb x) xs = true <-> In x xs.
Proof.
  rewrite existsb_exists. split.
  - intros (y & Hin & E). apply String.eqb_eq in E. now subst.
  - intros Hin. exists x. split; [exact Hin | apply String.eqb_refl].
Qed.

Lemma has_spec (t : TableOps) (name : string) :
  has t name = true <-> In name (map fst t).
Proof.
  unfold has. rewrite existsb_exists, in_map_iff. split.
  - intros (e & Hin & E). apply String.eqb_eq in E. eauto.
  - intros (e & E & Hin). exists e. split; [exact Hin | now apply String.eqb_eq].
Qed.

Lemma add_spec (ops : list string) (op o : string) :
  In o (add ops op) <-> In o ops \/ o = op.
Proof.
  unfold add. destruct (existsb (String.eqb op) ops) eqn:E.
  - apply existsb_eqb in E. split; [now left | intros [H| ->]; assumption].
  - rewrite in_app_iff. cbn. intuition.
Qed.

Lemma add_NoDup (ops : list string) (op : string) : NoDup ops -> NoDup (add ops op).
Proof.
  intros H. unfold add. destruct (existsb (String.eqb op) ops) eqn:E; [exact H|].
  apply NoDup_app; [exact H | repeat constructor; auto | ].
  intros x Hin [<-|[]].
  apply existsb_eqb in Hin. congruence.
Qed.

Lemma add_to_keys (t : TableOps) name op : map fst (add_to t name op) = map fst t.
Proof.
  induction t as [|[k ops] t IH]; [reflexivity|]. cbn [add_to].
  destruct (String.eqb_spec k name); cbn; [reflexivity | now rewrite IH].
Qed.

Lemma add_to_spec (t : TableOps) name op T o :
  maps_to (add_to t name op) T o
  <-> maps_to t T o \/ (In name (map fst t) /\ T = name /\ o = op).
Proof.
  unfold maps_to. induction t as [|[k ops] t IH].
  - cbn. split; [intros (? & [] & _) | intros [(? & [] & _)|([] & _)]].
  - cbn [add_to]. destruct (String.eqb_spec k name) as [->|Hne].
    + split.
      * intros (ops' & [[= <- <-]|Hin] & Ho).
        -- apply add_spec in Ho. destruct Ho as [Ho| ->].
           ++ left. exists ops. split; [now left | exact Ho].
           ++ right. cbn. auto.
        -- left. exists ops'. split; [now right | exact Ho].
      * intros [(ops' & [[= <- <-]|Hin] & Ho)|(_ & -> & ->)].
        -- exists (add ops op). split; [now left | apply add_spec; now left].
        -- exists ops'. split; [now right | exact Ho].
        -- exists (add ops op). split; [now left | apply add_spec; now right].
    + split.
      * intros (ops' & [[= <- <-]|Hin] & Ho).
        -- left. exists ops. split; [now left | exact Ho].
        -- destruct (proj1 IH (ex_intro _ ops' (conj Hin Ho)))
             as [(ops'' & Hin' & Ho')|(Hk & -> & ->)].
           ++ left. exists ops''. split; [now right | exact Ho'].
           ++ right. cbn. auto.
      * intros [(ops' & [[= <- <-]|Hin] & Ho)|([Hk|Hk] & -> & ->)].
        -- exists ops. split; [now left | exact Ho].
        -- destruct (proj2 IH (or_introl (ex_intro _ ops' (conj Hin Ho))))
             as (ops'' & Hin' & Ho').
           exists ops''. split; [now right | exact Ho'].
        -- cbn in Hk. congruence.
        -- destruct (proj2 IH (or_intror (conj Hk (conj eq_refl eq_refl))))
             as (ops'' & Hin' & Ho').
           exists ops''. split; [now right | exact Ho'].
Qed.

Lemma maps_to_new (t : TableOps) name T o :
  maps_to (t ++ [(name, [])]) T o <-> maps_to t T o.
Proof.
  unfold maps_to. split.
  - intros (ops & Hin & Ho). apply in_app_iff in Hin.
    destruct Hin as [Hin|[[= <- <-]|[]]]; [eauto | destruct Ho].
  - intros (ops & Hin & Ho). exists ops. split; [apply in_app_iff; now left | exact Ho].
Qed.

(** One match adds its table under its operation, and nothing else. *)
Lemma note_match_spec operation (t : TableOps) capture T o :
  maps_to (note_match operation t capture) T o
  <-> maps_to t T o \/ (T = toUpperCase capture /\ o = toUpperCase operation).
Proof.
  unfold note_match. destruct (has t (toUpperCase capture)) eqn:E.
  - rewrite add_to_spec. apply has_spec in E. intuition.
  - rewrite add_to_spec, maps_to_new, map_app, in_app_iff. cbn. intuition.
Qed.

Lemma fold_note_spec operation captures : forall (t : TableOps) T o,
  maps_to (fold_left (note_match operation) captures t) T o
  <-> maps_to t T o
      \/ (In T (map toUpperCase captures) /\ o = toUpperCase operation).
Proof.
  induction captures as [|c cs IH]; intros t T o; cbn [fold_left map In].
  - intuition.
  - rewrite IH, note_match_spec. intuition.
Qed.

Lemma fold_patterns_spec text (ps : list (string * list string)) :
  forall (t : TableOps) T o,
  maps_to (fold_left
             (fun tableOps (entry : string * list string) =>
                fold_left (note_match (fst entry)) (exec_all (snd entry) text 0) tableOps)
             ps t) T o
  <-> maps_to t T o
      \/ exists entry, In entry ps /\ o = toUpperCase (fst entry)
                       /\ In T (map toUpperCase (exec_all (snd entry) text 0)).
Proof.
  induction ps as [|e ps IH]; intros t T o; cbn [fold_left In].
  - split; [now left | intros [H|(? & [] & _)]; exact H].
  - rewrite IH, fold_note_spec. split.
    + intros [[H|(Hin & Ho)]|(entry & Hin & Ho & HT)]; eauto 7.
    + intros [H|(entry & [<-|Hin] & Ho & HT)]; eauto 7.
Qed.

Lemma add_to_tidy (t : TableOps) name op : tidy t -> tidy (add_to t name op).
Proof.
  intros [Hk Hs]. split; [now rewrite add_to_keys|].
  clear Hk. induction Hs as [|[k ops] t Hops Hs IH]; cbn [add_to]; [constructor|].
  destruct (String.eqb_spec k name); constructor; auto.
  cbn in *. now apply add_NoDup.
Qed.

Lemma note_match_tidy operation (t : TableOps) capture :
  tidy t -> tidy (note_match operation t capture).
Proof.
  intros Ht. unfold note_match. destruct (has t (toUpperCase capture)) eqn:E.
  - now apply add_to_tidy.
  - apply add_to_tidy. destruct Ht as [Hk Hs]. split.
    + rewrite map_app. cbn. apply NoDup_app; [exact Hk | repeat constructor; auto|].
      intros x Hin [<-|[]].
      apply has_spec in Hin. congruence.
    + apply Forall_app. split; [exact Hs | repeat constructor].
Qed.

Lemma analyzeProcedureTables_tidy text : tidy (analyzeProcedureTables text).
Proof.
  unfold analyzeProcedureTables.
  assert (H0 : tidy []) by (split; constructor).
  revert H0. generalize (@nil (string * list string)). generalize patterns.
  induction l as [|e ps IH]; intros t Ht; cbn [fold_left]; [exact Ht|].
  apply IH. revert t Ht. generalize (exec_all (snd e) text 0).
  induction l as [|c cs IHc]; intros t Ht; cbn [fold_left]; [exact Ht|].
  apply IHc. now apply note_match_tidy.
Qed.

(** *** Strings *)

Lemma append_assoc (a b c : string) : ((a ++ b) ++ c = a ++ (b ++ c))%string.
Proof. induction a as [|x a IH]; cbn; [reflexivity | now rewrite IH]. Qed.

Lemma append_empty_r (s : string) : (s ++ EmptyString)%string = s.
Proof. induction s as [|c s IH]; cbn; [reflexivity | now rewrite IH]. Qed.

Lemma length_append (a b : string) :
  String.length (a ++ b) = (String.length a + String.length b)%nat.
Proof. induction a as [|c a IH]; cbn; [reflexivity | now rewrite IH]. Qed.

Lemma append_inv_tail (a b z : string) : (a ++ z = b ++ z)%string -> a = b.
Proof.
  revert b. induction a as [|c a IH]; intros [|d b] H; cbn in H.
  - reflexivity.
  - exfalso. apply (f_equal String.length) in H. cbn in H. rewrite length_append in H. lia.
  - exfalso. apply (f_equal String.length) in H. cbn in H. rewrite length_append in H. lia.
  - injection H as -> H. f_equal. now apply IH.
Qed.

Lemma append_inv_head (a y z : string) : (a ++ y = a ++ z)%string -> y = z.
Proof. induction a as [|c a IH]; cbn; [auto | intros [= H]; auto]. Qed.

(** Two ways of cutting one text: one cut comes first. *)
Lemma append_eq_cases (a : string) : forall b c d,
  (a ++ b = c ++ d)%string ->
  (exists u, a = (c ++ u)%string /\ d = (u ++ b)%string)
  \/ (exists u, c = (a ++ u)%string /\ b = (u ++ d)%string).
Proof.
  induction a as [|x a IH]; intros b c d H; cbn [String.append] in H.
  - right. now exists c.
  - destruct c as [|y c]; cbn [String.append] in H.
    + left. exists (String x a). now split.
    + injection H as -> H. destruct (IH _ _ _ H) as [(u & -> & ->)|(u & -> & ->)].
      * left. now exists u.
      * right. now exists u.
Qed.

Lemma every_app (P : ascii -> bool) (a b : string) :
  every P (a ++ b) = every P a && every P b.
Proof. induction a as [|c a IH]; cbn; [reflexivity | now rewrite IH, andb_assoc]. Qed.

Lemma substring_from_append (a r : string) : substring_from (String.length a) (a ++ r) = r.
Proof. induction a as [|c a IH]; cbn; [now destruct r | exact IH]. Qed.

Lemma strip_prefix_sound pattern : forall s following,
  strip_prefix pattern s = Some following -> s = (pattern ++ following)%string.
Proof.
  induction pattern as [|k pattern IH]; intros s following; cbn [strip_prefix].
  - now intros [= ->].
  - destruct s as [|c s]; [discriminate|].
    destruct (Ascii.eqb_spec c k) as [->|]; [|discriminate].
    intros H. cbn. f_equal. now apply IH.
Qed.

Lemma strip_prefix_complete pattern following :
  strip_prefix pattern (pattern ++ following) = Some following.
Proof.
  induction pattern as [|k pattern IH]; [reflexivity|].
  cbn [String.append strip_prefix]. now rewrite Ascii.eqb_refl.
Qed.

(** *** White space *)

Lemma white_space_character_facts ch :
  In ch white_space_characters ->
  ch <> EmptyString /\ every space_byte ch = true
  /\ forall r, space_at (ch ++ r) = Some r.
Proof.
  intros Hin. cbn in Hin.
  repeat (destruct Hin as [<-|Hin];
          [split; [discriminate | split; [reflexivity | intros r; reflexivity]]|]).
  destruct Hin.
Qed.

Lemma strip_any_sound chars : forall s r,
  strip_any chars s = Some r -> exists ch, In ch chars /\ s = (ch ++ r)%string.
Proof.
  induction chars as [|a chars IH]; intros s r; cbn [strip_any]; [discriminate|].
  destruct (strip_prefix a s) as [r'|] eqn:E.
  - intros [= ->]. exists a. split; [now left | now apply strip_prefix_sound].
  - intros H. destruct (IH _ _ H) as (ch & Hin & ->). exists ch. split; [now right | reflexivity].
Qed.

Lemma space_at_sound s r :
  space_at s = Some r -> exists ch, In ch white_space_characters /\ s = (ch ++ r)%string.
Proof. apply strip_any_sound. Qed.

Lemma space_at_shorter s r :
  space_at s = Some r -> (String.length r < String.length s)%nat.
Proof.
  intros H. destruct (space_at_sound _ H) as (ch & Hin & ->).
  destruct (white_space_character_facts Hin) as (Hne & _).
  rewrite length_append. destruct ch; [congruence | cbn; lia].
Qed.

(** White space begins with a byte of white space, and a byte that is none
    begins no white space. *)
Lemma space_at_byte c s : space_byte c = false -> space_at (String c s) = None.
Proof.
  intros Hc. destruct (space_at (String c s)) as [r|] eqn:E; [|reflexivity].
  destruct (space_at_sound _ E) as (ch & Hin & Hs).
  destruct (white_space_character_facts Hin) as (Hne & Hb & _).
  destruct ch as [|x ch]; [congruence|]. cbn in Hs. injection Hs as <- _.
  cbn [every] in Hb. apply andb_prop in Hb as [Hb _]. congruence.
Qed.

Lemma white_space_bytes sp : white_space sp -> every space_byte sp = true.
Proof.
  induction 1 as [|ch sp Hin _ IH]; [reflexivity|].
  rewrite every_app, IH, andb_true_r.
  exact (proj1 (proj2 (white_space_character_facts Hin))).
Qed.

Lemma white_space_app a b : white_space a -> white_space b -> white_space (a ++ b).
Proof.
  induction 1 as [|ch sp Hin _ IH]; intros Hb; [exact Hb|].
  rewrite append_assoc. constructor; auto.
Qed.

Lemma skip_spaces_upto_shape fuel : forall s,
  exists sp, s = (sp ++ skip_spaces_upto fuel s)%string /\ white_space sp.
Proof.
  induction fuel as [|fuel IH]; intros s; cbn [skip_spaces_upto].
  - exists EmptyString. split; [reflexivity | constructor].
  - destruct (space_at s) as [r|] eqn:E.
    + destruct (space_at_sound _ E) as (ch & Hin & ->).
      destruct (IH r) as (sp & Er & Hsp).
      exists (ch ++ sp)%string. split; [|now constructor].
      rewrite append_assoc. now rewrite <- Er.
    + exists EmptyString. split; [reflexivity | constructor].
Qed.

Lemma skip_spaces_upto_ends fuel : forall s,
  (String.length s <= fuel)%nat -> space_at (skip_spaces_upto fuel s) = None.
Proof.
  induction fuel as [|fuel IH]; intros s Hlen; cbn [skip_spaces_upto].
  - destruct s; [reflexivity | cbn in Hlen; lia].
  - destruct (space_at s) as [r|] eqn:E; [|exact E].
    apply IH. pose proof (space_at_shorter _ E). lia.
Qed.

Lemma skip_spaces_upto_run sp tail :
  white_space sp -> space_at tail = None ->
  forall fuel, (String.length (sp ++ tail) <= fuel)%nat ->
               skip_spaces_upto fuel (sp ++ tail) = tail.
Proof.
  intros Hsp Htail. induction Hsp as [|ch sp Hin _ IH]; intros fuel Hlen.
  - cbn [String.append]. destruct fuel; cbn [skip_spaces_upto]; [reflexivity|].
    now rewrite Htail.
  - destruct (white_space_character_facts Hin) as (Hne & _ & Hat).
    rewrite append_assoc in *.
    destruct fuel as [|fuel].
    + rewrite length_append in Hlen. destruct ch; [congruence | cbn in Hlen; lia].
    + cbn [skip_spaces_upto]. rewrite Hat. apply IH.
      rewrite length_append in Hlen. destruct ch; [congruence | cbn in Hlen; lia].
Qed.

Lemma skip_spaces_shape s :
  exists sp, s = (sp ++ skip_spaces s)%string /\ white_space sp.
Proof. apply skip_spaces_upto_shape. Qed.

Lemma skip_spaces_ends s : space_at (skip_spaces s) = None.
Proof. apply skip_spaces_upto_ends. lia. Qed.

Lemma skip_spaces_run sp tail :
  white_space sp -> space_at tail = None -> skip_spaces (sp ++ tail) = tail.
Proof. intros Hsp Ht. apply skip_spaces_upto_run; auto. Qed.

(** [\s+] takes a run of white space that is not empty and that no white
    space follows, and it takes every such run. *)
Lemma spaces_shape s s2 :
  spaces s = Some s2 ->
  exists sp, s = (sp ++ s2)%string /\ sp <> EmptyString /\ white_space sp
             /\ space_at s2 = None.
Proof.
  unfold spaces. destruct (space_at s) as [r|] eqn:E; [|discriminate]. intros [= <-].
  destruct (space_at_sound _ E) as (ch & Hin & ->).
  destruct (skip_spaces_shape r) as (sp & Er & Hsp).
  destruct (white_space_character_facts Hin) as (Hne & _).
  exists (ch ++ sp)%string. split; [rewrite append_assoc; now rewrite <- Er|].
  split; [destruct ch; [congruence | discriminate]|].
  split; [now constructor | apply skip_spaces_ends].
Qed.

Lemma spaces_complete sp tail :
  white_space sp -> sp <> EmptyString -> space_at tail = None ->
  spaces (sp ++ tail) = Some tail.
Proof.
  intros Hsp Hne Ht. destruct Hsp as [|ch sp Hin Hsp]; [congruence|].
  unfold spaces. rewrite append_assoc.
  rewrite (proj2 (proj2 (white_space_character_facts Hin))).
  now rewrite skip_spaces_run.
Qed.

(** *** Keywords and identifiers *)

Lemma ascii_eqb_eq (a b : ascii) : Ascii.eqb a b = true -> a = b.
Proof. apply Ascii.eqb_eq. Qed.

Lemma same_but_case_upper k : forall kw,
  same_but_case k kw = true <-> toUpperCase k = toUpperCase kw.
Proof.
  induction k as [|c k IH]; intros [|a kw]; cbn [same_but_case toUpperCase].
  - split; reflexivity.
  - split; discriminate.
  - split; discriminate.
  - rewrite andb_true_iff, IH. split.
    + intros [E ->]. apply Ascii.eqb_eq in E. now rewrite E.
    + intros [= -> ->]. now rewrite Ascii.eqb_refl.
Qed.

Lemma keyword_shape kw : forall s s1,
  keyword kw s = Some s1 ->
  exists k, s = (k ++ s1)%string /\ same_but_case k kw = true.
Proof.
  induction kw as [|a kw IH]; intros s s1; cbn [keyword].
  - intros [= ->]. now exists EmptyString.
  - destruct s as [|c s]; [discriminate|].
    destruct (Ascii.eqb (upper_ascii c) (upper_ascii a)) eqn:E; [|discriminate].
    intros H. destruct (IH _ _ H) as (k & -> & Hk).
    exists (String c k). split; [reflexivity|]. cbn. now rewrite E, Hk.
Qed.

Lemma keyword_complete kw : forall k s,
  same_but_case k kw = true -> keyword kw (k ++ s) = Some s.
Proof.
  induction kw as [|a kw IH]; intros [|c k] s; cbn; try discriminate; [reflexivity|].
  intros H. apply andb_prop in H as [E H]. rewrite E. now apply IH.
Qed.

Lemma ident_tail_shape s : forall name rest,
  ident_tail s = (name, rest) ->
  s = (name ++ rest)%string /\ every ident_char name = true /\ ends_identifier rest.
Proof.
  induction s as [|c s IH]; intros name rest; cbn [ident_tail].
  - intros [= <- <-]. repeat split.
  - destruct (ident_char c) eqn:Ec.
    + destruct (ident_tail s) as [n r]. intros [= <- <-].
      destruct (IH _ _ eq_refl) as (-> & Hn & Hr).
      cbn. rewrite Ec, Hn. repeat split. exact Hr.
    + intros [= <- <-]. cbn. repeat split. exact Ec.
Qed.

Lemma ident_tail_complete name rest :
  every ident_char name = true -> ends_identifier rest ->
  ident_tail (name ++ rest) = (name, rest).
Proof.
  intros Hn Hr. induction name as [|c name IH]; cbn [String.append].
  - destruct rest as [|c rest]; [reflexivity|]. cbn in *. now rewrite Hr.
  - cbn in Hn. apply andb_prop in Hn as [Hc Hn]. cbn [ident_tail].
    now rewrite Hc, (IH Hn).
Qed.

Lemma identifier_shape s name rest :
  identifier s = Some (name, rest) ->
  s = (name ++ rest)%string /\ is_identifier name /\ ends_identifier rest.
Proof.
  destruct s as [|c s]; [discriminate|]. cbn [identifier].
  destruct (ident_start c) eqn:Ec; [|discriminate].
  destruct (ident_tail s) as [n r] eqn:Et. intros [= <- <-].
  destruct (ident_tail_shape _ Et) as (-> & Hn & Hr).
  split; [reflexivity|]. split; [|exact Hr].
  exists c, n. auto.
Qed.

Lemma identifier_complete name rest :
  is_identifier name -> ends_identifier rest ->
  identifier (name ++ rest) = Some (name, rest).
Proof.
  intros (c & tail & -> & Hc & Ht) Hr. cbn [String.append identifier].
  now rewrite Hc, (ident_tail_complete _ _ Ht Hr).
Qed.

(** What begins an identifier or a word begins no white space. *)
Lemma identifier_head c s : ident_start c = true -> space_at (String c s) = None.
Proof.
  intros Hc. apply space_at_byte. revert Hc.
  destruct c as [[] [] [] [] [] [] [] []]; vm_compute; congruence.
Qed.

Lemma word_head k kw s :
  wordlike kw = true -> same_but_case k kw = true ->
  exists c t, (k ++ s)%string = String c t /\ ident_start c = true.
Proof.
  destruct kw as [|a kw]; [discriminate|]. destruct k as [|c k]; [discriminate|].
  cbn [wordlike every same_but_case]. intros Hw Hk.
  apply andb_prop in Hw as [Ha _]. apply andb_prop in Hk as [E _].
  exists c, (k ++ s)%string. split; [reflexivity|].
  unfold ident_start in *. now rewrite (ascii_eqb_eq _ _ E).
Qed.

(** *** The shape of a match *)

Lemma match_here_shape keywords : forall s name rest,
  match_here keywords s = Some (name, rest) ->
  exists lead,
    s = (lead ++ name ++ rest)%string
    /\ spells keywords lead /\ is_identifier name /\ ends_identifier rest.
Proof.
  induction keywords as [|kw more IH]; intros s name rest; cbn [match_here].
  - intros H. destruct (identifier_shape _ H) as (-> & Hn & Hr).
    exists EmptyString. cbn. auto.
  - destruct (keyword kw s) as [s1|] eqn:Ek; [|discriminate].
    destruct (spaces s1) as [s2|] eqn:Es; [|discriminate].
    intros H. destruct (IH _ _ _ H) as (tail & -> & Htail & Hn & Hr).
    destruct (keyword_shape _ _ Ek) as (k & -> & Hk).
    destruct (spaces_shape _ Es) as (sp & -> & Hsp & Hall & _).
    exists (k ++ sp ++ tail)%string. split; [now rewrite !append_assoc|].
    split; [|auto]. cbn [spells]. exists k, sp, tail. auto.
Qed.

Lemma match_here_occurrence keywords s name rest :
  match_here keywords s = Some (name, rest) -> occurrence_at keywords s name rest.
Proof. apply match_here_shape. Qed.

Lemma spelled_head keywords : forall lead name rest,
  Forall (fun kw => wordlike kw = true) keywords ->
  spells keywords lead -> is_identifier name ->
  space_at (lead ++ name ++ rest) = None.
Proof.
  intros lead name rest Hw Hl Hn. destruct keywords as [|kw more].
  - cbn in Hl. subst lead. destruct Hn as (c & tail & -> & Hc & _).
    now apply identifier_head.
  - cbn [spells] in Hl. destruct Hl as (k & sp & tail & -> & Hk & _).
    inversion Hw as [|? ? Hkw _]; subst.
    destruct (word_head k kw ((sp ++ tail) ++ name ++ rest) Hkw Hk) as (c & t & E & Hc).
    rewrite append_assoc, E. now apply identifier_head.
Qed.

(** An occurrence of the expression at the head of [s] is matched there. *)
Lemma match_here_complete keywords :
  Forall (fun kw => wordlike kw = true) keywords ->
  forall s name rest,
    occurrence_at keywords s name rest -> match_here keywords s = Some (name, rest).
Proof.
  induction keywords as [|kw more IH]; intros Hw s name rest (lead & -> & Hl & Hn & Hr).
  - cbn in Hl. subst lead. cbn. now apply identifier_complete.
  - cbn [spells] in Hl. destruct Hl as (k & sp & tail & -> & Hk & Hne & Hsp & Htail).
    inversion Hw as [|? ? Hkw Hmore]; subst.
    cbn [match_here]. rewrite !append_assoc.
    rewrite (@keyword_complete kw k (sp ++ tail ++ name ++ rest) Hk).
    rewrite (@spaces_complete sp (tail ++ name ++ rest) Hsp Hne
               (@spelled_head more tail name rest Hmore Htail Hn)).
    apply IH; [exact Hmore|]. exists tail. auto.
Qed.

Lemma match_here_empty keywords : match_here keywords EmptyString = None.
Proof.
  destruct keywords as [|kw more]; [reflexivity|]. cbn [match_here].
  destruct kw; reflexivity.
Qed.

(** A match takes at least one character. *)
Lemma match_here_shorter keywords s name rest :
  match_here keywords s = Some (name, rest) ->
  (String.length rest < String.length s)%nat.
Proof.
  intros H. destruct (match_here_shape _ _ H) as (lead & -> & _ & (c & t & -> & _) & _).
  rewrite !length_append. cbn. lia.
Qed.

(** *** The scan *)

Lemma exec_all_occurs keywords : forall src covered name,
  In name (exec_all keywords src covered) -> occurs keywords src name.
Proof.
  assert (Hshift : forall c src name,
             occurs keywords src name -> occurs keywords (String c src) name).
  { intros c src name (before & here & rest & -> & Hm).
    exists (String c before), here, rest. split; [reflexivity | exact Hm]. }
  intros src. induction src as [|c src IH]; intros covered name; cbn [exec_all];
    [intros []|].
  destruct covered as [|k]; [|intros H; eauto].
  destruct (match_here keywords (String c src)) as [[n rest]|] eqn:Em.
  - intros [<-|H]; [|eauto].
    exists EmptyString, (String c src), rest. split; [reflexivity | exact Em].
  - intros H. eauto.
Qed.

(** The scan, restarted where the last match ended. *)
Lemma exec_all_skip keywords : forall s covered,
  exec_all keywords s covered = exec_all keywords (substring_from covered s) 0.
Proof.
  induction s as [|c s IH]; intros covered.
  - now destruct covered.
  - destruct covered as [|k]; [reflexivity|]. cbn [exec_all substring_from]. apply IH.
Qed.

Lemma exec_all_match keywords s name rest :
  match_here keywords s = Some (name, rest) ->
  exec_all keywords s 0 = name :: exec_all keywords rest 0.
Proof.
  intros Hm. destruct s as [|c s]; [now rewrite match_here_empty in Hm|].
  cbn [exec_all]. rewrite Hm. f_equal. rewrite exec_all_skip. f_equal.
  destruct (match_here_shape _ _ Hm) as (lead & E & _ & (i & tail & -> & _) & _).
  rewrite <- append_assoc in E.
  destruct (lead ++ String i tail)%string as [|c' M'] eqn:EM.
  { destruct lead; discriminate. }
  cbn [String.append] in E. injection E as -> ->.
  cbn [String.length]. rewrite length_append.
  replace (Datatypes.S (String.length M' + String.length rest) - String.length rest - 1)%nat
    with (String.length M') by lia.
  apply substring_from_append.
Qed.

Lemma exec_all_miss keywords c s :
  match_here keywords (String c s) = None ->
  exec_all keywords (String c s) 0 = exec_all keywords s 0.
Proof. intros Hm. cbn [exec_all]. now rewrite Hm. Qed.

(** No match anywhere: the scan finds nothing. *)
Lemma exec_all_none keywords : forall src,
  (forall before here, src = (before ++ here)%string -> match_here keywords here = None) ->
  exec_all keywords src 0 = [].
Proof.
  induction src as [|c src IH]; intros Hnone; [reflexivity|].
  rewrite exec_all_miss by (apply (Hnone EmptyString); reflexivity).
  apply IH. intros before here ->. apply (Hnone (String c before)). reflexivity.
Qed.

(** The leftmost match is the first of the scan, which goes on where that
    match ended. *)
Lemma exec_all_first keywords here name rest :
  match_here keywords here = Some (name, rest) ->
  forall before,
    (forall b1 b2, before = (b1 ++ b2)%string -> b2 <> EmptyString ->
                   match_here keywords (b2 ++ here) = None) ->
    exec_all keywords (before ++ here) 0 = name :: exec_all keywords rest 0.
Proof.
  intros Hm. induction before as [|c before IH]; intros Hnone.
  - now apply exec_all_match.
  - cbn [String.append]. rewrite exec_all_miss.
    + apply IH. intros b1 b2 -> Hb2. apply (Hnone (String c b1) b2 eq_refl Hb2).
    + apply (Hnone EmptyString (String c before) eq_refl). discriminate.
Qed.

(** Either the expression matches nowhere in the text, or it has a leftmost
    match. *)
Lemma first_match keywords : forall src,
  (forall before here, src = (before ++ here)%string -> match_here keywords here = None)
  \/ exists before here name rest,
       src = (before ++ here)%string
       /\ match_here keywords here = Some (name, rest)
       /\ forall b1 b2, before = (b1 ++ b2)%string -> b2 <> EmptyString ->
                        match_here keywords (b2 ++ here) = None.
Proof.
  induction src as [|c src IH].
  - left. intros before here E. destruct before; [|discriminate].
    cbn in E. subst here. apply match_here_empty.
  - destruct (match_here keywords (String c src)) as [[name rest]|] eqn:Em.
    + right. exists EmptyString, (String c src), name, rest.
      split; [reflexivity|]. split; [exact Em|].
      intros b1 b2 E Hb2. destruct b1; destruct b2; cbn in E; congruence.
    + destruct IH as [Hnone|(before & here & name & rest & -> & Hm & Hleft)].
      * left. intros before here E. destruct before as [|x before]; cbn in E.
        -- now subst here.
        -- injection E as _ E. eapply Hnone. exact E.
      * right. exists (String c before), here, name, rest.
        split; [reflexivity|]. split; [exact Hm|].
        intros b1 b2 E Hb2. destruct b1 as [|x b1]; cbn in E.
        -- subst b2. exact Em.
        -- injection E as _ E. now apply (Hleft b1 b2).
Qed.

Section Scan.

Variable keywords : list string.
Hypothesis words : Forall (fun kw => wordlike kw = true) keywords.

(** The scan of the code is the scan of the specification: the leftmost
    occurrence, then the scan of what follows it. *)
Lemma exec_all_scanned : forall n src,
  (String.length src <= n)%nat -> scanned keywords src (exec_all keywords src 0).
Proof.
  induction n as [|n IH]; intros src Hlen.
  - destruct src; [|cbn in Hlen; lia]. cbn. apply scanned_none.
    intros before here name rest E Ho.
    destruct before; [|discriminate]. cbn in E. subst here.
    pose proof (match_here_complete words Ho) as Hm.
    rewrite match_here_empty in Hm. discriminate.
  - destruct (first_match keywords src) as [Hnone|(before & here & name & rest & -> & Hm & Hleft)].
    + rewrite (exec_all_none _ Hnone). apply scanned_none.
      intros before here name rest E Ho.
      pose proof (match_here_complete words Ho) as Hm.
      rewrite (Hnone _ _ E) in Hm. discriminate.
    + rewrite (@exec_all_first keywords here name rest Hm before Hleft).
      apply scanned_match with (rest := rest).
      * now apply match_here_occurrence.
      * intros b1 b2 n0 r0 E Hb2 Ho.
        pose proof (match_here_complete words Ho) as Hm'.
        rewrite (Hleft _ _ E Hb2) in Hm'. discriminate.
      * apply IH. pose proof (@match_here_shorter keywords here name rest Hm) as Hs.
        rewrite length_append in Hlen. lia.
Qed.

Lemma scanned_exec_all text names :
  scanned keywords text names -> names = exec_all keywords text 0.
Proof.
  induction 1 as [text Hnone|before here name rest names Ho Hleft _ IH].
  - symmetry. apply exec_all_none. intros before here E.
    destruct (match_here keywords here) as [[name rest]|] eqn:Em; [|reflexivity].
    exfalso. apply (Hnone _ _ name rest E). now apply match_here_occurrence.
  - rewrite (@exec_all_first keywords here name rest (match_here_complete words Ho) before);
      [now rewrite <- IH|].
    intros b1 b2 E Hb2.
    destruct (match_here keywords (b2 ++ here)) as [[n r]|] eqn:Em; [|reflexivity].
    exfalso. apply (Hleft _ _ n r E Hb2). now apply match_here_occurrence.
Qed.

(** An occurrence is found by the scan unless it begins inside an earlier
    occurrence, one that begins before it and ends after its first
    character. *)
Lemma scanned_covers text names :
  scanned keywords text names ->
  forall before here name rest,
    text = (before ++ here)%string ->
    occurrence_at keywords here name rest ->
    In name names
    \/ exists b1 b2 n r,
         before = (b1 ++ b2)%string /\ b2 <> EmptyString
         /\ occurrence_at keywords (b2 ++ here) n r
         /\ (String.length r < String.length here)%nat.
Proof.
  induction 1 as [text Hnone|before0 here0 name0 rest0 names Ho0 Hleft Hscan IH];
    intros before here name rest E Ho.
  - exfalso. exact (Hnone _ _ _ _ E Ho).
  - destruct (append_eq_cases _ _ _ _ E) as [(u & -> & ->)|(u & -> & ->)].
    + (* the occurrence begins at or before the first match *)
      destruct u as [|x u].
      * cbn [String.append] in *.
        pose proof (match_here_complete words Ho) as H1.
        pose proof (match_here_complete words Ho0) as H2.
        rewrite H1 in H2. injection H2 as -> _. left. now left.
      * exfalso. apply (Hleft before (String x u) name rest eq_refl); [discriminate | exact Ho].
    + (* the occurrence begins after the first match begins *)
      destruct u as [|x u].
      * cbn [String.append] in *. rewrite append_empty_r.
        pose proof (match_here_complete words Ho) as H1.
        pose proof (match_here_complete words Ho0) as H2.
        rewrite H1 in H2. injection H2 as -> _. left. now left.
      * destruct (Nat.lt_ge_cases (String.length rest0) (String.length here)) as [Hin|Hout].
        -- right. exists before0, (String x u), name0, rest0.
           split; [reflexivity|]. split; [discriminate|]. split; [exact Ho0 | exact Hin].
        -- pose proof Ho0 as (lead0 & E0 & _).
           rewrite <- append_assoc in E0.
           destruct (append_eq_cases _ _ _ _ E0) as [(v & Ev & Er)|(v & Ev & Er)].
           ++ (* the occurrence begins where the first match has ended *)
              destruct (IH v here name rest Er Ho)
                as [Hfound|(b1 & b2 & n & r & Eb & Hb2 & Ho' & Hr)].
              ** left. now right.
              ** right. exists (before0 ++ (lead0 ++ name0) ++ b1)%string, b2, n, r.
                 split; [|auto]. rewrite Ev, Eb, !append_assoc. reflexivity.
           ++ (* by the lengths, it begins exactly where the first match ends *)
              destruct v as [|y v].
              ** cbn [String.append] in Er.
                 destruct (IH EmptyString here name rest (eq_sym Er) Ho)
                   as [Hfound|(b1 & b2 & n & r & Eb & Hb2 & _)].
                 --- left. now right.
                 --- destruct b1; destruct b2; cbn in Eb; congruence.
              ** exfalso. rewrite Er, length_append in Hout. cbn in Hout. lia.
Qed.

End Scan.

Lemma operation_of_patterns op keywords :
  In (op, keywords) operation_keywords
  <-> exists entry, In entry patterns /\ op = toUpperCase (fst entry)
                    /\ keywords = snd entry.
Proof.
  change operation_keywords
    with (map (fun entry : string * list string => (toUpperCase (fst entry), snd entry))
            patterns).
  rewrite in_map_iff. split.
  - intros (entry & [= <- <-] & Hin). eauto.
  - intros (entry & Hin & -> & ->). eauto.
Qed.

Lemma operation_words op keywords :
  In (op, keywords) operation_keywords ->
  Forall (fun kw => wordlike kw = true) keywords.
Proof.
  cbn. intros H.
  repeat (destruct H as [[= <- <-]|H]; [repeat constructor|]). destruct H.
Qed.

(** C8, as the code has it.  [analyzeProcedureTables] maps a table to an
    operation exactly when the global scan of the keywords of that operation
    (FROM for SELECT, INSERT INTO for INSERT, UPDATE for UPDATE, DELETE FROM
    for DELETE, MERGE INTO for MERGE) over the whole source text captures the
    name of the table, which is mapped upper-cased.  The scan takes the
    leftmost occurrence of the keywords, in any mix of cases and each followed
    by white space, before a whole identifier, and goes on after that
    identifier.  So every occurrence in the text is mapped unless it begins
    inside an earlier occurrence of the same keywords.  Each table appears
    once and no set repeats an operation.  On the text of the specification
    the result maps CUSTOMERS to SELECT and ORDERS to INSERT. *)
Theorem analyzeProcedureTables_operations :
  (forall text T op,
      maps_to (analyzeProcedureTables text) T op
      <-> exists keywords names,
            In (op, keywords) operation_keywords
            /\ scanned keywords text names
            /\ In T (map toUpperCase names))
  /\ (forall text op keywords before here name rest,
         In (op, keywords) operation_keywords ->
         text = (before ++ here)%string ->
         occurrence_at keywords here name rest ->
         maps_to (analyzeProcedureTables text) (toUpperCase name) op
         \/ exists b1 b2 n r,
              before = (b1 ++ b2)%string /\ b2 <> EmptyString
              /\ occurrence_at keywords (b2 ++ here) n r
              /\ (String.length r < String.length here)%nat)
  /\ (forall text, tidy (analyzeProcedureTables text))
  /\ analyzeProcedureTables "INSERT INTO ORDERS (...) SELECT * FROM CUSTOMERS"
     = [ ("CUSTOMERS", ["SELECT"]); ("ORDERS", ["INSERT"]) ]%string.
Proof.
  assert (Hmaps : forall text T op,
             maps_to (analyzeProcedureTables text) T op
             <-> exists keywords names,
                   In (op, keywords) operation_keywords
                   /\ scanned keywords text names
                   /\ In T (map toUpperCase names)).
  { intros text T op. unfold analyzeProcedureTables. rewrite fold_patterns_spec. split.
    - intros [(? & [] & _)|(entry & Hin & Hop & HT)].
      assert (Hk : In (op, snd entry) operation_keywords)
        by (apply operation_of_patterns; eauto).
      exists (snd entry), (exec_all (snd entry) text 0).
      split; [exact Hk|]. split; [|exact HT].
      apply (@exec_all_scanned (snd entry) (@operation_words op (snd entry) Hk)
               (String.length text) text (le_n _)).
    - intros (keywords & names & Hk & Hscan & HT). right.
      destruct (proj1 (operation_of_patterns _ _) Hk) as (entry & Hin & Hop & ->).
      exists entry. split; [exact Hin|]. split; [exact Hop|].
      now rewrite <- (@scanned_exec_all (snd entry) (@operation_words op (snd entry) Hk)
                        text names Hscan). }
  split; [exact Hmaps|]. split; [|split; [apply analyzeProcedureTables_tidy | reflexivity]].
  intros text op keywords before here name rest Hk E Ho.
  pose proof (@operation_words op keywords Hk) as Hw.
  pose proof (@exec_all_scanned keywords Hw (String.length text) text (le_n _)) as Hscan.
  destruct (@scanned_covers keywords Hw text _ Hscan before here name rest E Ho)
    as [Hin|Hinside]; [left | now right].
  apply Hmaps. exists keywords, (exec_all keywords text 0).
  split; [exact Hk|]. split; [exact Hscan | now apply in_map].
Qed.

(** C8, as stated, fails.  In [SELECT valid_from FROM prices] the table
    [prices] is named after an occurrence of FROM, but that occurrence begins
    inside an earlier match, the one that starts at the end of [valid_from]
    and captures the word [FROM]: the scan goes on after it, and [PRICES] is
    not mapped. *)
Lemma analyzeProcedureTables_skips_overlapped_occurrence :
  "SELECT valid_from FROM prices"%string = ("SELECT valid_from " ++ "FROM prices")%string
  /\ occurrence_at ["FROM"%string] "FROM prices" "prices" EmptyString
  /\ analyzeProcedureTables "SELECT valid_from FROM prices"
     = [ ("FROM", ["SELECT"]) ]%string
  /\ ~ maps_to (analyzeProcedureTables "SELECT valid_from FROM prices") "PRICES" "SELECT".
Proof.
  split; [reflexivity|]. split; [|split; [reflexivity|]].
  - exists "FROM "%string. split; [reflexivity|]. split; [|split].
    + exists "FROM"%string, " "%string, EmptyString.
      split; [reflexivity|]. split; [reflexivity|]. split; [discriminate|].
      split; [|reflexivity].
      apply (@white_more " " EmptyString); [|constructor].
      cbn. do 5 right. now left.
    + exists "p"%char, "rices"%string. repeat split.
    + exact I.
  - assert (E : analyzeProcedureTables "SELECT valid_from FROM prices"
                = [ ("FROM", ["SELECT"]) ]%string)
      by (vm_compute; reflexivity).
    rewrite E. intros (ops & Hin & _). destruct Hin as [Hin|[]]. discriminate Hin.
Qed.

(* ================================================================== *)
(** * Further properties of the services *)
(* ================================================================== *)

(** ** Leased connections of the other operations *)

Ltac lease_step :=
  first [ apply emits_native; intros []; reflexivity | emit_step ].

Section LeasesContinued.

Variable S : Type.
Variable drv : Driver S.

Ltac leases_returned :=
  unfold releases, collect_rows, rows_of, unsupported, pgQuery, mysqlQuery, requestQuery,
    prepare, all, Date_now;
  structurally ltac:(first [ apply releases_executeQuery
                           | apply releases_describeTable
                           | apply releases_listPrimaryKeys
                           | apply releases_listOracleForeignKeys
                           | apply releases_insertBatch
                           | lease_step ]).

Lemma releases_listForeignKeys c tableName : releases (listForeignKeys drv c tableName).
Proof.
  unfold listForeignKeys, listPostgresForeignKeys, listMySqlForeignKeys,
    listSqlServerForeignKeys, listSqliteForeignKeys.
  leases_returned.
Qed.

Lemma releases_listOraclePackages c : releases (listOraclePackages drv c).
Proof. unfold listOraclePackages. leases_returned. Qed.

Lemma releases_getOracleErrors c objectName objectType :
  releases (getOracleErrors drv c objectName objectType).
Proof. unfold getOracleErrors. leases_returned. Qed.

Lemma releases_listPackageProcedures c packageName :
  releases (listPackageProcedures drv c packageName).
Proof. unfold listPackageProcedures. leases_returned. Qed.

Lemma releases_getOracleSource c objectName objectType :
  releases (getOracleSource drv c objectName objectType).
Proof. unfold getOracleSource. leases_returned. Qed.

Lemma releases_insert_batches target targetName rows batchSize :
  forall fuel i totalInserted,
    releases (insert_batches drv target fuel targetName rows batchSize i totalInserted).
Proof.
  induction fuel as [|fuel IH]; intros i totalInserted; cbn [insert_batches];
    destruct (i <? len rows).
  - apply emits_still; [typeclasses eauto | intros w; reflexivity].
  - unfold releases. lease_step.
  - unfold releases. lease_step; [apply releases_insertBatch | intros _; apply IH].
  - unfold releases. lease_step.
Qed.

Lemma releases_migrateTable source target tableName targetTableName batchSize :
  releases (migrateTable drv source target tableName targetTableName batchSize).
Proof.
  unfold migrateTable.
  unfold releases, Date_now;
  structurally ltac:(first [ apply releases_executeQuery
                           | apply releases_describeTable
                           | apply releases_insert_batches
                           | lease_step ]).
Qed.

Lemma releases_migrate_each source target tables :
  forall results, releases (migrate_each drv source target tables results).
Proof.
  induction tables as [|table rest IH]; intros results; cbn [migrate_each];
    unfold releases; [lease_step|].
  lease_step; [|intros entry; apply IH].
  unfold migrate_one. lease_step; [|intros; lease_step].
  lease_step; [apply releases_migrateTable | intros; lease_step].
Qed.

End LeasesContinued.

Section MoreLeases.
Variable S : Type.
Variable drv : Driver S.
Variable generateCreateTable : value -> list ColumnInfo -> list value -> result string.
Variable source target : DatabaseConnection.

Lemma releases_prepare_table name :
  releases (prepare_table drv generateCreateTable source name).
Proof.
  unfold prepare_table, releases.
  structurally ltac:(first [ apply releases_describeTable | apply releases_listPrimaryKeys
                           | lease_step ]).
Qed.

Lemma releases_table_lines table (w : world S) :
  exists added,
    journal (snd (table_lines drv generateCreateTable source target table w))
    = journal w ++ added
    /\ open_leases added = 0.
Proof.
  unfold table_lines.
  destruct (releases_prepare_table (tbl_name table) w) as (a1 & E1 & L1).
  destruct (prepare_table drv generateCreateTable source (tbl_name table) w)
    as [[ddl|e|] w1]; cbn [snd] in *; eauto.
  destruct (releases_executeQuery drv target ddl default_maxRows w1) as (a2 & E2 & L2).
  destruct (executeQuery drv target ddl default_maxRows w1) as [created w2].
  destruct (releases_migrateTable drv source target (tbl_name table) VUndefined
              default_batchSize w2) as (a3 & E3 & L3).
  destruct (migrateTable drv source target (tbl_name table) VUndefined default_batchSize w2)
    as [copy w3].
  cbn [snd] in *. exists (a1 ++ a2 ++ a3).
  rewrite E3, E2, E1, <- !app_assoc. split; [reflexivity|].
  rewrite !open_leases_app. lia.
Qed.

Lemma releases_report_lines tables : forall w : world S,
  exists added,
    journal (snd (report_lines drv generateCreateTable source target tables w))
    = journal w ++ added
    /\ open_leases added = 0.
Proof.
  induction tables as [|table rest IH]; intros w; cbn [report_lines].
  - exists []. now rewrite app_nil_r.
  - destruct (tbl_type table); [|apply IH].
    destruct (releases_table_lines table w) as (a1 & E1 & L1).
    destruct (table_lines drv generateCreateTable source target table w) as [lines w1].
    destruct (IH w1) as (a2 & E2 & L2).
    destruct (report_lines drv generateCreateTable source target rest w1) as [more w2].
    cbn [snd] in *. exists (a1 ++ a2). rewrite E2, E1, <- app_assoc.
    split; [reflexivity|]. rewrite open_leases_app. lia.
Qed.

Lemma releases_replicate_all tables :
  releases (replicate_all drv generateCreateTable source target tables).
Proof.
  intros w. unfold replicate_all. rewrite replicate_each_lines. cbn [fst snd].
  apply releases_report_lines.
Qed.

End MoreLeases.

Lemma releases_replicate_database
  S (drv : Driver S)
  (generateCreateTable : value -> list ColumnInfo -> list value -> result string)
  (connections : list DatabaseConnection) (sourceId targetId : string) :
  releases (replicate_database drv generateCreateTable connections sourceId targetId).
Proof.
  unfold replicate_database, getConnection, releases.
  structurally ltac:(first [ apply releases_listTables | apply releases_replicate_all
                           | lease_step ]).
Qed.

(** X1.  Every operation of [DatabaseService] other than [healthCheck] gives
    back every connection it leases, for every vendor and on every path,
    whether it returns or throws: the native calls it adds to the journal
    hold as many calls of [close] as successful calls of [getConnection]. *)
Theorem operations_release_every_lease :
  forall S (drv : Driver S) (c : DatabaseConnection),
    (forall sql maxRows, releases (executeQuery drv c sql maxRows))
    /\ releases (listTables drv c)
    /\ (forall tableName, releases (describeTable drv c tableName))
    /\ (forall tableName, releases (listPrimaryKeys drv c tableName))
    /\ (forall tableName, releases (listForeignKeys drv c tableName))
    /\ (forall tableName rows, releases (insertBatch drv c tableName rows))
    /\ releases (listOraclePackages drv c)
    /\ (forall objectName objectType,
           releases (getOracleErrors drv c objectName objectType))
    /\ (forall packageName, releases (listPackageProcedures drv c packageName))
    /\ (forall objectName objectType,
           releases (getOracleSource drv c objectName objectType)).
Proof.
  intros S drv c.
  split; [intros; apply releases_executeQuery|].
  split; [apply releases_listTables|].
  split; [intros; apply releases_describeTable|].
  split; [intros; apply releases_listPrimaryKeys|].
  split; [intros; apply releases_listForeignKeys|].
  split; [intros; apply releases_insertBatch|].
  split; [apply releases_listOraclePackages|].
  split; [intros; apply releases_getOracleErrors|].
  split; [intros; apply releases_listPackageProcedures|].
  intros; apply releases_getOracleSource.
Qed.

(** X2.  A whole copy leaves no connection leased: [migrateTable] for any
    batch size, [migrateData] for any list of tables and the
    [replicate_database] handler for any registry and any pair of names only
    add to the journal, and what they add closes every connection it
    leased. *)
Theorem migrations_release_every_lease :
  forall S (drv : Driver S) (source target : DatabaseConnection),
    (forall tableName targetTableName batchSize,
        releases (migrateTable drv source target tableName targetTableName batchSize))
    /\ (forall tables truncateTarget,
           releases (migrateData drv source target tables truncateTarget))
    /\ (forall generateCreateTable connections sourceId targetId,
           releases (replicate_database drv generateCreateTable connections
                       sourceId targetId)).
Proof.
  intros S drv source target.
  split; [intros; apply releases_migrateTable|].
  split; [intros; unfold migrateData; apply releases_migrate_each|].
  intros; apply releases_replicate_database.
Qed.

(** X3.  [healthCheck] always returns, and it leaves at most one connection
    leased; it leaves one only for the pool-leasing vendor and only when it
    reports [unhealthy].  A report of [healthy] comes with every lease given
    back. *)
Theorem healthCheck_lease_bound :
  forall S (drv : Driver S) (c : DatabaseConnection) (w : world S),
  exists h w' added,
    healthCheck drv c w = (Return h, w')
    /\ journal w' = journal w ++ added
    /\ (open_leases added = 0
        \/ (open_leases added = 1 /\ vendor_of c = oracle /\ status h = unhealthy))
    /\ (status h = healthy -> open_leases added = 0).
Proof.
  intros S drv c w. unfold healthCheck, try_catch, bind, probe.
  destruct (vendor_of c) eqn:Hv;
    unfold bind, pool_getConnection, connection_execute, connection_close, pgQuery,
      mysqlQuery, prepare, get_one, rows_of, peek, ret, throw.
  - (* oracle *)
    run_native.
    2:{ do 3 eexists. split; [reflexivity|]. split; [journal_grows|].
        split; [now left | discriminate]. }
    run_native.
    2:{ do 3 eexists. split; [reflexivity|]. split; [journal_grows|].
        split; [right; repeat split | discriminate]. }
    destruct (ora_rows r0) as [rs|]; cbn [fst snd].
    + run_native; do 3 eexists; (split; [reflexivity|]); (split; [journal_grows|]);
        (split; [now left | reflexivity]).
    + do 3 eexists. split; [reflexivity|]. split; [journal_grows|].
      split; [right; repeat split | discriminate].
  - run_native; [destruct (pg_rows r)|]; cbn [fst snd];
      do 3 eexists; (split; [reflexivity|]); (split; [journal_grows|]);
      (split; [now left | reflexivity]).
  - run_native; [destruct r as [[|r0 rs] fs|n]|]; cbn [fst snd];
      do 3 eexists; (split; [reflexivity|]); (split; [journal_grows|]);
      (split; [now left | reflexivity]).
  - run_native; [destruct r as [[|r0 rs] fs|n]|]; cbn [fst snd];
      do 3 eexists; (split; [reflexivity|]); (split; [journal_grows|]);
      (split; [now left | reflexivity]).
  - do 2 eexists. exists []. split; [reflexivity|]. split; [now rewrite app_nil_r|].
    split; [now left | reflexivity].
  - run_native.
    2:{ do 3 eexists. split; [reflexivity|]. split; [journal_grows|].
        split; [now left | reflexivity]. }
    run_native; [destruct r0|]; cbn [fst snd];
      do 3 eexists; (split; [reflexivity|]); (split; [journal_grows|]);
      (split; [now left | reflexivity]).
  - do 2 eexists. exists []. split; [reflexivity|]. split; [now rewrite app_nil_r|].
    split; [now left | reflexivity].
Qed.

(** X4.  What the dispatchers do for a vendor they have no branch for.  On a
    handle of the event-driven vendor, or of any tag outside the six known
    ones, [healthCheck] reports [healthy] and [insertBatch] returns 0 for any
    batch, both without a single native call and without touching the world.
    On a handle of an unknown tag, [listTables], [describeTable],
    [listPrimaryKeys] and [listForeignKeys] throw the unsupported-vendor
    message and [executeQuery] throws it wrapped, again with the world
    untouched. *)
Theorem vendors_without_strategy :
  forall S (drv : Driver S) (c : DatabaseConnection) (w : world S),
    (vendor_of c = sqlserver \/ (exists tag, vendor_of c = other_vendor tag) ->
     (exists h, healthCheck drv c w = (Return h, w) /\ status h = healthy)
     /\ (forall tableName rows, insertBatch drv c tableName rows w = (Return 0, w)))
    /\ (forall tag, vendor_of c = other_vendor tag ->
          (forall sql maxRows,
              executeQuery drv c sql maxRows w
              = (Throw ("Error ejecutando query: Vendor no soportado: " ++ tag)%string, w))
          /\ listTables drv c w = (Throw ("Vendor no soportado: " ++ tag)%string, w)
          /\ (forall tableName,
                 describeTable drv c tableName w
                 = (Throw ("Vendor no soportado: " ++ tag)%string, w)
                 /\ listPrimaryKeys drv c tableName w
                    = (Throw ("Vendor no soportado: " ++ tag)%string, w)
                 /\ listForeignKeys drv c tableName w
                    = (Throw ("Vendor no soportado: " ++ tag)%string, w))).
Proof.
  intros S drv c w. split.
  - intros Hv. split.
    + unfold healthCheck, try_catch, bind, probe.
      destruct Hv as [Hv|[tag Hv]]; rewrite Hv; eexists; split; reflexivity.
    + intros tableName rows. unfold insertBatch. destruct rows as [|first rest]; [reflexivity|].
      destruct Hv as [Hv|[tag Hv]]; rewrite Hv; reflexivity.
  - intros tag Hv.
    unfold executeQuery, listTables, describeTable, listPrimaryKeys, listForeignKeys.
    rewrite Hv. repeat split.
Qed.

(** X5.  [executeQuery] never hangs and only adds to the journal.  When it
    returns, every native call it made succeeded, the [executionTime] of the
    result is 0 and, except for PostgreSQL where the count is the one the
    driver reports, [rowCount] is the number of rows returned.  Every error it
    throws is the wrapped one: its message starts with the fixed prefix. *)
Theorem executeQuery_outcome :
  forall S (drv : Driver S) (c : DatabaseConnection) (sql : string) (maxRows : Z)
         (w : world S),
  exists added,
    journal (snd (executeQuery drv c sql maxRows w)) = journal w ++ added
    /\ match fst (executeQuery drv c sql maxRows w) with
       | Return qr =>
           Forall succeeded added
           /\ executionTime qr = 0
           /\ (vendor_of c <> postgresql -> rowCount qr = len (rows qr))
       | Throw message =>
           exists cause, message = ("Error ejecutando query: " ++ cause)%string
       | Hang => False
       end.
Proof.
  intros S drv c sql maxRows w. unfold executeQuery, try_catch.
  destruct (vendor_of c);
    unfold executeOracleQuery, executePostgresQuery, executeMySqlQuery,
      executeSqlServerQuery, executeSqliteQuery, unsupported, try_finally, bind,
      pool_getConnection, connection_execute, connection_close, pgQuery, mysqlQuery,
      requestQuery, prepare, all, ret, throw.
  - run_native; [|eexists; split; [journal_grows | eexists; reflexivity]].
    run_native; run_native;
      eexists; (split; [journal_grows|]); try (eexists; reflexivity).
    split; [repeat constructor|]. split; [reflexivity|]. intros _.
    destruct (ora_rows r0); reflexivity.
  - run_native; eexists; (split; [journal_grows|]); try (eexists; reflexivity).
    split; [repeat constructor|]. split; [reflexivity|]. intros H. now elim H.
  - run_native; [destruct r|]; eexists; (split; [journal_grows|]);
      try (eexists; reflexivity).
    split; [repeat constructor|]. split; [reflexivity|]. reflexivity.
  - run_native; [destruct r|]; eexists; (split; [journal_grows|]);
      try (eexists; reflexivity).
    split; [repeat constructor|]. split; [reflexivity|]. reflexivity.
  - run_native; [destruct r as [items []]|]; cbn [fst snd];
      eexists; (split; [journal_grows|]); try (eexists; reflexivity).
    split; [repeat constructor|]. split; [reflexivity|]. reflexivity.
  - run_native; [|eexists; split; [journal_grows | eexists; reflexivity]].
    run_native; eexists; (split; [journal_grows|]); try (eexists; reflexivity).
    split; [repeat constructor|]. split; [reflexivity|]. reflexivity.
  - exists []. split; [now rewrite app_nil_r | eexists; reflexivity].
Qed.

Section Batches.
Variable S : Type.
Variable drv : Driver S.
Variable source target : DatabaseConnection.

Lemma migrateTable_fetched tableName targetTableName batchSize w columns w1 result w2 :
  describeTable drv source tableName w = (Return columns, w1) ->
  executeQuery drv source (select_sql (map col_name columns) tableName) 100000 w1
  = (Return result, w2) ->
  rows result <> [] ->
  migrateTable drv source target tableName targetTableName batchSize w =
  (totalInserted <- insert_batches drv target (length (rows result))
                      (or_else targetTableName tableName) (rows result) batchSize 0 0 ;;
   finish <- Date_now drv ;;
   ret {| copied := totalInserted; elapsed := finish - now drv (st w) |}) w2.
Proof.
  intros Hd Hq Hrows. unfold migrateTable.
  unfold bind at 1. unfold Date_now at 1, peek at 1.
  unfold bind at 1. rewrite Hd.
  unfold bind at 1. rewrite Hq.
  destruct (rows result) as [|r rs] eqn:E; [congruence|].
  change (len (r :: rs) =? 0) with false. cbv iota. reflexivity.
Qed.

Lemma for_each_app {A B} (f : A -> M S B) (xs ys : list A) w :
  for_each f (xs ++ ys) w = (for_each f xs ;;; for_each f ys) w.
Proof.
  revert w. induction xs as [|x xs IH]; intros w; cbn [app for_each].
  - reflexivity.
  - rewrite bind_assoc. apply bind_ext. intros _ w'. apply IH.
Qed.

Lemma insertBatch_without_strategy tableName rows (w : world S) :
  vendor_of target = sqlserver \/ (exists tag, vendor_of target = other_vendor tag) ->
  insertBatch drv target tableName rows w = (Return 0, w).
Proof.
  intros Hv. unfold insertBatch. destruct rows as [|first rest]; [reflexivity|].
  destruct Hv as [Hv|[tag Hv]]; rewrite Hv; reflexivity.
Qed.

Lemma for_each_without_strategy tableName (slices : list (list row)) :
  vendor_of target = sqlserver \/ (exists tag, vendor_of target = other_vendor tag) ->
  forall w : world S, for_each (insertBatch drv target tableName) slices w = (Return tt, w).
Proof.
  intros Hv. induction slices as [|b slices IH]; intros w; cbn [for_each]; [reflexivity|].
  unfold bind. rewrite insertBatch_without_strategy by exact Hv. apply IH.
Qed.

End Batches.

(** X6.  With a batch size of zero or less, [migrateTable] does not return
    once the source has handed over at least one row: the loop index never
    reaches the end of the rows. *)
Theorem migrateTable_never_returns_without_positive_batchSize :
  forall S (drv : Driver S) (source target : DatabaseConnection)
         (tableName targetTableName : value) (batchSize : Z)
         (w : world S) columns w1 result w2,
    batchSize <= 0 ->
    describeTable drv source tableName w = (Return columns, w1) ->
    executeQuery drv source (select_sql (map col_name columns) tableName) 100000 w1
    = (Return result, w2) ->
    rows result <> [] ->
    ~ exists res,
        fst (migrateTable drv source target tableName targetTableName batchSize w)
        = Return res.
Proof.
  intros S drv source target tableName targetTableName batchSize w columns w1 result w2
    Hbs Hd Hq Hrows [res Hres].
  rewrite (@migrateTable_fetched _ drv source target _ targetTableName batchSize _ _ _ _ _
             Hd Hq Hrows) in Hres.
  unfold bind at 1 in Hres.
  pose proof (@insert_batches_never_returns S drv target
                (or_else targetTableName tableName) (rows result) batchSize Hbs
                (length (rows result)) 0 0 w2) as Hnever.
  destruct (insert_batches drv target (length (rows result))
              (or_else targetTableName tableName) (rows result) batchSize 0 0 w2)
    as [[n|e|] w3]; cbn [fst] in *; try discriminate.
  apply (Hnever n); [|reflexivity].
  destruct (rows result); [congruence | unfold len; simpl; lia].
Qed.

Lemma migrateTable_never_returns_without_positive_batchSize_witness :
  ~ exists res,
      fst (migrateTable small lite_source lite_target (VStr "t") VUndefined 0 fresh)
      = Return res.
Proof.
  eapply (@migrateTable_never_returns_without_positive_batchSize unit small lite_source
            lite_target (VStr "t") VUndefined 0 fresh);
    [lia | reflexivity | reflexivity | discriminate].
Defined.

(** X7.  Copying into a target of the event-driven vendor, or of an unknown
    tag, writes nothing: with a positive batch size [migrateTable] behaves
    exactly as a run that describes and reads the source, makes no call on the
    target and reports every fetched row as copied. *)
Theorem migrateTable_without_insert_strategy :
  forall S (drv : Driver S) (source target : DatabaseConnection)
         (tableName targetTableName : value) (batchSize : Z) (w : world S),
    vendor_of target = sqlserver \/ (exists tag, vendor_of target = other_vendor tag) ->
    0 < batchSize ->
    migrateTable drv source target tableName targetTableName batchSize w
    = migrateTable_by drv source
        (fun _ slices => ret (fold_right (fun b n => len b + n) 0 slices))
        tableName targetTableName batchSize w.
Proof.
  intros S drv source target tableName targetTableName batchSize w Hv Hbs.
  rewrite migrateTable_as_batches by exact Hbs.
  unfold migrateTable_summing_sizes, migrateTable_by.
  apply bind_ext. intros start w0.
  apply bind_ext. intros columns w1.
  apply bind_ext. intros result w2.
  destruct (rows result) as [|r rs]; [reflexivity|].
  rewrite bind_assoc. unfold bind at 1.
  rewrite for_each_without_strategy by exact Hv. reflexivity.
Qed.

Lemma migrateTable_without_insert_strategy_witness :
  migrateTable small lite_source mssql_target (VStr "t") VUndefined 2 fresh
  = migrateTable_by small lite_source
      (fun _ slices => ret (fold_right (fun b n => len b + n) 0 slices))
      (VStr "t") VUndefined 2 fresh.
Proof.
  apply migrateTable_without_insert_strategy; [left; reflexivity | reflexivity].
Defined.

(** X8.  [migrateTable] stops at the first batch whose [insertBatch] throws:
    it throws that error, the world is the one that failed call left, so the
    batches before it stay written and no later batch is attempted. *)
Theorem migrateTable_stops_at_first_failed_batch :
  forall S (drv : Driver S) (source target : DatabaseConnection)
         (tableName targetTableName : value) (batchSize : Z)
         (w : world S) columns w1 result w2 front b back w3 message w4,
    0 < batchSize ->
    describeTable drv source tableName w = (Return columns, w1) ->
    executeQuery drv source (select_sql (map col_name columns) tableName) 100000 w1
    = (Return result, w2) ->
    batches (Z.to_nat batchSize) (rows result) = front ++ b :: back ->
    for_each (insertBatch drv target (or_else targetTableName tableName)) front w2
    = (Return tt, w3) ->
    insertBatch drv target (or_else targetTableName tableName) b w3 = (Throw message, w4) ->
    migrateTable drv source target tableName targetTableName batchSize w
    = (Throw message, w4).
Proof.
  intros S drv source target tableName targetTableName batchSize w columns w1 result w2
    front b back w3 message w4 Hbs Hd Hq Hslices Hfront Hb.
  rewrite migrateTable_as_batches by exact Hbs.
  unfold migrateTable_summing_sizes, migrateTable_by.
  unfold bind at 1. unfold Date_now at 1, peek at 1.
  unfold bind at 1. rewrite Hd.
  unfold bind at 1. rewrite Hq.
  destruct (rows result) as [|r rs] eqn:E.
  { destruct front; discriminate. }
  rewrite Hslices.
  rewrite bind_assoc. unfold bind at 1.
  rewrite for_each_app. unfold bind at 1. rewrite Hfront.
  cbn [for_each]. unfold bind at 1. rewrite Hb. reflexivity.
Qed.

Lemma migrateTable_stops_at_first_failed_batch_witness :
  exists w4,
    migrateTable picky lite_source ora_target (VStr "r") VUndefined 1 fresh
    = (Throw "ORA-00904: invalid identifier", w4)
    /\ length (journal w4) = 10%nat.
Proof.
  eexists. split.
  - eapply (@migrateTable_stops_at_first_failed_batch unit picky lite_source ora_target
              (VStr "r") VUndefined 1 fresh _ _ _ _ [[[("a", VNum 1)]]] [[("b", VNum 2)]] []);
      [lia | reflexivity | reflexivity | reflexivity | reflexivity | reflexivity].
  - reflexivity.
Defined.

Section Compose.
Variable S : Type.
Variable drv : Driver S.
Variable source target : DatabaseConnection.

Lemma migrate_each_from tables : forall results (w : world S),
  exists report w',
    migrate_each drv source target tables [] w = (Return report, w')
    /\ migrate_each drv source target tables results w = (Return (results ++ report), w').
Proof.
  induction tables as [|table rest IH]; intros results w.
  - exists [], w. cbn. now rewrite app_nil_r.
  - cbn [migrate_each]. unfold bind.
    rewrite migrate_one_entry by (apply settles_migrateTable; reflexivity).
    set (w1 := snd (migrateTable drv source target (VStr table) VUndefined
                      default_batchSize w)).
    set (entry := entry_for (table, fst (migrateTable drv source target (VStr table)
                                           VUndefined default_batchSize w))).
    destruct (IH [entry] w1) as (r1 & w' & E0 & E1).
    destruct (IH (results ++ [entry]) w1) as (r2 & w'' & E0' & E2).
    rewrite E0 in E0'. injection E0' as <- <-.
    exists (entry :: r1), w'. cbn [app] in *. rewrite E1, E2, <- app_assoc.
    split; reflexivity.
Qed.

Lemma migrate_each_app tables1 tables2 : forall results (w : world S),
  migrate_each drv source target (tables1 ++ tables2) results w
  = (report <- migrate_each drv source target tables1 results ;;
     migrate_each drv source target tables2 report) w.
Proof.
  induction tables1 as [|table rest IH]; intros results w; cbn [app migrate_each].
  - reflexivity.
  - rewrite bind_assoc. apply bind_ext. intros entry w1. apply IH.
Qed.

End Compose.

(** X9.  [migrateData] composes: migrating a list of tables and then a second
    list, in the world the first call left, gives the two reports whose
    concatenation is the report of one call on the concatenated list, and ends
    in the same world.  The [truncateTarget] flag changes nothing. *)
Theorem migrateData_in_two_calls :
  forall S (drv : Driver S) (source target : DatabaseConnection)
         (tables1 tables2 : list string) (flag1 flag2 flag : bool) (w : world S),
  exists report1 w1 report2 w2,
    migrateData drv source target tables1 flag1 w = (Return report1, w1)
    /\ migrateData drv source target tables2 flag2 w1 = (Return report2, w2)
    /\ migrateData drv source target (tables1 ++ tables2) flag w
       = (Return (report1 ++ report2), w2).
Proof.
  intros S drv source target tables1 tables2 flag1 flag2 flag w. unfold migrateData.
  destruct (migrate_each_from drv source target tables1 [] w) as (r1 & w1 & E1 & _).
  destruct (migrate_each_from drv source target tables2 r1 w1) as (r2 & w2 & E2 & E2').
  exists r1, w1, r2, w2. split; [exact E1|]. split; [exact E2|].
  rewrite migrate_each_app. unfold bind. rewrite E1. exact E2'.
Qed.

(** X10.  The [replicate_database] handler always answers and never throws.
    A source name that is not registered gives the error reply that names it,
    and so does a target name that is not registered, in both cases before any
    native call.  A reply that is not an error means the source was found and
    its tables were listed. *)
Theorem replicate_database_always_answers :
  forall S (drv : Driver S)
         (generateCreateTable : value -> list ColumnInfo -> list value -> result string)
         (connections : list DatabaseConnection) (sourceId targetId : string)
         (w : world S),
  exists reply w',
    replicate_database drv generateCreateTable connections sourceId targetId w
    = (Return reply, w')
    /\ (find (fun c => (id c =? sourceId)%string) connections = None ->
        reply = {| text := ("Error: Connection '" ++ sourceId ++ "' not found")%string;
                   isError := true |}
        /\ w' = w)
    /\ (find (fun c => (id c =? sourceId)%string) connections <> None ->
        find (fun c => (id c =? targetId)%string) connections = None ->
        reply = {| text := ("Error: Connection '" ++ targetId ++ "' not found")%string;
                   isError := true |}
        /\ w' = w)
    /\ (isError reply = false ->
        exists source tables w1,
          find (fun c => (id c =? sourceId)%string) connections = Some source
          /\ listTables drv source w = (Return tables, w1)).
Proof.
  intros S drv generateCreateTable connections sourceId targetId w.
  destruct (find (fun c => (id c =? sourceId)%string) connections) as [source|] eqn:Hs.
  2:{ do 2 eexists. unfold replicate_database, getConnection, try_catch, bind.
      rewrite Hs. cbn. split; [reflexivity|]. split; [auto|].
      split; [congruence | discriminate]. }
  destruct (find (fun c => (id c =? targetId)%string) connections) as [target|] eqn:Ht.
  2:{ do 2 eexists. unfold replicate_database, getConnection, try_catch, bind.
      rewrite Hs, Ht. cbn. split; [reflexivity|]. split; [discriminate|].
      split; [auto | discriminate]. }
  pose proof (replicate_database_reply drv generateCreateTable connections sourceId
                targetId w Hs Ht) as H.
  destruct (listTables drv source w) as [[tables|message|] w1] eqn:Hl; [| |contradiction];
    do 2 eexists; (split; [exact H|]); (split; [discriminate|]);
    (split; [congruence|]); cbn [isError]; [eauto | discriminate].
Qed.

(** X11.  The multi-row INSERT of [insertBatch].  For PostgreSQL the batch is
    one statement whose VALUES text has one parenthesised group per row, the
    placeholders numbered [$1], [$2], ... row after row; for the MySQL family
    it has one group of question marks per row.  The values are bound in the
    same order, row after row and column after column, so there are as many
    of them as rows times columns of the first row, and the call is the only
    native call of the operation. *)
Theorem insertBatch_multirow_statement :
  forall S (drv : Driver S) (c : DatabaseConnection) (tableName : value)
         (first : row) (rest : list row) (w : world S),
    let rows := first :: rest in
    let cols := keys first in
    let values := concat (map (bind_row cols) rows) in
    let after := snd (insertBatch drv c tableName rows w) in
    (vendor_of c = postgresql ->
     let sql := insert_sql postgresql tableName cols
                  (join ", " (numbered_groups (length cols) (length rows))) in
     since w after
     = [(pg_query_call (pool c) sql values,
         is_ok (fst (pg_query drv (pool c) sql values (st w))))])
    /\ (vendor_of c = mysql \/ vendor_of c = mariadb ->
        let sql := insert_sql (vendor_of c) tableName cols
                     (join ", " (repeat (question_group (length cols)) (length rows))) in
        since w after
        = [(mysql_query_call (pool c) sql values,
            is_ok (fst (mysql_query drv (pool c) sql values (st w))))])
    /\ len values = len rows * len cols.
Proof.
  intros S drv c tableName first rest w rows cols values after.
  split; [|split].
  - intros Hv sql. subst after. unfold insertBatch. subst rows. rewrite Hv. cbv zeta.
    fold cols. rewrite numbered_rows_all. cbn [app].
    unfold try_catch, bind, pgQuery. rewrite native_run.
    change (map (fun k => numbered_group (length cols) (1 + Z.of_nat k * len cols))
              (seq 0 (length (first :: rest))))
      with (numbered_groups (length cols) (length (first :: rest))).
    fold values. fold sql.
    destruct (pg_query drv (pool c) sql values (st w)) as [[r|e] s']; cbn [fst snd settle is_ok];
      apply since_app; reflexivity.
  - intros Hv sql. subst after sql. unfold insertBatch. subst rows.
    destruct Hv as [Hv|Hv]; rewrite Hv; cbv zeta; fold cols;
      rewrite question_rows_all; cbn [app]; fold values;
      unfold try_catch, bind, mysqlQuery; rewrite native_run;
      match goal with
      | |- context [mysql_query drv ?p ?q ?vs ?s] =>
          destruct (mysql_query drv p q vs s) as [[[rs fs|n]|e] s']
      end; cbn [fst snd settle is_ok]; apply since_app; reflexivity.
  - subst values. unfold len. generalize rows. intros xs.
    induction xs as [|x xs IH]; [reflexivity|].
    cbn [map concat length]. rewrite length_app. unfold bind_row at 1.
    rewrite length_map. lia.
Qed.

Lemma insertBatch_multirow_statement_witness :
  since fresh (snd (insertBatch quiet pg_handle (VStr "t") ragged fresh))
  = [ (pg_query_call 4%nat
         (insert_sql postgresql (VStr "t") ["a"; "b"]%string "($1, $2), ($3, $4)")
         [VNum 1; VNum 2; VNum 3; VUndefined], true) ]
  /\ since fresh (snd (insertBatch quiet mysql_handle (VStr "t") ragged fresh))
     = [ (mysql_query_call 5%nat
            (insert_sql mysql (VStr "t") ["a"; "b"]%string "(?, ?), (?, ?)")
            [VNum 1; VNum 2; VNum 3; VUndefined], true) ].
Proof.
  destruct (insertBatch_multirow_statement quiet pg_handle (VStr "t")
              [("a", VNum 1); ("b", VNum 2)]%string
              [[("a", VNum 3); ("c", VNum 4)]%string] fresh) as [Hpg _].
  destruct (insertBatch_multirow_statement quiet mysql_handle (VStr "t")
              [("a", VNum 1); ("b", VNum 2)]%string
              [[("a", VNum 3); ("c", VNum 4)]%string] fresh) as [_ [Hmy _]].
  split; [exact (Hpg eq_refl) | exact (Hmy (or_introl eq_refl))].
Defined.

(** Row objects *)
Lemma keys_set (r : row) k v :
  keys (set r k v) = if existsb (String.eqb k) (keys r) then keys r else keys r ++ [k].
Proof.
  unfold keys. induction r as [|[k0 v0] r IH]; cbn [set map existsb fst]; [reflexivity|].
  rewrite (String.eqb_sym k k0).
  destruct (String.eqb_spec k0 k) as [->|Hne]; cbn [map fst orb]; [reflexivity|].
  rewrite IH. now destruct (existsb (String.eqb k) (map fst r)).
Qed.

Lemma set_NoDup (r : row) k v : NoDup (keys r) -> NoDup (keys (set r k v)).
Proof.
  intros H. rewrite keys_set. destruct (existsb (String.eqb k) (keys r)) eqn:E; [exact H|].
  apply NoDup_app; [exact H | repeat constructor; auto|].
  intros x Hin [<-|[]]. apply existsb_eqb in Hin. congruence.
Qed.

Lemma get_set_same (r : row) k v : get (set r k v) k = v.
Proof.
  unfold get. induction r as [|[k0 v0] r IH]; cbn [set find fst snd].
  - now rewrite String.eqb_refl.
  - destruct (String.eqb_spec k0 k) as [->|Hne]; cbn [find fst snd].
    + now rewrite String.eqb_refl.
    + destruct (String.eqb_spec k0 k); [congruence | exact IH].
Qed.

Lemma find_app {A} (f : A -> bool) (xs ys : list A) :
  find f (xs ++ ys) = match find f xs with Some x => Some x | None => find f ys end.
Proof.
  induction xs as [|x xs IH]; cbn [app find]; [reflexivity|]. now destruct (f x).
Qed.

Lemma row_object_from (rowData : list (string * value)) : forall r : row,
  NoDup (keys r) ->
  let built := fold_left (fun r col => set r (fst col) (snd col)) rowData r in
  NoDup (keys built)
  /\ (forall k, get built k
                = match find (fun col => (fst col =? k)%string) (rev rowData) with
                  | Some col => snd col
                  | None => get r k
                  end).
Proof.
  induction rowData as [|[k0 v0] rowData IH]; intros r Hr; cbn [fold_left fst snd].
  - split; [exact Hr | reflexivity].
  - destruct (IH (set r k0 v0) (set_NoDup _ _ _ Hr)) as [Hnd Hget].
    split; [exact Hnd|]. intros k. rewrite Hget. cbn [rev].
    rewrite (find_app (fun col : string * value => (fst col =? k)%string)).
    destruct (find (fun col : string * value => (fst col =? k)%string) (rev rowData));
      [reflexivity|].
    cbn [find fst snd]. destruct (String.eqb_spec k0 k) as [->|Hne].
    + apply get_set_same.
    + apply get_set_other. congruence.
Qed.

Lemma set_fresh (r : row) k v : ~ In k (keys r) -> set r k v = r ++ [(k, v)].
Proof.
  unfold keys. induction r as [|[k0 v0] r IH]; intros Hk; cbn [set app]; [reflexivity|].
  cbn [map fst In] in Hk.
  destruct (String.eqb_spec k0 k) as [->|Hne]; [exfalso; auto|].
  rewrite IH; [reflexivity | auto].
Qed.

Lemma row_object_distinct (rowData : list (string * value)) : forall r : row,
  NoDup (keys r ++ map fst rowData) ->
  fold_left (fun r col => set r (fst col) (snd col)) rowData r = r ++ rowData.
Proof.
  induction rowData as [|[k0 v0] rowData IH]; intros r Hr; cbn [fold_left fst snd].
  - now rewrite app_nil_r.
  - cbn [map fst] in Hr.
    assert (Hk : ~ In k0 (keys r)).
    { apply NoDup_remove_2 in Hr. intros Hin. apply Hr. apply in_app_iff. now left. }
    rewrite set_fresh by exact Hk. rewrite IH.
    + now rewrite <- app_assoc.
    + unfold keys in *. rewrite map_app, <- app_assoc. exact Hr.
Qed.

(** X12.  The row object built for a row of the event-driven vendor, the
    column names being ordinary property names (none is [__proto__] or a run
    of digits, which an object treats apart): it has no repeated property,
    its properties are the column names of the row, and reading a property
    gives the value of the last column of that name, so when two columns
    share a name the earlier value is lost.  When the names are distinct the
    row object is the row, column for column. *)
Theorem row_object_last_value_wins :
  forall rowData : list (string * value),
    Forall (fun col => ordinary_key (fst col) = true) rowData ->
    NoDup (keys (row_object rowData))
    /\ (forall k, In k (keys (row_object rowData)) <-> In k (map fst rowData))
    /\ (forall k, get (row_object rowData) k
                  = match find (fun col => (fst col =? k)%string) (rev rowData) with
                    | Some col => snd col
                    | None => VUndefined
                    end)
    /\ (NoDup (map fst rowData) -> row_object rowData = rowData).
Proof.
  intros rowData _. unfold row_object.
  destruct (@row_object_from rowData [] (NoDup_nil _)) as [Hnd Hget].
  split; [exact Hnd|]. split; [|split; [exact Hget|]].
  - intros k. 
    assert (Hgen : forall (r : row),
               In k (keys (fold_left (fun r col => set r (fst col) (snd col)) rowData r))
               <-> In k (keys r) \/ In k (map fst rowData)).
    { induction rowData as [|[k0 v0] rowData IH]; intros r; cbn [fold_left map fst snd In].
      - tauto.
      - rewrite IH by (apply row_object_from; constructor). rewrite keys_set.
        destruct (existsb (String.eqb k0) (keys r)) eqn:E.
        + apply existsb_eqb in E. split; [tauto|]. intros [H|[<-|H]]; auto.
        + rewrite in_app_iff. cbn [In]. tauto. }
    rewrite Hgen. cbn. tauto.
  - intros Hd. now apply (@row_object_distinct rowData []).
Qed.

Lemma row_object_last_value_wins_witness :
  get (row_object [("id", VNum 1); ("name", VStr "a"); ("id", VNum 2)]) "id" = VNum 2
  /\ keys (row_object [("id", VNum 1); ("name", VStr "a"); ("id", VNum 2)])
     = ["id"; "name"]%string.
Proof.
  assert (Hnames : Forall (fun col : string * value => ordinary_key (fst col) = true)
                     [("id", VNum 1); ("name", VStr "a"); ("id", VNum 2)])
    by (repeat constructor).
  destruct (row_object_last_value_wins Hnames) as (_ & _ & Hget & _).
  split; [exact (Hget "id"%string) | reflexivity].
Defined.

Section Sorting.
Context {A : Type} (key : A -> Z).

Lemma insert_by_perm (x : A) (xs : list A) : Permutation (insert_by key x xs) (x :: xs).
Proof.
  induction xs as [|y xs IH]; cbn [insert_by]; [reflexivity|].
  destruct (key x <=? key y); [reflexivity|].
  rewrite IH. apply perm_swap.
Qed.

Lemma sort_by_perm (xs : list A) : Permutation (sort_by key xs) xs.
Proof.
  unfold sort_by. induction xs as [|x xs IH]; cbn [fold_right]; [reflexivity|].
  rewrite insert_by_perm. now constructor.
Qed.

Lemma insert_by_sorted (x : A) (xs : list A) :
  StronglySorted (fun a b => key a <= key b) xs ->
  StronglySorted (fun a b => key a <= key b) (insert_by key x xs).
Proof.
  induction 1 as [|y xs Hs IH Hy]; cbn [insert_by].
  - repeat constructor.
  - destruct (key x <=? key y) eqn:E.
    + apply Z.leb_le in E. constructor; [now constructor|].
      constructor; [exact E|].
      eapply Forall_impl; [|exact Hy]. intros b Hb. cbv beta in *. lia.
    + apply Z.leb_gt in E. constructor; [exact IH|].
      rewrite insert_by_perm. constructor; [lia | exact Hy].
Qed.

Lemma sort_by_sorted (xs : list A) :
  StronglySorted (fun a b => key a <= key b) (sort_by key xs).
Proof.
  unfold sort_by. induction xs as [|x xs IH]; cbn [fold_right]; [constructor|].
  now apply insert_by_sorted.
Qed.

(** Elements with the same key keep their order. *)
Lemma insert_by_stable k (x : A) (xs : list A) :
  StronglySorted (fun a b => key a <= key b) xs ->
  filter (fun a => key a =? k) (insert_by key x xs)
  = filter (fun a => key a =? k) (x :: xs).
Proof.
  induction 1 as [|y xs Hs IH Hy]; cbn [insert_by]; [reflexivity|].
  destruct (key x <=? key y) eqn:E; [reflexivity|]. apply Z.leb_gt in E.
  cbn [filter] in *. rewrite IH.
  destruct (key y =? k) eqn:Ey, (key x =? k) eqn:Ex; try reflexivity.
  apply Z.eqb_eq in Ey, Ex. lia.
Qed.

Lemma sort_by_stable k (xs : list A) :
  filter (fun a => key a =? k) (sort_by key xs) = filter (fun a => key a =? k) xs.
Proof.
  unfold sort_by. induction xs as [|x xs IH]; cbn [fold_right]; [reflexivity|].
  rewrite insert_by_stable by apply sort_by_sorted.
  cbn [filter]. unfold sort_by in IH. now rewrite IH.
Qed.

End Sorting.

(** X13.  For the embedded engine, [listPrimaryKeys] returns the names of the
    columns whose [pk] is positive, each once, ordered by [pk]; columns with
    the same [pk] keep the order of the catalogue.  [pk] is a number in every
    row of the catalogue. *)
Theorem listSqlitePrimaryKeys_in_key_order :
  forall S (drv : Driver S) (p : pool_ref) (tableName : value) (w : world S) s1 rs s2,
    sqlite_prepare drv p (table_info_sql (template tableName)) (st w) = (Ok tt, s1) ->
    sqlite_all drv p (table_info_sql (template tableName)) s1 = (Ok rs, s2) ->
    Forall (fun r => exists n, get r "pk" = VNum n) rs ->
    exists ordered,
      fst (listSqlitePrimaryKeys drv p tableName w)
      = Return (map (fun r => get r "name") ordered)
      /\ Permutation ordered (filter (fun r => 0 <? pk_of r) rs)
      /\ StronglySorted (fun a b => pk_of a <= pk_of b) ordered
      /\ (forall k, filter (fun r => pk_of r =? k) ordered
                    = filter (fun r => pk_of r =? k) (filter (fun r => 0 <? pk_of r) rs)).
Proof.
  intros S drv p tableName w s1 rs s2 Hp Ha Hnum.
  assert (Hf : filter (fun r => match to_number (get r "pk") with
                                | Some n => 0 <? n
                                | None => false
                                end) rs
               = filter (fun r => 0 <? pk_of r) rs).
  { apply filter_ext_in. intros r Hin. rewrite Forall_forall in Hnum.
    destruct (Hnum r Hin) as [n Hn]. unfold pk_of. now rewrite Hn. }
  exists (sort_by pk_of (filter (fun r => 0 <? pk_of r) rs)).
  split; [|split; [apply sort_by_perm | split; [apply sort_by_sorted|]]].
  - unfold listSqlitePrimaryKeys, bind, prepare, all.
    rewrite native_run, Hp. cbn [fst snd settle st].
    rewrite native_run. cbn [st]. rewrite Ha. cbn [fst snd settle].
    unfold ret. cbn [fst]. now rewrite Hf.
  - intros k. apply sort_by_stable.
Qed.

Lemma listSqlitePrimaryKeys_in_key_order_witness :
  exists ordered,
    fst (listSqlitePrimaryKeys composite 0%nat (VStr "k") fresh)
    = Return (map (fun r => get r "name") ordered)
    /\ StronglySorted (fun a b => pk_of a <= pk_of b) ordered
    /\ length ordered = 2%nat.
Proof.
  destruct (@listSqlitePrimaryKeys_in_key_order unit composite 0%nat (VStr "k") fresh
              tt _ tt eq_refl eq_refl) as (ordered & E & Hperm & Hsorted & _).
  - repeat constructor; eexists; reflexivity.
  - exists ordered. split; [exact E|]. split; [exact Hsorted|].
    apply Permutation_length in Hperm. exact Hperm.
Defined.

(** X14.  For the embedded engine, [describeTable] and [listPrimaryKeys] read
    the same catalogue rows but disagree on composite keys.  Every column
    [describeTable] flags as primary key is listed by [listPrimaryKeys], but a
    column that is second or later in the key is listed by [listPrimaryKeys]
    and described with [isPrimaryKey] false. *)
Theorem sqlite_composite_key_flags :
  forall S (drv : Driver S) (c : DatabaseConnection) (tableName : value)
         (w w' : world S) s1 s2 s1' s2' rs,
    vendor_of c = sqlite ->
    sqlite_prepare drv (pool c) (table_info_sql (template tableName)) (st w) = (Ok tt, s1) ->
    sqlite_all drv (pool c) (table_info_sql (template tableName)) s1 = (Ok rs, s2) ->
    sqlite_prepare drv (pool c) (table_info_sql (template tableName)) (st w') = (Ok tt, s1') ->
    sqlite_all drv (pool c) (table_info_sql (template tableName)) s1' = (Ok rs, s2') ->
    exists columns pks,
      fst (describeTable drv c tableName w) = Return columns
      /\ fst (listPrimaryKeys drv c tableName w') = Return pks
      /\ map col_name columns = map (fun r => get r "name") rs
      /\ (forall col, In col columns -> isPrimaryKey col = true -> In (col_name col) pks)
      /\ (forall r n, In r rs -> get r "pk" = VNum n -> 2 <= n ->
            In (get r "name") pks
            /\ In {| col_name := get r "name"; dataType := get r "type";
                     nullable := value_eqb (get r "notnull") (VNum 0);
                     isPrimaryKey := false |} columns).
Proof.
  intros S drv c tableName w w' s1 s2 s1' s2' rs Hv Hp Ha Hp' Ha'.
  assert (Hlisted : forall r n, In r rs -> get r "pk" = VNum n -> 0 < n ->
            In (get r "name")
              (map (fun r => get r "name")
                 (sort_by pk_of
                    (filter (fun r => match to_number (get r "pk") with
                                      | Some n => 0 <? n
                                      | None => false
                                      end) rs)))).
  { intros r n Hin Hpk Hn. apply (in_map (fun r : row => get r "name")).
    eapply Permutation_in; [symmetry; apply sort_by_perm|].
    apply filter_In. split; [exact Hin|]. rewrite Hpk. cbn. now apply Z.ltb_lt. }
  do 2 eexists.
  split; [|split; [|split; [|split]]].
  - unfold describeTable. rewrite Hv. unfold describeSqliteTable, bind, prepare, all.
    rewrite native_run, Hp. cbn [fst snd settle st].
    rewrite native_run. cbn [st]. rewrite Ha. reflexivity.
  - unfold listPrimaryKeys. rewrite Hv. unfold listSqlitePrimaryKeys, bind, prepare, all.
    rewrite native_run, Hp'. cbn [fst snd settle st].
    rewrite native_run. cbn [st]. rewrite Ha'. reflexivity.
  - rewrite map_map. reflexivity.
  - intros col Hin Hflag. apply in_map_iff in Hin. destruct Hin as (r & <- & Hin).
    cbn [isPrimaryKey col_name] in *.
    destruct (get r "pk") as [| |b|n|s|m] eqn:Hpk; try discriminate.
    cbn [value_eqb] in Hflag. apply Z.eqb_eq in Hflag. subst n.
    apply (Hlisted r 1 Hin Hpk). lia.
  - intros r n Hin Hpk Hn. split; [apply (Hlisted r n Hin Hpk); lia|].
    apply in_map_iff. exists r. split; [|exact Hin].
    rewrite Hpk. cbn [value_eqb]. f_equal.
    apply Z.eqb_neq. lia.
Qed.

Lemma sqlite_composite_key_flags_witness :
  exists columns pks,
    fst (describeTable composite lite_source (VStr "k") fresh) = Return columns
    /\ fst (listPrimaryKeys composite lite_source (VStr "k") fresh) = Return pks
    /\ In (VStr "a") pks
    /\ In {| col_name := VStr "a"; dataType := VStr "TEXT"; nullable := false;
             isPrimaryKey := false |} columns.
Proof.
  destruct (@sqlite_composite_key_flags unit composite lite_source (VStr "k") fresh fresh
              tt tt tt tt _ eq_refl eq_refl eq_refl eq_refl eq_refl)
    as (columns & pks & E1 & E2 & _ & _ & H).
  exists columns, pks. split; [exact E1|]. split; [exact E2|].
  apply (H [("name", VStr "a"); ("type", VStr "TEXT"); ("notnull", VNum 1);
            ("pk", VNum 2)]%string 2); [now left | reflexivity | lia].
Defined.

(** X15.  [getOracleErrors] checks the vendor outside its [try]: on a handle
    of any other vendor it throws the Oracle-only error without a native
    call.  On an Oracle handle it never throws: it returns, every connection
    leased is given back, and the result is the empty list whenever the query
    failed. *)
Theorem getOracleErrors_guard_and_fallback :
  forall S (drv : Driver S) (c : DatabaseConnection) (objectName objectType : string)
         (w : world S),
    (vendor_of c <> oracle ->
     getOracleErrors drv c objectName objectType w = (Throw oracle_only, w))
    /\ (vendor_of c = oracle ->
        exists errors added,
          fst (getOracleErrors drv c objectName objectType w) = Return errors
          /\ journal (snd (getOracleErrors drv c objectName objectType w))
             = journal w ++ added
          /\ open_leases added = 0
          /\ (Exists failed added -> errors = [])
          /\ (forall message,
                fst (executeQuery drv c (getOracleErrors_sql objectName objectType) 100 w)
                = Throw message -> errors = [])).
Proof.
  intros S drv c objectName objectType w. split.
  - intros Hv. unfold getOracleErrors. destruct (vendor_of c); congruence || reflexivity.
  - intros Hv.
    destruct (releases_getOracleErrors drv c objectName objectType w) as (added & Ej & Hl).
    revert Ej. unfold getOracleErrors. rewrite Hv. unfold try_catch, bind.
    pose proof (settles_executeQuery drv c (getOracleErrors_sql objectName objectType) 100 w)
      as Hs.
    assert (Hok : forall qr,
               fst (executeQuery drv c (getOracleErrors_sql objectName objectType) 100 w)
               = Return qr ->
               forall added',
                 journal (snd (executeQuery drv c (getOracleErrors_sql objectName objectType)
                                 100 w)) = journal w ++ added' ->
                 Forall succeeded added').
    { intros qr Hq added' Ej. revert Hq Ej.
      unfold executeQuery, try_catch. rewrite Hv.
      unfold executeOracleQuery, try_finally, bind, pool_getConnection,
        connection_execute, connection_close, ret.
      run_native; [|discriminate]. run_native; run_native; try discriminate.
      intros _ Ej. cbn [snd journal] in Ej. rewrite <- !app_assoc in Ej.
      apply app_inv_head in Ej. subst added'. repeat constructor. }
    destruct (executeQuery drv c (getOracleErrors_sql objectName objectType) 100 w)
      as [[qr|message|] w1]; cbn [fst snd] in *; [| |congruence]; unfold ret;
      cbn [fst snd]; intros Ej; do 2 eexists;
      (split; [reflexivity|]); (split; [exact Ej|]); (split; [exact Hl|]).
    + split; [|discriminate]. intros Hex. exfalso.
      specialize (Hok qr eq_refl added Ej).
      apply Exists_exists in Hex. destruct Hex as (e & Hin & He).
      rewrite Forall_forall in Hok. specialize (Hok e Hin).
      unfold succeeded, failed in *. congruence.
    + split; reflexivity.
Qed.

Lemma getOracleErrors_guard_and_fallback_witness :
  fst (getOracleErrors denied ora_target "orders_api" "PACKAGE BODY" fresh) = Return []
  /\ getOracleErrors denied pg_handle "orders_api" "PACKAGE BODY" fresh
     = (Throw oracle_only, fresh).
Proof.
  split.
  - destruct (proj2 (getOracleErrors_guard_and_fallback denied ora_target "orders_api"
                       "PACKAGE BODY" fresh) eq_refl)
      as (errors & added & E & _ & _ & _ & Hfail).
    rewrite E. f_equal. eapply Hfail. reflexivity.
  - apply (proj1 (getOracleErrors_guard_and_fallback denied pg_handle "orders_api"
                    "PACKAGE BODY" fresh)).
    discriminate.
Defined.


Lemma split_at_sound pattern : forall s preceding following,
  split_at pattern s = Some (preceding, following) ->
  s = (preceding ++ pattern ++ following)%string.
Proof.
  induction s as [|c s IH]; intros preceding following; cbn [split_at].
  - destruct (strip_prefix pattern EmptyString) as [f|] eqn:E; [|discriminate].
    intros [= <- <-]. cbn [String.append]. exact (strip_prefix_sound _ _ E).
  - destruct (strip_prefix pattern (String c s)) as [f|] eqn:E.
    + intros [= <- <-]. cbn [String.append]. exact (strip_prefix_sound _ _ E).
    + destruct (split_at pattern s) as [[p f]|]; [|discriminate].
      intros [= <- <-]. cbn [String.append]. f_equal. apply (IH _ _ eq_refl).
Qed.

Lemma includes_tail c s part : includes (String c s) part = false -> includes s part = false.
Proof. cbn [includes]. intros H. now apply orb_false_elim in H as [_ H]. Qed.

Lemma plain_tail c r : plain_replacement (String c r) = true -> plain_replacement r = true.
Proof.
  unfold plain_replacement. rewrite !negb_true_iff, !orb_false_iff.
  intros [[[H1 H2] H3] H4].
  repeat split; eapply includes_tail; eassumption.
Qed.

Lemma substitution_plain r matched preceding following :
  plain_replacement r = true -> substitution r matched preceding following = r.
Proof.
  induction r as [|c r IH]; intros Hp; [reflexivity|].
  pose proof (IH (plain_tail _ _ Hp)) as IHr.
  cbn [substitution].
  destruct (Ascii.eqb_spec c "$") as [->|Hc]; [|now rewrite IHr].
  destruct r as [|d r]; [reflexivity|].
  unfold plain_replacement in Hp. rewrite !negb_true_iff, !orb_false_iff in Hp.
  destruct Hp as [[[H1 H2] H3] H4].
  cbn [includes String.prefix] in H1, H2, H3, H4.
  destruct (Ascii.eqb_spec d "$") as [->|H1'].
  { exfalso. destruct r; vm_compute in H1; discriminate. }
  destruct (Ascii.eqb_spec d "&") as [->|H2'].
  { exfalso. destruct r; vm_compute in H2; discriminate. }
  destruct (Ascii.eqb_spec d "`") as [->|H3'].
  { exfalso. destruct r; vm_compute in H3; discriminate. }
  destruct (Ascii.eqb_spec d "'") as [->|H4'].
  { exfalso. destruct r; vm_compute in H4; discriminate. }
  now rewrite IHr.
Qed.


Lemma substitution_dollar_free r matched preceding following :
  dollar_free r = true ->
  substitution (r ++ "$'") matched preceding following = (r ++ following)%string.
Proof.
  unfold dollar_free. induction r as [|c r IH]; cbn [every String.append]; intros H.
  - cbn. apply append_empty_r.
  - apply andb_prop in H as [Hc Hr]. apply negb_true_iff in Hc.
    cbn [substitution]. rewrite Hc. now rewrite (IH Hr).
Qed.

Lemma toUpperCase_dollar_free s : dollar_free s = true -> dollar_free (toUpperCase s) = true.
Proof.
  unfold dollar_free. induction s as [|c s IH]; cbn [every toUpperCase]; [reflexivity|].
  intros H. apply andb_prop in H as [Hc Hs]. rewrite (IH Hs), andb_true_r.
  revert Hc. destruct c as [[] [] [] [] [] [] [] []]; vm_compute; intros; congruence.
Qed.

Lemma toUpperCase_app a b : toUpperCase (a ++ b) = (toUpperCase a ++ toUpperCase b)%string.
Proof. induction a as [|c a IH]; cbn; [reflexivity | now rewrite IH]. Qed.

(** X16.  The statement of [listPackageProcedures] is its template with the
    placeholder replaced by the upper-cased package name between single
    quotes, verbatim, provided the quoted name holds no dollar pattern of
    [String.prototype.replace].  A name that ends in a dollar sign forms such
    a pattern with the closing quote: the quote is dropped and the rest of the
    template is inserted twice. *)
Theorem listPackageProcedures_statement :
  exists before after,
    listPackageProcedures_sql = (before ++ ":packageName" ++ after)%string
    /\ (forall packageName,
          plain_replacement ("'" ++ toUpperCase packageName ++ "'") = true ->
          safeSql packageName
          = (before ++ "'" ++ toUpperCase packageName ++ "'" ++ after)%string)
    /\ (forall packageName,
          dollar_free packageName = true ->
          safeSql (packageName ++ "$")
          = (before ++ "'" ++ toUpperCase packageName ++ after ++ after)%string).
Proof.
  destruct (split_at ":packageName" listPackageProcedures_sql) as [[before after]|] eqn:E;
    [|vm_compute in E; discriminate].
  exists before, after. split; [now apply split_at_sound|]. split.
  - intros packageName Hp. unfold safeSql, replace_first. rewrite E.
    rewrite substitution_plain by exact Hp. cbn [String.append].
    now rewrite !append_assoc.
  - intros packageName Hd. unfold safeSql, replace_first. rewrite E.
    rewrite toUpperCase_app.
    change (toUpperCase "$") with "$"%string.
    replace ("'" ++ (toUpperCase packageName ++ "$") ++ "'")%string
      with (("'" ++ toUpperCase packageName) ++ "$'")%string
      by (cbn [String.append]; now rewrite append_assoc).
    rewrite substitution_dollar_free.
    + cbn [String.append]. now rewrite !append_assoc.
    + unfold dollar_free in *. cbn [String.append every]. cbn.
      now apply toUpperCase_dollar_free.
Qed.

Lemma listPackageProcedures_statement_witness :
  exists before after,
    listPackageProcedures_sql = (before ++ ":packageName" ++ after)%string
    /\ safeSql "orders_api" = (before ++ "'ORDERS_API'" ++ after)%string
    /\ safeSql "sys$" = (before ++ "'SYS" ++ after ++ after)%string.
Proof.
  destruct listPackageProcedures_statement as (before & after & E & Hplain & Hdollar).
  exists before, after. split; [exact E|]. split.
  - apply (Hplain "orders_api"). reflexivity.
  - apply (Hdollar "sys"). reflexivity.
Defined.

(** Lines *)
Lemma split_lines_nonempty s : split_lines s <> [].
Proof.
  destruct s as [|c s]; cbn [split_lines]; [discriminate|].
  destruct (Ascii.eqb c (ascii_of_nat 10)); [discriminate|].
  destruct (split_lines s); discriminate.
Qed.

Lemma join_cons sep x y ys :
  join sep (x :: y :: ys) = (x ++ sep ++ join sep (y :: ys))%string.
Proof. reflexivity. Qed.

Lemma join_split s : join newline (split_lines s) = s.
Proof.
  induction s as [|c s IH]; [reflexivity|]. cbn [split_lines].
  destruct (Ascii.eqb_spec c (ascii_of_nat 10)) as [->|Hc].
  - pose proof (split_lines_nonempty s) as Hne.
    destruct (split_lines s) as [|l more]; [congruence|].
    rewrite join_cons, IH. reflexivity.
  - pose proof (split_lines_nonempty s) as Hne.
    destruct (split_lines s) as [|l more]; [congruence|].
    destruct more as [|l' more].
    + cbn in *. now rewrite IH.
    + rewrite join_cons in *. cbn [String.append]. now rewrite IH.
Qed.

Lemma split_lines_one_line s : Forall (fun l => one_line l = true) (split_lines s).
Proof.
  induction s as [|c s IH]; cbn [split_lines]; [repeat constructor|].
  destruct (Ascii.eqb c (ascii_of_nat 10)) eqn:Ec; [constructor; [reflexivity | exact IH]|].
  pose proof (split_lines_nonempty s) as Hne.
  destruct (split_lines s) as [|l more]; [congruence|].
  inversion IH as [|? ? Hl Hmore]; subst. constructor; [|exact Hmore].
  unfold one_line in *. cbn [every]. now rewrite Ec, Hl.
Qed.

Lemma split_lines_line l : one_line l = true -> split_lines l = [l].
Proof.
  unfold one_line. induction l as [|c l IH]; cbn [every split_lines]; [reflexivity|].
  intros H. apply andb_prop in H. destruct H as [Hc Hl].
  apply negb_true_iff in Hc. rewrite Hc, (IH Hl). reflexivity.
Qed.

Lemma split_lines_append l s :
  one_line l = true ->
  split_lines (l ++ newline ++ s) = l :: split_lines s.
Proof.
  unfold one_line. induction l as [|c l IH]; cbn [every String.append]; intros H.
  - reflexivity.
  - apply andb_prop in H. destruct H as [Hc Hl]. apply negb_true_iff in Hc.
    cbn [split_lines]. rewrite Hc. now rewrite (IH Hl).
Qed.

Lemma split_join ls :
  ls <> [] -> Forall (fun l => one_line l = true) ls ->
  split_lines (join newline ls) = ls.
Proof.
  induction ls as [|l ls IH]; intros Hne Hall; [congruence|].
  inversion Hall as [|? ? Hl Hls]; subst.
  destruct ls as [|l' ls].
  - cbn. now apply split_lines_line.
  - rewrite join_cons, split_lines_append by exact Hl.
    f_equal. apply IH; [discriminate | exact Hls].
Qed.

Lemma join_app sep xs ys :
  xs <> [] -> ys <> [] ->
  join sep (xs ++ ys) = (join sep xs ++ sep ++ join sep ys)%string.
Proof.
  induction xs as [|x xs IH]; intros Hx Hy; [congruence|].
  destruct xs as [|x' xs].
  - destruct ys as [|y ys]; [congruence|]. reflexivity.
  - cbn [app] in *. rewrite !join_cons, IH by (discriminate || assumption).
    now rewrite !append_assoc.
Qed.

Lemma join_concat sep (groups : list (list string)) :
  Forall (fun g => g <> []) groups ->
  join sep (map (join sep) groups) = join sep (concat groups).
Proof.
  induction groups as [|g groups IH]; intros Hall; [reflexivity|].
  inversion Hall as [|? ? Hg Hgs]; subst.
  destruct groups as [|g' groups].
  - cbn. now rewrite app_nil_r.
  - change (map (join sep) (g :: g' :: groups))
      with (join sep g :: join sep g' :: map (join sep) groups).
    rewrite join_cons.
    change (join sep g' :: map (join sep) groups) with (map (join sep) (g' :: groups)).
    rewrite IH by exact Hgs.
    change (concat (g :: g' :: groups)) with (g ++ concat (g' :: groups)).
    rewrite join_app; [reflexivity | exact Hg |].
    inversion Hgs; subst. cbn [concat]. destruct g'; [congruence | discriminate].
Qed.

Lemma tiled_app bs : forall from b,
  tiled from (bs ++ [b])
  <-> tiled from bs /\ lineEnd b = reach from bs + line_count (blk_content b).
Proof.
  induction bs as [|a bs IH]; intros from b; cbn [app tiled reach fold_left].
  - tauto.
  - fold (reach (lineEnd a) bs). rewrite IH. tauto.
Qed.

Lemma reach_app from bs b : reach from (bs ++ [b]) = lineEnd b.
Proof. unfold reach. now rewrite fold_left_app. Qed.

Lemma cut_from_push covered bs t ls start :
  cut_from covered bs ->
  ls <> [] -> Forall (fun l => one_line l = true) ls ->
  0 <= start <= len covered ->
  cut_from (covered ++ ls)
    (bs ++ [createBlock t ls start (len covered + len ls - 1)]).
Proof.
  intros (Hlines & Htiled & Hreach & Hstart & Htables) Hne Hone Hs.
  assert (Hsplit : split_lines (blk_content
                     (createBlock t ls start (len covered + len ls - 1))) = ls).
  { cbn [createBlock blk_content]. now apply split_join. }
  assert (Hcount : line_count (blk_content
                     (createBlock t ls start (len covered + len ls - 1))) = len ls).
  { unfold line_count. now rewrite Hsplit. }
  unfold cut_from. rewrite map_app, concat_app, Hlines. cbn [map concat].
  rewrite Hsplit, app_nil_r, tiled_app, reach_app, Hreach, Hcount, len_app.
  split; [reflexivity|]. split; [split; [exact Htiled | cbn; lia]|].
  split; [cbn; lia|]. split.
  - apply Forall_app. split; [exact Hstart|]. constructor; [|constructor].
    rewrite Hcount. cbn [lineStart lineEnd createBlock].
    assert (0 < len ls) by (destruct ls; [congruence | unfold len; simpl; lia]). lia.
  - apply Forall_app. split; [exact Htables|]. constructor; [reflexivity | constructor].
Qed.

Lemma parsed_flush s done :
  parsed s done -> Forall (fun l => one_line l = true) done ->
  cut_from done (flush s (len done - 1)).
Proof.
  intros (covered & -> & Hcut & Hs) Hone. unfold flush.
  destruct (currentBlock s) as [|l ls] eqn:E.
  - now rewrite app_nil_r.
  - apply Forall_app in Hone. destruct Hone as [_ Hone].
    replace (len (covered ++ l :: ls) - 1) with (len covered + len (l :: ls) - 1)
      by (rewrite len_app; lia).
    apply cut_from_push; [exact Hcut | discriminate | exact Hone | exact Hs].
Qed.

Lemma parsed_open s done raw t :
  parsed s done -> Forall (fun l => one_line l = true) done ->
  parsed (open_block s (len done) raw t) (done ++ [raw]).
Proof.
  intros Hp Hone. exists done. cbn [open_block currentBlock blocks blockStart].
  split; [reflexivity|]. split; [now apply parsed_flush|].
  pose proof (len_nonneg done). lia.
Qed.

Lemma parsed_keep s done raw t :
  parsed s done -> parsed (keep_block s raw t) (done ++ [raw]).
Proof.
  intros (covered & -> & Hcut & Hs). exists covered.
  cbn [keep_block currentBlock blocks blockStart].
  split; [now rewrite app_assoc | split; assumption].
Qed.

Lemma parsed_line s done raw :
  parsed s done -> Forall (fun l => one_line l = true) (done ++ [raw]) ->
  parsed (parse_line s (len done) raw) (done ++ [raw]).
Proof.
  intros Hp Hall. apply Forall_app in Hall as [Hone Hraw].
  unfold parse_line. cbv zeta.
  repeat match goal with
         | |- parsed (if ?b then _ else _) _ => destruct b
         end;
    try (now apply parsed_open); try (now apply parsed_keep).
  destruct Hp as (covered & -> & Hcut & Hs).
  exists (covered ++ currentBlock s ++ [raw]).
  cbn [currentBlock blocks blockStart].
  split; [now rewrite app_nil_r, app_assoc|]. split.
  - replace (len (covered ++ currentBlock s))
      with (len covered + len (currentBlock s ++ [raw]) - 1)
      by (rewrite !len_app; unfold len; simpl; lia).
    apply cut_from_push; [exact Hcut | now destruct (currentBlock s) | | exact Hs].
    apply Forall_app in Hone as [_ Hcur]. apply Forall_app. now split.
  - rewrite len_app. pose proof (len_nonneg (currentBlock s ++ [raw])). lia.
Qed.

Lemma parsed_lines lines : forall s done,
  parsed s done -> Forall (fun l => one_line l = true) (done ++ lines) ->
  parsed (parse_lines lines (len done) s) (done ++ lines).
Proof.
  induction lines as [|raw lines IH]; intros s done Hp Hall; cbn [parse_lines].
  - now rewrite app_nil_r.
  - replace (done ++ raw :: lines) with ((done ++ [raw]) ++ lines) in *
      by now rewrite <- app_assoc.
    replace (len done + 1) with (len (done ++ [raw]))
      by (rewrite len_app; reflexivity).
    apply IH; [|exact Hall].
    apply parsed_line; [exact Hp|]. now apply Forall_app in Hall as [H _].
Qed.

Lemma cut_from_nonempty covered bs : cut_from covered bs -> covered <> [] -> bs <> [].
Proof. intros (Hlines & _) Hne ->. cbn in Hlines. congruence. Qed.

(** X17.  [parseProcedureBlocks] cuts the source into consecutive blocks and
    loses nothing: the contents of the blocks, joined by line breaks, are the
    source text again.  There is at least one block, each block ends on the
    line its content ends on (the first block starts the count, the last one
    ends on the last line), no [lineStart] lies after the first line of its
    block, and the tables of a block are those of its content. *)
Theorem parseProcedureBlocks_partitions_source :
  forall sourceCode : string,
    let found := parseProcedureBlocks sourceCode in
    join newline (map blk_content found) = sourceCode
    /\ found <> []
    /\ tiled 0 found
    /\ reach 0 found = line_count sourceCode
    /\ Forall (fun b => 1 <= lineStart b <= lineEnd b - line_count (blk_content b) + 1)
         found
    /\ Forall (fun b => blk_tables b = extractTablesFromCode (blk_content b)) found.
Proof.
  intros sourceCode found.
  assert (Hcut : cut_from (split_lines sourceCode) found).
  { subst found. unfold parseProcedureBlocks. cbv zeta.
    apply parsed_flush; [|apply split_lines_one_line].
    apply (@parsed_lines (split_lines sourceCode)
             {| blocks := []; currentBlock := []; blockStart := 0;
                blockType := declaration_block |} []).
    - exists []. cbn. repeat split; try constructor; reflexivity || lia.
    - apply split_lines_one_line. }
  pose proof (@cut_from_nonempty _ _ Hcut (split_lines_nonempty sourceCode)) as Hne.
  destruct Hcut as (Hlines & Htiled & Hreach & Hstart & Htables).
  split; [|repeat split; assumption].
  transitivity (join newline (split_lines sourceCode)); [|apply join_split].
  rewrite <- Hlines.
  rewrite <- join_concat.
  - rewrite map_map. f_equal. apply map_ext. intros b. now rewrite join_split.
  - apply Forall_map. apply Forall_forall. intros b _. apply split_lines_nonempty.
Qed.

Lemma upper_ascii_facts (c : ascii) :
  upper_ascii (upper_ascii c) = upper_ascii c
  /\ (upper_ascii c = c \/ space_byte c = false /\ space_byte (upper_ascii c) = false)
  /\ ident_start (upper_ascii c) = ident_start c
  /\ ident_char (upper_ascii c) = ident_char c.
Proof.
  destruct c as [[] [] [] [] [] [] [] []];
    (split; [reflexivity | split; [|split; reflexivity]]);
    first [left; reflexivity | right; split; reflexivity].
Qed.

(** No byte of white space is a letter: upper-casing neither makes one nor
    changes one. *)
Lemma space_byte_upper (a c : ascii) :
  space_byte a = true -> Ascii.eqb (upper_ascii c) a = Ascii.eqb c a.
Proof.
  intros Ha. destruct (proj1 (proj2 (upper_ascii_facts c))) as [->|[H1 H2]]; [reflexivity|].
  destruct (Ascii.eqb_spec (upper_ascii c) a) as [E|_];
    destruct (Ascii.eqb_spec c a) as [E'|_]; try reflexivity; congruence.
Qed.

Lemma toUpperCase_idem s : toUpperCase (toUpperCase s) = toUpperCase s.
Proof.
  induction s as [|c s IH]; cbn; [reflexivity|].
  now rewrite IH, (proj1 (upper_ascii_facts c)).
Qed.

Lemma toUpperCase_length s : String.length (toUpperCase s) = String.length s.
Proof. induction s as [|c s IH]; cbn; [reflexivity | now rewrite IH]. Qed.

Lemma keyword_upper kw : forall s,
  keyword kw (toUpperCase s) = option_map toUpperCase (keyword kw s).
Proof.
  induction kw as [|k kw IH]; intros s; cbn [keyword]; [reflexivity|].
  destruct s as [|c s]; cbn [toUpperCase]; [reflexivity|].
  rewrite (proj1 (upper_ascii_facts c)).
  destruct (Ascii.eqb (upper_ascii c) (upper_ascii k)); [apply IH | reflexivity].
Qed.

Lemma strip_prefix_upper ch : forall s,
  every space_byte ch = true ->
  strip_prefix ch (toUpperCase s) = option_map toUpperCase (strip_prefix ch s).
Proof.
  induction ch as [|a ch IH]; intros s Hch; cbn [strip_prefix]; [reflexivity|].
  cbn [every] in Hch. apply andb_prop in Hch as [Ha Hch].
  destruct s as [|c s]; cbn [toUpperCase]; [reflexivity|].
  rewrite (@space_byte_upper a c Ha).
  destruct (Ascii.eqb c a); [now apply IH | reflexivity].
Qed.

Lemma strip_any_upper chars : forall s,
  Forall (fun ch => every space_byte ch = true) chars ->
  strip_any chars (toUpperCase s) = option_map toUpperCase (strip_any chars s).
Proof.
  induction chars as [|ch chars IH]; intros s Hall; cbn [strip_any]; [reflexivity|].
  inversion Hall as [|? ? Hch Hmore]; subst.
  rewrite (@strip_prefix_upper ch s Hch).
  destruct (strip_prefix ch s); cbn [option_map]; [reflexivity | now apply IH].
Qed.

Lemma space_at_upper s : space_at (toUpperCase s) = option_map toUpperCase (space_at s).
Proof.
  apply strip_any_upper. apply Forall_forall. intros ch Hin.
  exact (proj1 (proj2 (white_space_character_facts Hin))).
Qed.

Lemma skip_spaces_upto_upper fuel : forall s,
  skip_spaces_upto fuel (toUpperCase s) = toUpperCase (skip_spaces_upto fuel s).
Proof.
  induction fuel as [|fuel IH]; intros s; cbn [skip_spaces_upto]; [reflexivity|].
  rewrite space_at_upper. destruct (space_at s); cbn [option_map]; [apply IH | reflexivity].
Qed.

Lemma skip_spaces_upper s : skip_spaces (toUpperCase s) = toUpperCase (skip_spaces s).
Proof. unfold skip_spaces. rewrite toUpperCase_length. apply skip_spaces_upto_upper. Qed.

Lemma spaces_upper s : spaces (toUpperCase s) = option_map toUpperCase (spaces s).
Proof.
  unfold spaces. rewrite space_at_upper.
  destruct (space_at s); cbn [option_map]; [now rewrite skip_spaces_upper | reflexivity].
Qed.

Lemma ident_tail_upper s :
  ident_tail (toUpperCase s)
  = (toUpperCase (fst (ident_tail s)), toUpperCase (snd (ident_tail s))).
Proof.
  induction s as [|c s IH]; cbn [toUpperCase ident_tail]; [reflexivity|].
  rewrite (proj2 (proj2 (proj2 (upper_ascii_facts c)))).
  destruct (ident_char c); [|reflexivity].
  rewrite IH. now destruct (ident_tail s).
Qed.

Lemma identifier_upper s : identifier (toUpperCase s) = upper_match (identifier s).
Proof.
  destruct s as [|c s]; cbn [toUpperCase identifier]; [reflexivity|].
  rewrite (proj1 (proj2 (proj2 (upper_ascii_facts c)))).
  destruct (ident_start c); [|reflexivity].
  rewrite ident_tail_upper. now destruct (ident_tail s).
Qed.

Lemma match_here_upper keywords : forall s,
  match_here keywords (toUpperCase s) = upper_match (match_here keywords s).
Proof.
  induction keywords as [|kw more IH]; intros s; cbn [match_here].
  - apply identifier_upper.
  - rewrite keyword_upper. destruct (keyword kw s) as [s1|]; cbn; [|reflexivity].
    rewrite spaces_upper. destruct (spaces s1) as [s2|]; cbn; [apply IH | reflexivity].
Qed.

Lemma exec_all_upper keywords : forall s covered,
  exec_all keywords (toUpperCase s) covered
  = map toUpperCase (exec_all keywords s covered).
Proof.
  induction s as [|c s IH]; intros covered; [reflexivity|].
  change (toUpperCase (String c s)) with (String (upper_ascii c) (toUpperCase s)).
  cbn [exec_all]. destruct covered as [|k]; [|apply IH].
  change (String (upper_ascii c) (toUpperCase s)) with (toUpperCase (String c s)).
  rewrite match_here_upper.
  destruct (match_here keywords (String c s)) as [[name rest]|]; cbn [upper_match option_map fst snd map].
  - rewrite !toUpperCase_length. f_equal. apply IH.
  - apply IH.
Qed.

Lemma fold_note_upper operation captures : forall t : TableOps,
  fold_left (note_match operation) (map toUpperCase captures) t
  = fold_left (note_match operation) captures t.
Proof.
  induction captures as [|c cs IH]; intros t; cbn [map fold_left]; [reflexivity|].
  rewrite IH. f_equal. unfold note_match. now rewrite toUpperCase_idem.
Qed.

Lemma analyzeProcedureTables_upper s :
  analyzeProcedureTables (toUpperCase s) = analyzeProcedureTables s.
Proof.
  unfold analyzeProcedureTables. generalize (@nil (string * list string)).
  induction patterns as [|e ps IH]; intros t; cbn [fold_left]; [reflexivity|].
  rewrite IH. f_equal. rewrite exec_all_upper. apply fold_note_upper.
Qed.

(** X18.  [analyzeProcedureTables] does not depend on the case of the ASCII
    letters of its input: two source texts that are the same byte for byte
    but for the case of the letters [a] to [z] are mapped to the same tables
    and operations, in the same order.  Letters outside ASCII are not
    concerned: the expressions match none, and a text that differs from
    another in such a letter is another text. *)
Theorem analyzeProcedureTables_ignores_case :
  forall s s' : string,
    same_but_case s s' = true ->
    analyzeProcedureTables s = analyzeProcedureTables s'.
Proof.
  intros s s' E. apply same_but_case_upper in E.
  rewrite <- (analyzeProcedureTables_upper s), <- (analyzeProcedureTables_upper s').
  now rewrite E.
Qed.

Lemma analyzeProcedureTables_ignores_case_witness :
  analyzeProcedureTables "insert into Orders select * from Customers"
  = analyzeProcedureTables "INSERT INTO ORDERS SELECT * FROM CUSTOMERS".
Proof. apply analyzeProcedureTables_ignores_case. reflexivity. Defined.

(** Where a match can end when it starts before a character that none of
    its parts can hold. *)
Lemma keyword_before kw (d : ascii) Y : forall u s1,
  (forall a, In a (list_ascii_of_string kw) -> upper_ascii d <> upper_ascii a) ->
  keyword kw (u ++ String d Y) = Some s1 ->
  exists u1, s1 = (u1 ++ String d Y)%string.
Proof.
  induction kw as [|a kw IH]; intros u s1 Hd; cbn [keyword].
  - intros [= <-]. now exists u.
  - destruct u as [|c u]; cbn [String.append].
    + destruct (Ascii.eqb_spec (upper_ascii d) (upper_ascii a)) as [E|_]; [|discriminate].
      exfalso. apply (Hd a); [now left | exact E].
    + destruct (Ascii.eqb (upper_ascii c) (upper_ascii a)); [|discriminate].
      apply IH. intros a' Ha'. apply Hd. now right.
Qed.

Lemma prefix_before (P : ascii -> bool) (d : ascii) Y : forall sp s u,
  every P sp = true -> P d = false ->
  (sp ++ s = u ++ String d Y)%string ->
  exists u1, s = (u1 ++ String d Y)%string.
Proof.
  induction sp as [|c sp IH]; intros s u Hsp Hd E; cbn [String.append] in E.
  - now exists u.
  - cbn [every] in Hsp. apply andb_prop in Hsp as [Hc Hsp].
    destruct u as [|x u]; cbn [String.append] in E; injection E as -> E.
    + congruence.
    + now apply (IH s u).
Qed.

Lemma spaces_before (d : ascii) Y u s :
  space_byte d = false ->
  spaces (u ++ String d Y) = Some s ->
  exists u1, s = (u1 ++ String d Y)%string.
Proof.
  intros Hd E. destruct (spaces_shape _ E) as (sp & Es & _ & Hsp & _).
  apply white_space_bytes in Hsp.
  apply (@prefix_before space_byte d Y sp s u Hsp Hd). now symmetry.
Qed.

Lemma ident_tail_before (d : ascii) Y : forall x name rest,
  ident_char d = false ->
  ident_tail (x ++ String d Y) = (name, rest) ->
  exists x1, rest = (x1 ++ String d Y)%string.
Proof.
  intros x name rest Hd. revert name rest.
  induction x as [|c x IH]; intros name rest; cbn [String.append ident_tail].
  - rewrite Hd. intros [= <- <-]. now exists EmptyString.
  - destruct (ident_char c).
    + destruct (ident_tail (x ++ String d Y)) as [n r] eqn:E. intros [= <- <-].
      now apply (IH n r).
    + intros [= <- <-]. now exists (String c x).
Qed.

Lemma identifier_before (d : ascii) Y x name rest :
  ident_char d = false ->
  identifier (x ++ String d Y) = Some (name, rest) ->
  exists x1, rest = (x1 ++ String d Y)%string.
Proof.
  intros Hd. destruct x as [|c x]; cbn [String.append identifier].
  - assert (ident_start d = false) as ->; [|discriminate].
    unfold ident_char in Hd. now apply orb_false_elim in Hd as [H _].
  - destruct (ident_start c); [|discriminate].
    destruct (ident_tail (x ++ String d Y)) as [n r] eqn:E. intros [= <- <-].
    now apply (ident_tail_before _ _ _ Hd E).
Qed.

Lemma space_facts (c : ascii) :
  space_byte c = true ->
  ident_char c = false /\ Ascii.eqb (upper_ascii c) "F" = false.
Proof.
  destruct c as [[] [] [] [] [] [] [] []]; vm_compute; intros H; try discriminate; auto.
Qed.

Lemma every_upper (P : ascii -> bool) s :
  every (fun c => P (upper_ascii c)) s = every P (toUpperCase s).
Proof. induction s as [|c s IH]; cbn; [reflexivity | now rewrite IH]. Qed.

Lemma every_suffix (P : ascii -> bool) q : forall x,
  every P (q ++ x) = true -> every P x = true.
Proof.
  induction q as [|c q IH]; intros x H; [exact H|].
  cbn in H. apply andb_prop in H as [_ H]. now apply IH.
Qed.

(** A suffix of a concatenation holds the second part, or is held by it. *)
Lemma suffix_of_append (b : string) : forall a p x,
  (a ++ b = p ++ x)%string ->
  (exists u, x = (u ++ b)%string /\ a = (p ++ u)%string)
  \/ (exists q, b = (q ++ x)%string).
Proof.
  induction a as [|c a IH]; intros p x H; cbn [String.append] in H.
  - right. now exists p.
  - destruct p as [|d p]; cbn [String.append] in H.
    + left. exists (String c a). now split.
    + injection H as -> H. destruct (IH p x H) as [(u & -> & ->)|(q & ->)].
      * left. exists u. now split.
      * right. now exists q.
Qed.

Lemma from_needs_F c s :
  Ascii.eqb (upper_ascii c) "F" = false -> match_here ["FROM"%string] (String c s) = None.
Proof.
  intros H. cbn [match_here keyword]. change (upper_ascii "F") with "F"%char.
  now rewrite H.
Qed.

Section DeleteIsSelect.

(** A match of the DELETE expression: the keyword [k], the white space [sp]
    after it, and from there on a match of the FROM expression. *)
Variable name rest from : string.
Variable d s0 : ascii.
Variable k' sp' : string.

Local Abbreviation k := (String d k').
Local Abbreviation sp := (String s0 sp').

Hypothesis k_spells : toUpperCase k = "DELETE"%string.
Hypothesis sp_spaces : every space_byte sp = true.
Hypothesis from_matches : match_here ["FROM"%string] from = Some (name, rest).

Lemma found_after_spaces : forall x,
  every space_byte x = true -> In name (exec_all ["FROM"%string] (x ++ from) 0).
Proof.
  induction x as [|c x IH]; intros Hx; cbn [String.append].
  - rewrite (exec_all_match _ _ from_matches). now left.
  - cbn [every] in Hx. apply andb_prop in Hx as [Hc Hx].
    rewrite exec_all_miss; [now apply IH|].
    apply from_needs_F. exact (proj2 (space_facts _ Hc)).
Qed.

Lemma found_after_letters : forall x,
  every (fun c => negb (Ascii.eqb (upper_ascii c) "F")) x = true ->
  In name (exec_all ["FROM"%string] (x ++ sp ++ from) 0).
Proof.
  induction x as [|c x IH]; intros Hx.
  - apply (found_after_spaces sp sp_spaces).
  - cbn [every] in Hx. apply andb_prop in Hx as [Hc Hx].
    change (String c x ++ sp ++ from)%string with (String c (x ++ sp ++ from)).
    rewrite exec_all_miss; [now apply IH|].
    apply from_needs_F. now apply negb_true_iff in Hc.
Qed.

Lemma k_letters : every (fun c => negb (Ascii.eqb (upper_ascii c) "F")) k = true.
Proof.
  rewrite (every_upper (fun c => negb (Ascii.eqb c "F"))), k_spells. reflexivity.
Qed.

(** A match of the FROM expression that starts before the keyword ends
    before the white space. *)
Lemma ends_before_spaces u name' r :
  match_here ["FROM"%string] (u ++ k ++ sp ++ from) = Some (name', r) ->
  exists x1, r = (x1 ++ sp ++ from)%string.
Proof.
  intros Em.
  assert (Hd : upper_ascii d = "D"%char) by (cbn in k_spells; congruence).
  pose proof sp_spaces as Hsp. cbn [every] in Hsp. apply andb_prop in Hsp as [Hs0 _].
  cbn [match_here] in Em.
  destruct (keyword "FROM" (u ++ k ++ sp ++ from)) as [s1|] eqn:E1; [|discriminate].
  apply keyword_before in E1.
  2:{ intros a Ha. rewrite Hd. cbn in Ha.
      destruct Ha as [<-|[<-|[<-|[<-|[]]]]]; discriminate. }
  destruct E1 as (u1 & ->).
  match type of Em with context [spaces ?t] =>
    destruct (spaces t) as [s2|] eqn:E2; [|discriminate]
  end.
  apply spaces_before in E2.
  2:{ revert Hd. clear. destruct d as [[] [] [] [] [] [] [] []]; vm_compute; intros; congruence. }
  destruct E2 as (u2 & ->).
  cbn [match_here] in Em.
  match type of Em with identifier ?t = _ =>
    replace t with ((u2 ++ k) ++ String s0 (sp' ++ from))%string in Em
      by (rewrite append_assoc; reflexivity)
  end.
  apply identifier_before in Em; [|exact (proj1 (space_facts _ Hs0))].
  exact Em.
Qed.

Lemma found_before_delete n : forall u,
  (String.length u <= n)%nat ->
  In name (exec_all ["FROM"%string] (u ++ k ++ sp ++ from) 0).
Proof.
  induction n as [|n IH]; intros u Hn.
  - destruct u; [|cbn in Hn; lia]. apply found_after_letters, k_letters.
  - destruct u as [|c u]; [apply found_after_letters, k_letters|].
    cbn [String.length] in Hn.
    destruct (match_here ["FROM"%string] (String c u ++ k ++ sp ++ from))
      as [[name' r]|] eqn:Em.
    2:{ change (String c u ++ k ++ sp ++ from)%string
          with (String c (u ++ k ++ sp ++ from)) in *.
        rewrite exec_all_miss by exact Em. apply IH. lia. }
    rewrite (exec_all_match _ _ Em). right.
    destruct (ends_before_spaces _ Em) as (x1 & ->).
    destruct (match_here_shape _ _ Em) as (lead & E & Hlead & (i & tail & -> & _) & _).
    assert (Hsuffix : (String c u ++ k = (lead ++ String i tail) ++ x1)%string).
    { apply (append_inv_tail _ _ (sp ++ from)). rewrite !append_assoc. exact E. }
    destruct (suffix_of_append k (String c u) (lead ++ String i tail) x1 Hsuffix)
      as [(u' & -> & Hu)|(q & Hq)].
    + rewrite append_assoc. apply IH. apply (f_equal String.length) in Hu.
      rewrite !length_append in Hu. cbn [String.length] in Hu. lia.
    + apply found_after_letters. apply (every_suffix _ q). rewrite <- Hq. apply k_letters.
Qed.

End DeleteIsSelect.

Lemma delete_match_is_select_match text :
  forall name,
    In name (exec_all ["DELETE"; "FROM"]%string text 0) ->
    In name (exec_all ["FROM"%string] text 0).
Proof.
  intros name Hin.
  destruct (exec_all_occurs _ _ _ _ Hin) as (before & here & rest & -> & Hm).
  cbn [match_here] in Hm.
  destruct (keyword "DELETE" here) as [s1|] eqn:Ek; [|discriminate].
  destruct (spaces s1) as [s2|] eqn:Es; [|discriminate].
  destruct (keyword_shape _ _ Ek) as (k & -> & Hk).
  destruct (spaces_shape _ Es) as (sp & -> & Hsp & Hall & _).
  apply white_space_bytes in Hall. apply same_but_case_upper in Hk.
  destruct k as [|d k']; [discriminate|].
  destruct sp as [|s0 sp']; [congruence|].
  apply (@found_before_delete name rest s2 d s0 k' sp' Hk Hall Hm (String.length before)).
  lia.
Qed.

(** X19.  [analyzeProcedureTables] never reports a table as deleted from
    without also reporting it as selected from: the expression for SELECT is
    the tail of the expression for DELETE, so in any text every table that
    the result maps to [DELETE] it also maps to [SELECT]. *)
Theorem analyzeProcedureTables_delete_is_select :
  forall (text T : string),
    maps_to (analyzeProcedureTables text) T "DELETE" ->
    maps_to (analyzeProcedureTables text) T "SELECT".
Proof.
  intros text T. unfold analyzeProcedureTables. rewrite !fold_patterns_spec.
  intros [(? & [] & _)|(entry & Hentry & Hop & HT)]. right.
  exists ("select", ["FROM"])%string. split; [now left|]. split; [reflexivity|].
  cbn [patterns In] in Hentry.
  destruct Hentry as [<-|[<-|[<-|[<-|[<-|[]]]]]]; try discriminate Hop.
  cbn [snd] in *. apply in_map_iff in HT. destruct HT as (name & <- & Hin).
  apply in_map. now apply delete_match_is_select_match.
Qed.

Lemma analyzeProcedureTables_delete_is_select_witness :
  maps_to (analyzeProcedureTables "delete from audit_log where day < :d")
    "AUDIT_LOG" "SELECT".
Proof.
  apply analyzeProcedureTables_delete_is_select.
  exists ["SELECT"; "DELETE"]%string. split; [now left | right; now left].
Defined.

Lemma match_any_upper alternatives : forall s,
  match_any alternatives (toUpperCase s) = upper_match (match_any alternatives s).
Proof.
  induction alternatives as [|kw more IH]; intros s; cbn [match_any]; [reflexivity|].
  rewrite match_here_upper.
  destruct (match_here [kw] s) as [[name rest]|]; cbn; [reflexivity | apply IH].
Qed.

Lemma exec_any_upper alternatives : forall s covered,
  exec_any alternatives (toUpperCase s) covered
  = map toUpperCase (exec_any alternatives s covered).
Proof.
  induction s as [|c s IH]; intros covered; [reflexivity|].
  change (toUpperCase (String c s)) with (String (upper_ascii c) (toUpperCase s)).
  cbn [exec_any]. destruct covered as [|k]; [|apply IH].
  change (String (upper_ascii c) (toUpperCase s)) with (toUpperCase (String c s)).
  rewrite match_any_upper.
  destruct (match_any alternatives (String c s)) as [[name rest]|];
    cbn [upper_match option_map fst snd map].
  - rewrite !toUpperCase_length. f_equal. apply IH.
  - apply IH.
Qed.

Lemma match_any_found alternatives : forall s name rest,
  match_any alternatives s = Some (name, rest) ->
  exists kw, In kw alternatives /\ match_here [kw] s = Some (name, rest).
Proof.
  induction alternatives as [|kw more IH]; intros s name rest; cbn [match_any];
    [discriminate|].
  destruct (match_here [kw] s) as [found|] eqn:E.
  - intros [= ->]. exists kw. split; [now left | exact E].
  - intros H. destruct (IH _ _ _ H) as (kw' & Hin & Hm). exists kw'. split; [now right | exact Hm].
Qed.

Lemma exec_any_occurs alternatives : forall src covered name,
  In name (exec_any alternatives src covered) ->
  exists kw, In kw alternatives /\ occurs [kw] src name.
Proof.
  assert (Hshift : forall c src name,
             (exists kw, In kw alternatives /\ occurs [kw] src name) ->
             exists kw, In kw alternatives /\ occurs [kw] (String c src) name).
  { intros c src name (kw & Hin & before & here & rest & -> & Hm).
    exists kw. split; [exact Hin|].
    exists (String c before), here, rest. split; [reflexivity | exact Hm]. }
  intros src. induction src as [|c src IH]; intros covered name; cbn [exec_any];
    [intros []|].
  destruct covered as [|k]; [|intros H; eauto].
  destruct (match_any alternatives (String c src)) as [[n rest]|] eqn:Em.
  - intros [<-|H]; [|eauto].
    destruct (match_any_found _ _ Em) as (kw & Hin & Hm).
    exists kw. split; [exact Hin|].
    exists EmptyString, (String c src), rest. split; [reflexivity | exact Hm].
  - intros H. eauto.
Qed.

Lemma fold_add_spec (captures : list string) : forall (tables : list string) T,
  In T (fold_left (fun tables capture => add tables (toUpperCase capture)) captures tables)
  <-> In T tables \/ In T (map toUpperCase captures).
Proof.
  induction captures as [|c cs IH]; intros tables T; cbn [fold_left map In].
  - tauto.
  - rewrite IH, add_spec. intuition.
Qed.

Lemma fold_add_NoDup (captures : list string) : forall tables : list string,
  NoDup tables ->
  NoDup (fold_left (fun tables capture => add tables (toUpperCase capture)) captures tables).
Proof.
  induction captures as [|c cs IH]; intros tables H; cbn [fold_left]; [exact H|].
  apply IH. now apply add_NoDup.
Qed.

Lemma fold_add_upper (captures : list string) : forall tables : list string,
  fold_left (fun tables capture => add tables (toUpperCase capture))
    (map toUpperCase captures) tables
  = fold_left (fun tables capture => add tables (toUpperCase capture)) captures tables.
Proof.
  induction captures as [|c cs IH]; intros tables; cbn [map fold_left]; [reflexivity|].
  now rewrite IH, toUpperCase_idem.
Qed.

Lemma extractTablesFromCode_upper code :
  extractTablesFromCode (toUpperCase code) = extractTablesFromCode code.
Proof. unfold extractTablesFromCode. rewrite exec_any_upper. apply fold_add_upper. Qed.

(** X20.  [extractTablesFromCode] returns a list without repetition; it holds
    a name exactly when the expression matches with that name, upper-cased, as
    its identifier; every match is an occurrence in the code of one of the
    four keywords FROM, INTO, UPDATE and JOIN, in any case, followed by white
    space and a whole identifier; and the result does not depend on the case
    of the ASCII letters of the code: two codes that are the same byte for
    byte but for the case of the letters [a] to [z] have the same tables. *)
Theorem extractTablesFromCode_set_of_tables :
  forall code : string,
    NoDup (extractTablesFromCode code)
    /\ (forall T, In T (extractTablesFromCode code)
                  <-> In T (map toUpperCase (exec_any table_keywords code 0)))
    /\ (forall name, In name (exec_any table_keywords code 0) ->
          exists kw before lead rest,
            In kw table_keywords
            /\ code = (before ++ lead ++ name ++ rest)%string
            /\ spells [kw] lead /\ is_identifier name /\ ends_identifier rest)
    /\ (forall code', same_but_case code' code = true ->
          extractTablesFromCode code' = extractTablesFromCode code).
Proof.
  intros code. split; [|split; [|split]].
  - apply fold_add_NoDup. constructor.
  - intros T. unfold extractTablesFromCode. rewrite fold_add_spec. cbn. tauto.
  - intros name Hin.
    destruct (exec_any_occurs _ _ _ _ Hin) as (kw & Hkw & before & here & rest & -> & Hm).
    destruct (match_here_shape _ _ Hm) as (lead & -> & Hlead & Hn & Hr).
    exists kw, before, lead, rest. auto.
  - intros code' E. apply same_but_case_upper in E.
    rewrite <- (extractTablesFromCode_upper code'), <- (extractTablesFromCode_upper code).
    now rewrite E.
Qed.

Lemma settles_outside {W A} (f : W -> result A * W) : settles (outside f).
Proof. intros w. unfold outside. destruct (f w) as [[a|e] w']; discriminate. Qed.

Ltac loader_settles :=
  structurally ltac:(first [ apply settles_outside | settle_step ]).

Section Loader.

Variable W : Type.
Variable host : Host W.

Lemma settles_createConnection id' uri : settles (createConnection host id' uri).
Proof.
  unfold createConnection, createOracleConnection, createPostgresConnection,
    createMysqlConnection, createSqlServerConnection, createSqliteConnection.
  loader_settles.
Qed.

(** What a step of the chain of binds returns. *)
Lemma bind_returns {A B} (m : St W A) (k : A -> St W B) w b w' :
  bind m k w = (Return b, w') ->
  exists a w1, m w = (Return a, w1) /\ k a w1 = (Return b, w').
Proof.
  unfold bind. destruct (m w) as [[a|e|] w1]; try discriminate. eauto.
Qed.

Lemma of_result_returns {A} (r : result A) (w : W) a w' :
  of_result r w = (Return a, w') -> r = Ok a /\ w' = w.
Proof. unfold of_result. destruct r; cbn; [intros [= -> ->]; auto | discriminate]. Qed.

Lemma ret_returns {A} (a b : A) (w w' : W) : ret a w = (Return b, w') -> a = b /\ w = w'.
Proof. unfold ret. intros [= -> ->]. auto. Qed.

Ltac returned H :=
  repeat (cbv zeta in H;
          match type of H with
          | bind _ _ _ = (Return _, _) =>
              let a := fresh "a" in
              let w1 := fresh "w" in
              let H1 := fresh "H" in
              apply bind_returns in H; destruct H as (a & w1 & H1 & H)
          end);
  cbv zeta in H; apply ret_returns in H; destruct H as [H _].

Lemma createConnection_made id' uri w conn w' :
  createConnection host id' uri w = (Return conn, w') ->
  id conn = id'
  /\ exists url,
       parse_address host uri = Ok url
       /\ match vendor_of conn with
          | oracle =>
              replace_first (protocol url) ":" "" = "oracle"%string
              /\ (exists user, decodeURIComponent host (username url) = Ok user
                               /\ schema (config conn) = Some (toUpperCase user))
          | postgresql =>
              (replace_first (protocol url) ":" "" = "postgres"%string
               \/ replace_first (protocol url) ":" "" = "postgresql"%string)
              /\ schema (config conn) = Some "public"%string
              /\ connectionString conn = uri
          | mysql =>
              replace_first (protocol url) ":" "" = "mysql"%string
              /\ schema (config conn) = None
              /\ database (config conn)
                 = match new_URL host uri with
                   | Ok parsed => Some (substring_from 1 (pathname parsed))
                   | Err _ => None
                   end
              /\ connectionString conn = uri
          | sqlserver =>
              (replace_first (protocol url) ":" "" = "sqlserver"%string
               \/ replace_first (protocol url) ":" "" = "mssql"%string)
              /\ schema (config conn) = Some "dbo"%string
          | sqlite =>
              (replace_first (protocol url) ":" "" = "sqlite"%string
               \/ replace_first (protocol url) ":" "" = "file"%string)
              /\ schema (config conn) = None
          | mariadb | other_vendor _ => False
          end.
Proof.
  unfold createConnection. intros H.
  apply bind_returns in H. destruct H as (url & w1 & Hurl & H).
  apply of_result_returns in Hurl. destruct Hurl as [Hurl ->].
  cbv zeta in H.
  destruct (String.eqb_spec (replace_first (protocol url) ":" "") "oracle") as [Ep|_]; cbn [orb] in H.
  { unfold createOracleConnection in H. returned H. subst conn. cbn.
    split; [reflexivity|]. exists url. split; [exact Hurl|]. split; [exact Ep|].
    apply of_result_returns in H0. destruct H0 as [H0 _]. eauto. }
  destruct (String.eqb_spec (replace_first (protocol url) ":" "") "postgres") as [Ep|_]; cbn [orb] in H.
  { unfold createPostgresConnection in H. returned H. subst conn. cbn.
    split; [reflexivity|]. exists url. auto. }
  destruct (String.eqb_spec (replace_first (protocol url) ":" "") "postgresql") as [Ep|_]; cbn [orb] in H.
  { unfold createPostgresConnection in H. returned H. subst conn. cbn.
    split; [reflexivity|]. exists url. auto. }
  destruct (String.eqb_spec (replace_first (protocol url) ":" "") "mysql") as [Ep|_]; cbn [orb] in H.
  { unfold createMysqlConnection in H. returned H. subst conn. cbn.
    split; [reflexivity|]. exists url. split; [exact Hurl|]. split; [exact Ep|].
    auto. }
  destruct (String.eqb_spec (replace_first (protocol url) ":" "") "sqlserver") as [Ep|_]; cbn [orb] in H.
  { unfold createSqlServerConnection in H. returned H. subst conn. cbn.
    split; [reflexivity|]. exists url. auto. }
  destruct (String.eqb_spec (replace_first (protocol url) ":" "") "mssql") as [Ep|_]; cbn [orb] in H.
  { unfold createSqlServerConnection in H. returned H. subst conn. cbn.
    split; [reflexivity|]. exists url. auto. }
  destruct (String.eqb_spec (replace_first (protocol url) ":" "") "sqlite") as [Ep|_]; cbn [orb] in H.
  { unfold createSqliteConnection in H. returned H. subst conn. cbn.
    split; [reflexivity|]. exists url. auto. }
  destruct (String.eqb_spec (replace_first (protocol url) ":" "") "file") as [Ep|_]; cbn [orb] in H.
  { unfold createSqliteConnection in H. returned H. subst conn. cbn.
    split; [reflexivity|]. exists url. auto. }
  discriminate.
Qed.

End Loader.

Lemma prefix_split lead : forall s,
  String.prefix lead s = true -> s = (lead ++ substring_from (String.length lead) s)%string.
Proof.
  induction lead as [|k lead IH]; intros s; [now destruct s|].
  destruct s as [|c s]; cbn [String.prefix]; [discriminate|].
  destruct (ascii_dec k c) as [->|]; [|discriminate].
  intros H. cbn. now rewrite <- (IH s H).
Qed.

Section LoaderLoop.

Variable W : Type.
Variable host : Host W.

Lemma from_flag_later arg args c : from_flag args c -> from_flag (arg :: args) c.
Proof.
  intros (before & value & following & -> & Hv).
  exists (arg :: before), value, following. split; [reflexivity | exact Hv].
Qed.

Lemma load_from_loads n : forall args connections (w : W),
  (length args <= n)%nat ->
  exists loaded w',
    load_from host args connections w = (Return (connections ++ loaded), w')
    /\ Forall (from_flag args) loaded
    /\ (2 * length loaded <= length args)%nat.
Proof.
  induction n as [|n IH]; intros args connections w Hn.
  - destruct args; [|cbn in Hn; lia].
    exists [], w. cbn. rewrite app_nil_r. repeat split; [constructor | lia].
  - destruct args as [|arg rest].
    { exists [], w. cbn. rewrite app_nil_r. repeat split; [constructor | lia]. }
    cbn [length] in Hn.
    assert (Hskip : exists loaded w',
               load_from host rest connections w = (Return (connections ++ loaded), w')
               /\ Forall (from_flag (arg :: rest)) loaded
               /\ (2 * length loaded <= length (arg :: rest))%nat).
    { destruct (IH rest connections w ltac:(lia)) as (loaded & w' & E & Hall & Hlen).
      exists loaded, w'. split; [exact E|]. split.
      - eapply Forall_impl; [|exact Hall]. intros c. apply from_flag_later.
      - cbn [length]. lia. }
    cbn [load_from]. destruct rest as [|value following].
    { exists [], w. cbn. rewrite app_nil_r. repeat split; [constructor | lia]. }
    destruct (startsWith arg "--") eqn:Eflag; [|exact Hskip].
    destruct (startsWith value "--") eqn:Evalue; [exact Hskip|].
    destruct (createConnection host (substring_from 2 arg) value w)
      as [[conn|e|] w1] eqn:Ec.
    + destruct (IH following (connections ++ [conn]) w1 ltac:(cbn [length] in Hn; lia))
        as (loaded & w' & E & Hall & Hlen).
      exists (conn :: loaded), w'. rewrite E, <- app_assoc. split; [reflexivity|].
      split; [|cbn [length]; lia].
      constructor.
      * exists [], value, following. split; [|exact Evalue].
        apply createConnection_made in Ec. destruct Ec as [-> _].
        cbn [app]. f_equal. apply (prefix_split "--" arg Eflag).
      * eapply Forall_impl; [|exact Hall]. intros c Hc.
        now apply from_flag_later, from_flag_later.
    + destruct (IH (value :: following) connections w1 ltac:(lia))
        as (loaded & w' & E & Hall & Hlen).
      exists loaded, w'. split; [exact E|]. split.
      * eapply Forall_impl; [|exact Hall]. intros c. apply from_flag_later.
      * cbn [length] in *. lia.
    + exfalso. pose proof (settles_createConnection host (substring_from 2 arg) value w) as Hs.
      rewrite Ec in Hs. now apply Hs.
Qed.

End LoaderLoop.

Section Registry.

Variable W : Type.
Variable host : Host W.

Lemma find_activate_same connections id' conn :
  id conn = id' -> find_connection (activate connections id' conn) id' = Some conn.
Proof.
  intros Hid. unfold find_connection.
  induction connections as [|c rest IH]; cbn [activate find].
  - now rewrite Hid, String.eqb_refl.
  - destruct (String.eqb_spec (id c) id') as [E|Hne]; cbn [find].
    + now rewrite Hid, String.eqb_refl.
    + destruct (String.eqb_spec (id c) id'); [congruence | exact IH].
Qed.

Lemma find_activate_other connections id' conn other :
  id conn = id' -> other <> id' ->
  find_connection (activate connections id' conn) other = find_connection connections other.
Proof.
  intros Hid Hother. unfold find_connection.
  induction connections as [|c rest IH]; cbn [activate find].
  - destruct (String.eqb_spec (id conn) other); [congruence | reflexivity].
  - destruct (String.eqb_spec (id c) id') as [E|Hne]; cbn [find].
    + destruct (String.eqb_spec (id conn) other); [congruence|].
      destruct (String.eqb_spec (id c) other); [congruence | reflexivity].
    + destruct (String.eqb_spec (id c) other); [reflexivity | exact IH].
Qed.

Lemma activate_ids connections id' conn :
  id conn = id' ->
  map id (activate connections id' conn)
  = if existsb (String.eqb id') (map id connections) then map id connections
    else map id connections ++ [id'].
Proof.
  intros Hid. induction connections as [|c rest IH]; cbn [activate map existsb app].
  - now rewrite Hid.
  - rewrite (String.eqb_sym id' (id c)).
    destruct (String.eqb_spec (id c) id') as [E|Hne]; cbn [map orb].
    + now rewrite Hid, E.
    + rewrite IH. now destruct (existsb (String.eqb id') (map id rest)).
Qed.

Lemma find_filter_same connections id' :
  find_connection (filter (fun c => negb (id c =? id')%string) connections) id' = None.
Proof.
  unfold find_connection. induction connections as [|c rest IH]; cbn [filter find];
    [reflexivity|].
  destruct (String.eqb_spec (id c) id') as [E|Hne]; cbn [negb find]; [exact IH|].
  destruct (String.eqb_spec (id c) id'); [congruence | exact IH].
Qed.

Lemma find_filter_other connections id' other :
  other <> id' ->
  find_connection (filter (fun c => negb (id c =? id')%string) connections) other
  = find_connection connections other.
Proof.
  intros Hother. unfold find_connection.
  induction connections as [|c rest IH]; cbn [filter find]; [reflexivity|].
  destruct (String.eqb_spec (id c) id') as [E|Hne]; cbn [negb find].
  - destruct (String.eqb_spec (id c) other); [congruence | exact IH].
  - destruct (String.eqb_spec (id c) other); [reflexivity | exact IH].
Qed.

End Registry.

(** X21.  The [save_connection] handler always answers.  An error reply
    leaves the registry as it was.  After any other reply the new connection is
    the one [getConnection] finds under the saved name, every other name is
    looked up as before, and the names of the registry are the same in the
    same order, with the saved name added at the end when it was new. *)
Theorem save_connection_then_lookup :
  forall W (host : Host W) (id' vendor' connectionString' : string)
         (w : W) (registry : list DatabaseConnection),
  exists reply w' registry',
    save_connection host id' vendor' connectionString' (w, registry)
    = (Return reply, (w', registry'))
    /\ (isError reply = true -> registry' = registry)
    /\ (isError reply = false ->
        (exists conn w1,
            createConnection host id' connectionString' w = (Return conn, w1)
            /\ find_connection registry' id' = Some conn
            /\ forall S (w0 : world S),
                 @getConnection S registry' id' w0 = (Return conn, w0))
        /\ (forall other, other <> id' ->
              find_connection registry' other = find_connection registry other)
        /\ map id registry'
           = if existsb (String.eqb id') (map id registry) then map id registry
             else map id registry ++ [id']).
Proof.
  intros W host id' vendor' connectionString' w registry.
  unfold save_connection, try_catch, bind, outward, outside, ret. cbn [fst snd].
  pose proof (settles_createConnection host id' connectionString' w) as Hs.
  destruct (createConnection host id' connectionString' w) as [[conn|e|] w1] eqn:Ec;
    cbn [fst] in Hs; [| |congruence].
  2:{ do 3 eexists. split; [reflexivity|]. split; [reflexivity | discriminate]. }
  cbn [fst snd].
  match goal with
  | |- context [store_saveConnection host ?cfg w1] =>
      destruct (store_saveConnection host cfg w1) as [[[]|e] w2]; cbn [settle fst snd]
  end.
  2:{ do 3 eexists. split; [reflexivity|]. split; [reflexivity | discriminate]. }
  do 3 eexists. split; [reflexivity|]. split; [discriminate|]. intros _.
  pose proof (createConnection_made host id' connectionString' w Ec) as [Hid _].
  split; [|split].
  - exists conn, w1. split; [reflexivity|].
    pose proof (find_activate_same registry conn Hid) as Hfound.
    split; [exact Hfound|]. intros S w0. unfold getConnection.
    unfold find_connection in Hfound. now rewrite Hfound.
  - intros other Hother. now apply find_activate_other.
  - now apply activate_ids.
Qed.

(** X22.  The [remove_connection] handler always answers.  An error reply
    leaves the registry as it was.  After any other reply [getConnection]
    throws the not-found error for the removed name, every connection of that
    name is gone and every other name is looked up as before. *)
Theorem remove_connection_then_lookup :
  forall W (host : Host W) (id' : string) (w : W) (registry : list DatabaseConnection),
  exists reply w' registry',
    remove_connection host id' (w, registry) = (Return reply, (w', registry'))
    /\ (isError reply = true -> registry' = registry)
    /\ (isError reply = false ->
        find_connection registry' id' = None
        /\ (forall S (w0 : world S),
              @getConnection S registry' id' w0
              = (Throw ("Connection '" ++ id' ++ "' not found")%string, w0))
        /\ (forall other, other <> id' ->
              find_connection registry' other = find_connection registry other)
        /\ registry' = filter (fun c => negb (id c =? id')%string) registry).
Proof.
  intros W host id' w registry.
  unfold remove_connection, try_catch, bind, outward, outside, ret. cbn [fst snd].
  destruct (store_removeConnection host id' w) as [[[]|e] w1]; cbn [settle fst snd].
  - do 3 eexists. split; [reflexivity|]. split; [discriminate|]. intros _.
    split; [apply find_filter_same|]. split; [|split; [|reflexivity]].
    + intros S w0. unfold getConnection.
      pose proof (find_filter_same registry id') as Hgone.
      unfold find_connection in Hgone. now rewrite Hgone.
    + intros other Hother. now apply find_filter_other.
  - do 3 eexists. split; [reflexivity|]. split; [reflexivity | discriminate].
Qed.

Section LoadRegistry.

Variable W : Type.
Variable host : Host W.

Lemma load_stored_loads cli storedConfigs : forall storedConnections (w : W),
  exists more w',
    load_stored host cli storedConfigs storedConnections w
    = (Return (storedConnections ++ more), w')
    /\ Forall (fun c => find_connection cli (id c) = None
                        /\ In (id c) (map stored_id storedConfigs)) more.
Proof.
  induction storedConfigs as [|stored rest IH]; intros storedConnections w;
    cbn [load_stored].
  - exists [], w. rewrite app_nil_r. split; [reflexivity | constructor].
  - assert (Hlater : forall more,
               Forall (fun c => find_connection cli (id c) = None
                                /\ In (id c) (map stored_id rest)) more ->
               Forall (fun c => find_connection cli (id c) = None
                                /\ In (id c) (map stored_id (stored :: rest))) more).
    { intros more. apply Forall_impl. intros c [H1 H2]. split; [exact H1 | now right]. }
    destruct (find_connection cli (stored_id stored)) as [c|] eqn:Ecli.
    + destruct (IH storedConnections w) as (more & w' & E & Hall).
      exists more, w'. split; [exact E | now apply Hlater].
    + destruct (createConnection host (stored_id stored) (stored_connectionString stored) w)
        as [[conn|e|] w1] eqn:Ec.
      * destruct (IH (storedConnections ++ [conn]) w1) as (more & w' & E & Hall).
        exists (conn :: more), w'. rewrite E, <- app_assoc. split; [reflexivity|].
        apply createConnection_made in Ec. destruct Ec as [Hid _].
        constructor; [|now apply Hlater].
        rewrite Hid. split; [exact Ecli | now left].
      * destruct (IH storedConnections w1) as (more & w' & E & Hall).
        exists more, w'. split; [exact E | now apply Hlater].
      * exfalso.
        pose proof (settles_createConnection host (stored_id stored)
                      (stored_connectionString stored) w) as Hs.
        rewrite Ec in Hs. now apply Hs.
Qed.

Lemma find_connection_app (xs ys : list DatabaseConnection) id' c :
  find_connection xs id' = Some c -> find_connection (xs ++ ys) id' = Some c.
Proof.
  unfold find_connection. induction xs as [|x xs IH]; cbn [app find]; [discriminate|].
  destruct (id x =? id')%string; [trivial | exact IH].
Qed.

End LoadRegistry.

(** X23.  [createConnection] decides the vendor by the protocol of the
    address alone.  A handle it returns carries the name it was asked for and
    one of five vendors, never the MariaDB tag: Oracle with the upper-cased
    user as schema, PostgreSQL with schema [public] and the address as given,
    MySQL without schema and with the path of the address as database, SQL
    Server with schema [dbo], or the embedded engine.  Any other protocol is
    refused with an error that names it, before any library is called, and an
    address that cannot be parsed is refused with the error of the parser. *)
Theorem createConnection_by_protocol :
  forall W (host : Host W) (id' uri : string) (w : W),
    (forall conn w',
        createConnection host id' uri w = (Return conn, w') ->
        id conn = id'
        /\ exists url,
             parse_address host uri = Ok url
             /\ match vendor_of conn with
                | oracle =>
                    replace_first (protocol url) ":" "" = "oracle"%string
                    /\ (exists user, decodeURIComponent host (username url) = Ok user
                                     /\ schema (config conn) = Some (toUpperCase user))
                | postgresql =>
                    (replace_first (protocol url) ":" "" = "postgres"%string
                     \/ replace_first (protocol url) ":" "" = "postgresql"%string)
                    /\ schema (config conn) = Some "public"%string
                    /\ connectionString conn = uri
                | mysql =>
                    replace_first (protocol url) ":" "" = "mysql"%string
                    /\ schema (config conn) = None
                    /\ database (config conn)
                       = match new_URL host uri with
                         | Ok parsed => Some (substring_from 1 (pathname parsed))
                         | Err _ => None
                         end
                    /\ connectionString conn = uri
                | sqlserver =>
                    (replace_first (protocol url) ":" "" = "sqlserver"%string
                     \/ replace_first (protocol url) ":" "" = "mssql"%string)
                    /\ schema (config conn) = Some "dbo"%string
                | sqlite =>
                    (replace_first (protocol url) ":" "" = "sqlite"%string
                     \/ replace_first (protocol url) ":" "" = "file"%string)
                    /\ schema (config conn) = None
                | mariadb | other_vendor _ => False
                end)
    /\ (forall url,
          parse_address host uri = Ok url ->
          ~ In (replace_first (protocol url) ":" "") known_protocols ->
          createConnection host id' uri w
          = (Throw ("Unsupported protocol: " ++ replace_first (protocol url) ":" "")%string,
             w))
    /\ (forall message,
          parse_address host uri = Err message ->
          createConnection host id' uri w = (Throw message, w)).
Proof.
  intros W host id' uri w. split; [|split].
  - intros conn w'. apply createConnection_made.
  - intros url Hurl Hp. unfold createConnection, bind, of_result. rewrite Hurl. cbn [settle].
    cbv zeta. unfold known_protocols in Hp. cbn [In] in Hp.
    repeat match goal with
           | |- context [(?a =? ?b)%string] =>
               let E := fresh "E" in
               destruct (String.eqb_spec a b) as [E|E];
               [exfalso; apply Hp; rewrite E; repeat first [left; reflexivity | right]|]
           end.
    cbn [orb]. reflexivity.
  - intros message Hurl. unfold createConnection, bind, of_result. now rewrite Hurl.
Qed.

(** X24.  [loadConnections] never throws, whatever the arguments and
    whatever the libraries answer.  Every connection it returns is named by a
    flag of the command line, the flag being followed by an argument that is
    not itself a flag; a flag and its value give at most one connection, so
    there are at most half as many connections as arguments. *)
Theorem loadConnections_from_flags :
  forall W (host : Host W) (args : list string) (w : W),
  exists loaded w',
    loadConnections host args w = (Return loaded, w')
    /\ Forall (from_flag args) loaded
    /\ (2 * length loaded <= length args)%nat.
Proof.
  intros W host args w. unfold loadConnections.
  destruct (@load_from_loads W host (length args) args [] w (Nat.le_refl _))
    as (loaded & w' & E & Hall & Hlen).
  exists loaded, w'. auto.
Qed.

(** X25.  The registry [main] builds.  Loading never throws.  When the store
    cannot be read the registry stays empty, connections of the command line
    included.  Otherwise the registry is the connections of the command line
    followed by those of the store; a stored connection whose name the command
    line defines is not opened, so looking up a name the command line defines
    gives the connection of the command line. *)
Theorem load_registry_command_line_first :
  forall W (host : Host W) (args : list string) (w : W),
  exists registry w' cli w1,
    load_registry host args w = (Return registry, w')
    /\ loadConnections host args w = (Return cli, w1)
    /\ ((registry = [] /\ exists message, fst (store_getConnections host w1) = Err message)
        \/ (exists storedConfigs stored,
              fst (store_getConnections host w1) = Ok storedConfigs
              /\ registry = cli ++ stored
              /\ Forall (fun c => find_connection cli (id c) = None
                                  /\ In (id c) (map stored_id storedConfigs)) stored
              /\ (forall id' c, find_connection cli id' = Some c ->
                                find_connection registry id' = Some c))).
Proof.
  intros W host args w. unfold load_registry, try_catch, bind, loadConnections.
  destruct (@load_from_loads W host (length args) args [] w (Nat.le_refl _))
    as (cli & w1 & Ecli & _). cbn [app] in Ecli. rewrite Ecli.
  unfold outside.
  destruct (store_getConnections host w1) as [[storedConfigs|message] w2] eqn:Es;
    cbn [settle fst].
  - destruct (load_stored_loads host cli storedConfigs [] w2) as (stored & w3 & E & Hall).
    cbn [app] in E. rewrite E. unfold ret.
    exists (cli ++ stored), w3, cli, w1. split; [reflexivity|]. split; [reflexivity|].
    right. exists storedConfigs, stored. split; [now rewrite Es|]. split; [reflexivity|].
    split; [exact Hall|]. intros id' c. apply find_connection_app.
  - unfold ret. exists [], w2, cli, w1. split; [reflexivity|]. split; [reflexivity|].
    left. split; [reflexivity|]. exists message. now rewrite Es.
Qed.

(** X26.  A MySQL connection opened from an address without a database path
    cannot list its tables: [createConnection] records the empty path as the
    database, and [listTables] on that handle throws the missing-database
    error without a native call. *)
Theorem mysql_connection_without_database_cannot_list :
  forall W (host : Host W) S (drv : Driver S) (id' uri : string) (w : W)
         (conn : DatabaseConnection) (w' : W) (url : URL),
    createConnection host id' uri w = (Return conn, w') ->
    vendor_of conn = mysql ->
    new_URL host uri = Ok url ->
    pathname url = ""%string \/ pathname url = "/"%string ->
    forall w2 : world S,
      listTables drv conn w2 = (Throw "Database name required for MySQL", w2).
Proof.
  intros W host S drv id' uri w conn w' url Hc Hv Hurl Hpath w2.
  apply createConnection_made in Hc. destruct Hc as (_ & url' & _ & Hshape).
  rewrite Hv in Hshape. destruct Hshape as (_ & _ & Hdb & _).
  rewrite Hurl in Hdb. unfold listTables. rewrite Hv, Hdb.
  destruct Hpath as [-> | ->]; reflexivity.
Qed.

Lemma mysql_connection_without_database_cannot_list_witness :
  exists conn,
    fst (createConnection desk "m" "mysql://app:secret@db" tt) = Return conn
    /\ listTables quiet conn fresh = (Throw "Database name required for MySQL", fresh).
Proof.
  eexists. split; [reflexivity|].
  eapply (@mysql_connection_without_database_cannot_list unit desk unit quiet
            "m" "mysql://app:secret@db" tt _ tt (bare_URL "mysql" "app:secret@db" ""));
    [reflexivity | reflexivity | reflexivity | now left].
Defined.

Lemma createConnection_by_protocol_witness :
  createConnection desk "old" "mariadb://app:secret@db/shop" tt
  = (Throw "Unsupported protocol: mariadb", tt)
  /\ exists conn,
       createConnection desk "shop" "postgres://app:secret@db/shop" tt = (Return conn, tt)
       /\ id conn = "shop"%string.
Proof.
  destruct (createConnection_by_protocol desk "old" "mariadb://app:secret@db/shop" tt)
    as (_ & Hunknown & _).
  split.
  - apply (Hunknown (bare_URL "mariadb" "app:secret@db/shop" "/shop")); [reflexivity|].
    cbn. intros H. repeat destruct H as [H|H]; try discriminate H. exact H.
  - eexists. split; [reflexivity|].
    destruct (createConnection_by_protocol desk "shop" "postgres://app:secret@db/shop" tt)
      as (Hmade & _).
    exact (proj1 (Hmade _ _ eq_refl)).
Defined.

(* ================================================================== *)
(** * The files of [ContextService] *)

Lemma safe_char_facts (c : ascii) :
  safe_char c = true -> c <> "/"%char /\ c <> ascii_of_nat 92.
Proof. destruct c as [[] [] [] [] [] [] [] []]; vm_compute; intros H; split; congruence. Qed.

Lemma safeId_safe (s : string) : every safe_char (safeId s) = true.
Proof.
  induction s as [|c s IH]; [reflexivity|]. cbn [safeId every]. rewrite IH, andb_true_r.
  destruct (safe_char c) eqn:E; [exact E | reflexivity].
Qed.

Lemma safeId_length (s : string) : String.length (safeId s) = String.length s.
Proof. induction s as [|c s IH]; cbn; [reflexivity | now rewrite IH]. Qed.

Lemma safeId_fixed (s : string) : every safe_char s = true <-> safeId s = s.
Proof.
  induction s as [|c s IH]; cbn [every safeId]; [tauto|]. split.
  - intros H. apply andb_prop in H as [Hc Hs]. rewrite Hc. f_equal. now apply IH.
  - intros [= Hc Hs]. apply IH in Hs. rewrite Hs, andb_true_r.
    destruct (safe_char c) eqn:E; [reflexivity|]. subst c. discriminate E.
Qed.

Lemma safeId_app (a b : string) : safeId (a ++ b) = (safeId a ++ safeId b)%string.
Proof. induction a as [|c a IH]; cbn; [reflexivity | now rewrite IH]. Qed.


(** A text of safe characters holds no path separator. *)
Lemma safe_no_separator (s : string) :
  every safe_char s = true -> includes s "/" = false /\ includes s backslash = false.
Proof.
  induction s as [|c s IH]; intros H; [split; reflexivity|].
  cbn [every] in H. apply andb_prop in H as [Hc Hs].
  destruct (IH Hs) as [H1 H2]. destruct (safe_char_facts _ Hc) as [N1 N2].
  cbn [includes]. rewrite H1, H2, !orb_false_r.
  split; cbn [String.prefix].
  - destruct (ascii_dec "/" c) as [E|_]; [now elim N1 | reflexivity].
  - unfold backslash. cbn [String.prefix].
    destruct (ascii_dec (ascii_of_nat 92) c) as [E|_]; [now elim N2 | reflexivity].
Qed.

(** X27.  The file of a context stays in the contexts directory.  Whatever
    the connection id, the name [getFilePath] hands to [path.join] is the
    sanitised id followed by [.md]: it is made of letters, digits,
    underscores, hyphens and dots only, so it holds no path separator, and it
    is neither [.] nor [..].  Sanitising keeps the length of the id, changes
    nothing when applied again, and leaves an id as it is exactly when all its
    characters are of that class. *)
Theorem getFilePath_stays_in_directory :
  forall W (disk : Disk W) (contextsDir connectionId : string),
    let name := (safeId connectionId ++ ".md")%string in
    getFilePath disk contextsDir connectionId = path_join disk contextsDir name
    /\ every safe_char name = true
    /\ includes name "/" = false /\ includes name backslash = false
    /\ name <> "."%string /\ name <> ".."%string
    /\ String.length (safeId connectionId) = String.length connectionId
    /\ safeId (safeId connectionId) = safeId connectionId
    /\ (every safe_char connectionId = true <-> safeId connectionId = connectionId).
Proof.
  intros W disk contextsDir connectionId name.
  assert (Hsafe : every safe_char name = true).
  { unfold name. rewrite every_app, safeId_safe. reflexivity. }
  split; [reflexivity|]. split; [exact Hsafe|].
  destruct (safe_no_separator _ Hsafe) as [H1 H2].
  split; [exact H1|]. split; [exact H2|].
  assert (Hlen : (3 <= String.length name)%nat).
  { unfold name. rewrite length_append. cbn. lia. }
  split; [intros E; rewrite E in Hlen; cbn in Hlen; lia|].
  split; [intros E; rewrite E in Hlen; cbn in Hlen; lia|].
  split; [apply safeId_length|].
  split; [apply safeId_fixed, safeId_safe | apply safeId_fixed].
Qed.

(** X28.  Sanitising is not one-to-one: an id with a character outside the
    class and the id with an underscore in its place have the same file, so
    [saveContext], [getContext] and [hasContext] cannot tell the two
    connections apart and saving the context of one overwrites that of the
    other. *)
Theorem contexts_of_colliding_names_share_a_file :
  forall W (disk : Disk W) (contextsDir a b : string) (c : ascii),
    safe_char c = false ->
    getFilePath disk contextsDir (a ++ String c b)
    = getFilePath disk contextsDir (a ++ String "_" b)
    /\ (forall content w,
          saveContext disk contextsDir (a ++ String c b) content w
          = saveContext disk contextsDir (a ++ String "_" b) content w)
    /\ (forall w,
          getContext disk contextsDir (a ++ String c b) w
          = getContext disk contextsDir (a ++ String "_" b) w)
    /\ (forall w,
          hasContext disk contextsDir (a ++ String c b) w
          = hasContext disk contextsDir (a ++ String "_" b) w).
Proof.
  intros W disk contextsDir a b c Hc.
  assert (E : getFilePath disk contextsDir (a ++ String c b)
              = getFilePath disk contextsDir (a ++ String "_" b)).
  { unfold getFilePath. rewrite !safeId_app. cbn [safeId]. rewrite Hc. reflexivity. }
  split; [exact E|].
  unfold saveContext, getContext, hasContext. rewrite E. repeat split.
Qed.

Lemma contexts_of_colliding_names_share_a_file_witness :
  getFilePath plain_disk "contexts" "sales/eu" = "contexts/sales_eu.md"%string
  /\ saveContext plain_disk "contexts" "sales/eu" "notes" tt
     = saveContext plain_disk "contexts" "sales_eu" "notes" tt.
Proof.
  split; [reflexivity|].
  exact (proj1 (proj2 (@contexts_of_colliding_names_share_a_file unit plain_disk "contexts"
                         "sales" "eu" "/"%char eq_refl)) "notes"%string tt).
Defined.

(** ** The names [listContexts] gives back *)


Lemma split_at_head pattern s following :
  strip_prefix pattern s = Some following ->
  split_at pattern s = Some (EmptyString, following).
Proof. intros H. destruct s; cbn [split_at]; now rewrite H. Qed.

(** The pattern occurs: [split_at] finds an occurrence. *)
Lemma split_at_finds pattern following : forall preceding,
  split_at pattern (preceding ++ pattern ++ following) <> None.
Proof.
  induction preceding as [|c preceding IH].
  - cbn [String.append].
    rewrite (split_at_head _ _ (strip_prefix_complete pattern following)). discriminate.
  - cbn [String.append split_at].
    destruct (strip_prefix pattern (String c (preceding ++ pattern ++ following)));
      [discriminate|].
    destruct (split_at pattern (preceding ++ pattern ++ following)) as [[p q]|];
      [discriminate | now elim IH].
Qed.

Lemma substring_from_split (s : string) : forall n,
  exists lead, s = (lead ++ substring_from n s)%string.
Proof.
  induction s as [|c s IH]; intros n.
  - exists EmptyString. now destruct n.
  - destruct n as [|n]; [now exists EmptyString|].
    destruct (IH n) as (lead & E). exists (String c lead). cbn. now rewrite <- E.
Qed.

Lemma endsWith_split s tail : endsWith s tail = true -> exists lead, s = (lead ++ tail)%string.
Proof.
  unfold endsWith. intros H. apply andb_prop in H as [_ H]. apply String.eqb_eq in H.
  destruct (substring_from_split s (String.length s - String.length tail)) as (lead & E).
  exists lead. now rewrite <- H.
Qed.

Lemma endsWith_append lead tail : endsWith (lead ++ tail) tail = true.
Proof.
  unfold endsWith. rewrite length_append.
  replace (String.length lead + String.length tail - String.length tail)%nat
    with (String.length lead) by lia.
  rewrite substring_from_append, String.eqb_refl, andb_true_r.
  apply Nat.leb_le. lia.
Qed.

(** The first [.md] of a text that has none before it. *)
Lemma split_at_first name tail :
  includes name ".md" = false ->
  split_at ".md" (name ++ ".md" ++ tail) = Some (name, tail).
Proof.
  induction name as [|c name IH]; intros H; [reflexivity|].
  pose proof (includes_tail _ _ _ H) as Hname. specialize (IH Hname).
  cbn [String.append]. cbn [split_at]. cbn [String.append] in IH. rewrite IH.
  assert (Hnone : strip_prefix ".md" (String c (name ++ String "." (String "m" (String "d" tail))))
                  = None).
  { cbn [includes] in H. apply orb_false_elim in H as [H _].
    cbn [strip_prefix].
    destruct (Ascii.eqb_spec c ".") as [->|]; [|reflexivity].
    destruct name as [|x name]; [reflexivity|]. cbn [String.append].
    destruct (Ascii.eqb_spec x "m") as [->|]; [|reflexivity].
    destruct name as [|y name]; [reflexivity|]. cbn [String.append].
    destruct (Ascii.eqb_spec y "d") as [->|]; [|reflexivity].
    exfalso. revert H. clear. destruct name; vm_compute; discriminate. }
  now rewrite Hnone.
Qed.

(** X29.  [listContexts] never throws, and a directory that cannot be read
    gives the empty list.  Otherwise it lists at most one name per file; a
    name without [.md] inside is listed when its file [name.md] is there, but
    the extension is removed at its first occurrence, not at the end: the
    file [name.md<tail>.md] is listed as [name<tail>.md].  Every listed name
    is a file name with one [.md] taken out. *)
Theorem listContexts_names :
  forall W (disk : Disk W) (contextsDir : string) (w : W),
  exists names w',
    listContexts disk contextsDir w = (Return names, w')
    /\ (forall e, fst (fs_readdir disk contextsDir w) = Failed e -> names = [])
    /\ (forall files,
          fst (fs_readdir disk contextsDir w) = Done files ->
          (forall name, includes name ".md" = false ->
                        In (name ++ ".md")%string files -> In name names)
          /\ (forall name tail,
                includes name ".md" = false ->
                In (name ++ ".md" ++ tail ++ ".md")%string files ->
                In (name ++ tail ++ ".md")%string names)
          /\ (forall listed, In listed names ->
                exists name tail,
                  listed = (name ++ tail)%string
                  /\ In (name ++ ".md" ++ tail)%string files)
          /\ (length names <= length files)%nat).
Proof.
  intros W disk contextsDir w. unfold listContexts.
  destruct (fs_readdir disk contextsDir w) as [[files|e] w'] eqn:E; cbn [fst].
  2:{ exists [], w'. split; [reflexivity|]. split; [reflexivity | discriminate]. }
  eexists _, w'. split; [reflexivity|]. split; [discriminate|].
  intros files' [= <-].
  assert (Hlisted : forall name tail,
             includes name ".md" = false ->
             endsWith (name ++ ".md" ++ tail) ".md" = true ->
             In (name ++ ".md" ++ tail)%string files ->
             In (name ++ tail)%string
               (map (fun f => replace_first f ".md" "")
                  (filter (fun f => endsWith f ".md") files))).
  { intros name tail Hname Hends Hin.
    apply in_map_iff. exists (name ++ ".md" ++ tail)%string. split.
    - unfold replace_first. rewrite (split_at_first _ tail Hname). reflexivity.
    - apply filter_In. now split. }
  split; [|split; [|split]].
  - intros name Hname Hin.
    rewrite <- (append_empty_r name). apply Hlisted; [exact Hname | | ].
    + cbn [String.append]. apply endsWith_append.
    + exact Hin.
  - intros name tail Hname Hin. apply Hlisted; [exact Hname | | exact Hin].
    rewrite <- !append_assoc. apply endsWith_append.
  - intros listed Hin. apply in_map_iff in Hin as (f & <- & Hf).
    apply filter_In in Hf as [Hf Hends].
    destruct (endsWith_split _ _ Hends) as (lead & ->).
    unfold replace_first.
    destruct (split_at ".md" (lead ++ ".md")) as [[p q]|] eqn:Es.
    + exists p, q. split; [reflexivity|].
      rewrite <- (split_at_sound _ _ Es). exact Hf.
    + exfalso. apply (@split_at_finds ".md" EmptyString lead).
      rewrite append_empty_r. exact Es.
  - rewrite length_map. apply filter_length_le.
Qed.
